(** * Verification of the chunk pipeline and the extraction scorer

    A shallow embedding of the Python sources

      - [erevaluation/evaluation2.py]  (record parser, greedy scorer, PRF1),
      - [erevaluation/erevaluation.py] (single-row batch extraction driver),
      - [linkkg-no-str-prompt/ner.py]  (JSON extraction with key repair),
      - [linkkgfull/loopcoref.py]      (coreference resolver, global memory),
      - [linkkg-no-str-prompt/resolve_coref.py] (final resolver),

    together with the properties the specification states about them.

    Conventions.  Python [str] values are Rocq [string]s of 8-bit characters
    holding ASCII text; on characters below 128 the text functions of
    [PyStr] agree with the [str] methods they are named after.  Python
    dictionaries are [gmap]s where only their content matters (the
    per-type counters) and insertion-ordered association lists where they
    are printed into a prompt (the global memory, decoded JSON objects);
    the keys of a decoded object are strings, those of the global memory
    are any hashable decoded values, as [dict.update] takes them from a
    list of pairs.
    A Python exception is the [Raise] outcome of a computation and carries
    [str(e)].  The libraries [re], [json] and [requests] are not part of
    the sources: [Regex] and [Json] model the parts of the first two that
    the sources use, and a call of the completion service is a parameter
    of the pipeline stages.  Log lines are left out. *)

From Stdlib Require Import Ascii String QArith Qcanon Floats.SpecFloat.
From stdpp Require Import gmap strings list fin_maps pretty.

Local Open Scope string_scope.
Local Open Scope list_scope.

Local Set Warnings "-register-all,-abstract-large-number,-clear-no-such-hyp".

(** ** Python string methods *)

Module PyStr.

(** [str.isspace] on one ASCII character: TAB..CR, FS..US and SPACE. *)
Definition isspace (c : ascii) : bool :=
  let n := nat_of_ascii c in
  ((9 <=? n)%nat && (n <=? 13)%nat) || ((28 <=? n)%nat && (n <=? 32)%nat).

Definition is_empty (s : string) : bool :=
  match s with "" => true | _ => false end.

Fixpoint lstrip (s : string) : string :=
  match s with
  | "" => ""
  | String c s' => if isspace c then lstrip s' else s
  end.

Fixpoint rstrip (s : string) : string :=
  match s with
  | "" => ""
  | String c s' =>
      let r := rstrip s' in
      if isspace c && is_empty r then "" else String c r
  end.

(** [s.strip()] *)
Definition strip (s : string) : string := rstrip (lstrip s).

Definition lower_char (c : ascii) : ascii :=
  let n := nat_of_ascii c in
  if (65 <=? n)%nat && (n <=? 90)%nat then ascii_of_nat (n + 32) else c.

(** [s.lower()] *)
Fixpoint lower (s : string) : string :=
  match s with
  | "" => ""
  | String c s' => String (lower_char c) (lower s')
  end.

(** [s.split()] : the maximal runs of non-whitespace characters. *)
Definition head_is_space (s : string) : bool :=
  match s with
  | "" => true
  | String d _ => isspace d
  end.

Fixpoint split_ws (s : string) : list string :=
  match s with
  | "" => []
  | String c s' =>
      let r := split_ws s' in
      if isspace c then r
      else if head_is_space s' then String c "" :: r
      else match r with
           | w :: ws => String c w :: ws
           | [] => [String c ""]
           end
  end.

(** [sep.join(l)] *)
Fixpoint join (sep : string) (l : list string) : string :=
  match l with
  | [] => ""
  | [x] => x
  | x :: l' => x +:+ sep +:+ join sep l'
  end.

(** [s.startswith(p)] *)
Fixpoint startswith (p s : string) : bool :=
  match p, s with
  | "", _ => true
  | String a p', String b s' => bool_decide (a = b) && startswith p' s'
  | _, _ => false
  end.

(** [sub in s] *)
Fixpoint contains (sub s : string) : bool :=
  startswith sub s ||
  match s with
  | "" => false
  | String _ s' => contains sub s'
  end.

(** [s[n:]] and [s[:n]] *)
Fixpoint drop (n : nat) (s : string) : string :=
  match n, s with
  | S n', String _ s' => drop n' s'
  | _, _ => s
  end.

Fixpoint take (n : nat) (s : string) : string :=
  match n, s with
  | S n', String c s' => String c (take n' s')
  | _, _ => ""
  end.

(** [s.split(sep)] for a non-empty [sep]: the text is cut at the
    occurrences of [sep] found scanning left to right, without overlap.
    [skip] counts the characters of a separator still to be passed. *)
Fixpoint split_go (sep s : string) (skip : nat) : list string :=
  match s with
  | "" => [""]
  | String c s' =>
      match skip with
      | S k => split_go sep s' k
      | O =>
          if startswith sep s then "" :: split_go sep s' (String.length sep - 1)
          else match split_go sep s' 0 with
               | w :: ws => String c w :: ws
               | [] => [String c ""]
               end
      end
  end.

Definition split (sep s : string) : list string := split_go sep s 0.

(** [s.endswith(p)] *)
Definition endswith (p s : string) : bool :=
  (String.length p <=? String.length s)%nat
  && bool_decide (drop (String.length s - String.length p) s = p).

(** [s.replace(old, new)] for a non-empty [old]. *)
Definition replace (old new s : string) : string := join new (split old s).

(** [list(s)]: the characters of [s].  A character above 127 is held as
    the bytes of its UTF-8 encoding, the first of which is followed by
    bytes between 128 and 191. *)
Definition head_is_continuation (s : string) : bool :=
  match s with
  | "" => false
  | String d _ =>
      let n := nat_of_ascii d in (128 <=? n)%nat && (n <? 192)%nat
  end.

Fixpoint chars (s : string) : list string :=
  match s with
  | "" => []
  | String c s' =>
      let r := chars s' in
      if head_is_continuation s' then
        match r with
        | w :: ws => String c w :: ws
        | [] => [String c ""]
        end
      else String c "" :: r
  end.

End PyStr.


(** ** [evaluation2.py]: constants and normalisation *)

Definition TUPLE_DELIM : string := "{tuple_delimiter}".
Definition RECORD_DELIM : string := "{record_delimiter}".
Definition COMPLETION_DELIM : string := "{completion_delimiter}".

Definition ALL_ENTITY_TYPES : list string :=
  [ "person"; "means_of_transportation"; "means_of_communication"; "routes";
    "location"; "smuggled_items"; "organization" ].

Definition normalize_text (s : string) : string :=
  PyStr.join " " (PyStr.split_ws (PyStr.lower (PyStr.strip s))).

(** ** [evaluation2.py]: the scorer *)

(** An entity is a [(name, type)] tuple, a relation a [(head, tail)] tuple. *)
Definition entity : Type := string * string.
Definition relation : Type := string * string.

(** The dictionary [{"tp": _, "fp": _, "fn": _}]. *)
Record counts := Counts { tp : nat; fp : nat; fn : nat }.

Definition zero_counts : counts := Counts 0 0 0.
Definition inc_tp (c : counts) : counts := Counts (S (tp c)) (fp c) (fn c).
Definition inc_fp (c : counts) : counts := Counts (tp c) (S (fp c)) (fn c).
Definition inc_fn (c : counts) : counts := Counts (tp c) (fp c) (S (fn c)).

(** [if t not in per_type_counts: per_type_counts[t] = {0,0,0}] followed by
    [per_type_counts[t][field] += 1]. *)
Definition setdefault_zero (t : string) (m : gmap string counts) : gmap string counts :=
  match m !! t with
  | None => <[t := zero_counts]> m
  | Some _ => m
  end.

Definition bump (f : counts → counts) (t : string) (m : gmap string counts)
  : gmap string counts :=
  alter f t (setdefault_zero t m).

(** [{etype: {"tp": 0, "fp": 0, "fn": 0} for etype in ALL_ENTITY_TYPES}] *)
Definition init_per_type : gmap string counts :=
  foldl (fun m t => <[t := zero_counts]> m) ∅ ALL_ENTITY_TYPES.

(** The inner loop of [score_entities]: the first index [i] of
    [enumerate(gold_entities)] with [not gold_used[i]] and equal name and
    type.  [gold] is the part of the list still to be scanned, starting at
    index [i]. *)
Fixpoint find_match (p : entity) (gold_used : list bool)
    (gold : list entity) (i : nat) : option nat :=
  match gold with
  | [] => None
  | g :: gold' =>
      if negb (default true (gold_used !! i))
         && bool_decide (p.1 = g.1) && bool_decide (p.2 = g.2)
      then Some i
      else find_match p gold_used gold' (S i)
  end.

(** The state of [score_entities] while it runs. *)
Record score_state := ScoreState {
  st_used : list bool;
  st_overall : counts;
  st_per_type : gmap string counts
}.

(** One iteration of STEP 1 (a prediction is a TP or an FP). *)
Definition score_pred (gold : list entity) (st : score_state) (p : entity)
  : score_state :=
  match find_match p (st_used st) gold 0 with
  | Some match_index =>
      ScoreState (<[match_index := true]> (st_used st))
                 (inc_tp (st_overall st))
                 (bump inc_tp p.2 (st_per_type st))
  | None =>
      ScoreState (st_used st)
                 (inc_fp (st_overall st))
                 (bump inc_fp p.2 (st_per_type st))
  end.

(** One iteration of STEP 2 over [zip(gold_used, gold_entities)]. *)
Definition score_gold (acc : counts * gmap string counts)
    (ug : bool * entity) : counts * gmap string counts :=
  if negb ug.1 then (inc_fn acc.1, bump inc_fn ug.2.2 acc.2) else acc.

Definition score_entities (gold_entities pred_entities : list entity)
  : counts * gmap string counts :=
  let st0 := ScoreState (replicate (length gold_entities) false)
                        zero_counts init_per_type in
  let st1 := foldl (score_pred gold_entities) st0 pred_entities in
  foldl score_gold (st_overall st1, st_per_type st1)
        (zip (st_used st1) gold_entities).

(** [flags.count(False)] *)
Definition count_false (flags : list bool) : nat :=
  length (filter (fun b => b = false) flags).

(** The relation-scoring loop of [main] (lines 257-271).  [pr in gold_rel]
    and [gold_rel.index(pr)] are the membership test and the first index of
    an equal element. *)
Fixpoint list_index (x : relation) (l : list relation) : option nat :=
  match l with
  | [] => None
  | y :: l' => if bool_decide (x = y) then Some 0
               else S <$> list_index x l'
  end.

Definition rel_pred (gold_rel : list relation) (st : list bool * counts)
    (pr : relation) : list bool * counts :=
  match list_index pr gold_rel with
  | Some m =>
      if negb (default true (st.1 !! m))
      then (<[m := true]> st.1, inc_tp st.2)
      else (st.1, inc_fp st.2)
  | None => (st.1, inc_fp st.2)
  end.

Definition score_relations (gold_rel pred_rel : list relation) : counts :=
  let st := foldl (rel_pred gold_rel)
                  (replicate (length gold_rel) false, zero_counts) pred_rel in
  Counts (tp st.2) (fp st.2) (count_false st.1).

(** The greedy policy in the words of the specification, on any tuples:
    each prediction, in order, takes the first gold item not yet used that
    equals it (TP) or else is an FP; the gold items left are FNs.  The gold
    items not yet used are kept as a list, a matched one is removed. *)
Fixpoint remove_first (p : string * string) (l : list (string * string))
  : option (list (string * string)) :=
  match l with
  | [] => None
  | g :: l' => if bool_decide (p = g) then Some l'
               else cons g <$> remove_first p l'
  end.

Fixpoint greedy_counts (unused pred : list (string * string)) (acc : counts)
  : counts :=
  match pred with
  | [] => Counts (tp acc) (fp acc) (fn acc + length unused)
  | p :: pred' =>
      match remove_first p unused with
      | Some unused' => greedy_counts unused' pred' (inc_tp acc)
      | None => greedy_counts unused pred' (inc_fp acc)
      end
  end.

Definition greedy_policy (gold pred : list (string * string)) : counts :=
  greedy_counts gold pred zero_counts.

(** ** [evaluation2.py]: [compute_prf1]

    Python computes the three quotients in binary floating point; here they
    are exact rationals.  What is modelled exactly is which divisions are
    evaluated and that a division by zero raises. *)

Inductive result (A : Type) : Type :=
  | Ok (a : A)
  | Raise (msg : string).
Arguments Ok {A} a.
Arguments Raise {A} msg.

#[global] Instance result_ret : MRet result := fun A a => Ok a.
#[global] Instance result_bind : MBind result := fun A B k r =>
  match r with
  | Ok a => k a
  | Raise msg => Raise msg
  end.

Definition int_to_Qc (n : nat) : Qc := Qc_of_Z (Z.of_nat n).

(** [a / b], which raises [ZeroDivisionError] when [b] is zero. *)
Definition py_div (a b : Qc) : result Qc :=
  if decide (b = 0%Qc) then Raise "division by zero" else Ok (a / b)%Qc.

Definition compute_prf1 (tp fp fn : nat) : result (Qc * Qc * Qc) :=
  precision ← (if decide (0 < tp + fp)%nat
               then py_div (int_to_Qc tp) (int_to_Qc (tp + fp)) else Ok 0%Qc) ;
  recall ← (if decide (0 < tp + fn)%nat
            then py_div (int_to_Qc tp) (int_to_Qc (tp + fn)) else Ok 0%Qc) ;
  f1 ← (if decide (0 < precision + recall)%Qc
        then py_div (2 * precision * recall)%Qc (precision + recall)%Qc
        else Ok 0%Qc);
  Ok (precision, recall, f1).

(** ** Quantities used to state the properties *)

(** The sum of one field over all the buckets of a per-type dictionary. *)
Definition total (f : counts → nat) (m : gmap string counts) : nat :=
  map_fold (fun _ c n => f c + n) 0 m.

(** The gold items whose flag is still [False], in order. *)
Definition unused_of (gold_used : list bool) (gold : list (string * string))
  : list (string * string) :=
  (filter (fun ug => ug.1 = false) (zip gold_used gold)).*2.
Arguments unused_of : simpl never.

(** The buckets of a per-type dictionary agree with the overall counters. *)
Definition buckets_agree (overall : counts) (per_type : gmap string counts)
  : Prop :=
  total tp per_type = tp overall
  ∧ total fp per_type = fp overall
  ∧ total fn per_type = fn overall.

(** ** A fragment of Python's [re]

    Backtracking matching in the order of [re]: a greedy star takes the
    longest run first and gives characters back, a lazy plus takes the
    shortest run first, an alternation tries its left branch first.  Stars
    range over character classes, which is all the patterns of the sources
    need.  Groups are not nested in those patterns, so the captured texts
    are collected in the order of the groups. *)

Module Regex.

Inductive re : Type :=
  | Eps
  | Bol                           (* ^ *)
  | Eol                           (* $ *)
  | Lit (s : string)              (* literal text *)
  | Star (p : ascii → bool)       (* [class]*  *)
  | LazyPlus (p : ascii → bool)   (* [class]+? *)
  | Alt (a b : re)                (* a|b *)
  | Seq (a b : re)
  | Group (r : re).               (* ( ... ) *)

Definition first_of {R} (x y : option R) : option R :=
  match x with
  | Some r => Some r
  | None => y
  end.

Section Match.
Context {R : Type}.

(** [s] is the text not yet consumed, [pos] the number of characters
    consumed so far, [caps] the groups closed so far. *)
Definition cont : Type := string → nat → list string → option R.

Fixpoint star (p : ascii → bool) (k : cont) (s : string) (pos : nat)
    (caps : list string) : option R :=
  match s with
  | String c s' =>
      if p c then first_of (star p k s' (S pos) caps) (k s pos caps)
      else k s pos caps
  | EmptyString => k s pos caps
  end.

Fixpoint lazy_plus (p : ascii → bool) (k : cont) (s : string) (pos : nat)
    (caps : list string) : option R :=
  match s with
  | String c s' =>
      if p c then first_of (k s' (S pos) caps) (lazy_plus p k s' (S pos) caps)
      else None
  | EmptyString => None
  end.

Fixpoint run (r : re) (k : cont) (s : string) (pos : nat)
    (caps : list string) : option R :=
  match r with
  | Eps => k s pos caps
  | Bol => if decide (pos = 0) then k s pos caps else None
  | Eol =>
      (* the end of the text, or just before a final newline *)
      if PyStr.is_empty s || bool_decide (s = String "010"%char EmptyString)
      then k s pos caps else None
  | Lit l =>
      if PyStr.startswith l s
      then k (PyStr.drop (String.length l) s) (pos + String.length l) caps
      else None
  | Star p => star p k s pos caps
  | LazyPlus p => lazy_plus p k s pos caps
  | Alt a b => first_of (run a k s pos caps) (run b k s pos caps)
  | Seq a b => run a (run b k) s pos caps
  | Group r' =>
      run r' (fun s' pos' caps' =>
                k s' pos' (caps' ++ [PyStr.take (pos' - pos) s]))
          s pos caps
  end.

End Match.

Definition seq_of (l : list re) : re := foldr Seq Eps l.

(** [re.match(r, s)]: a match at the start of [s]; the result is
    [m.groups()]. *)
Definition re_match (r : re) (s : string) : option (list string) :=
  run r (fun _ _ caps => Some caps) s 0 [].

(** [re.sub(r, repl, s)] for a pattern that cannot match the empty text:
    the leftmost matches, without overlap, are replaced by [repl] of
    their groups.  [skip] counts the characters of a match still to be
    passed. *)
Fixpoint sub_go (r : re) (repl : list string → string) (s : string)
    (pos skip : nat) : string :=
  match s with
  | EmptyString => EmptyString
  | String c s' =>
      match skip with
      | S k => sub_go r repl s' (S pos) k
      | O =>
          match run r (fun _ pos' caps => Some (pos' - pos, caps)) s pos [] with
          | Some (S n, caps) => repl caps +:+ sub_go r repl s' (S pos) n
          | _ => String c (sub_go r repl s' (S pos) 0)
          end
      end
  end.

Definition re_sub (r : re) (repl : list string → string) (s : string)
  : string :=
  sub_go r repl s 0 0.

End Regex.

(** The double quote character, as a text. *)
Definition DQ : string := String "034"%char EmptyString.

Definition newline : ascii := "010"%char.

(** ** [evaluation2.py]: [parse_delimited_output] *)

(** The pattern of [re.match] in the loop: at the start an opening
    parenthesis, blanks, the keyword [entity] or [relationship] (group 1)
    between double quotes, blanks, any characters other than a newline
    (group 2, greedy), a closing parenthesis, blanks, the end. *)
Definition record_pattern : Regex.re :=
  Regex.seq_of
    [ Regex.Bol; Regex.Lit "("; Regex.Star PyStr.isspace; Regex.Lit DQ;
      Regex.Group (Regex.Alt (Regex.Lit "entity") (Regex.Lit "relationship"));
      Regex.Lit DQ; Regex.Star PyStr.isspace;
      Regex.Group (Regex.Star (fun c => negb (bool_decide (c = newline))));
      Regex.Lit ")"; Regex.Star PyStr.isspace; Regex.Eol ].

(** The dictionary [{"entities": _, "relations": _}]. *)
Record extraction := Extraction {
  entities : list entity;
  relations : list relation
}.

(** The body of the loop after the pattern has matched: [rec_type, rest =
    m.groups()] and what follows. *)
Definition parse_fields (allowed_lower : list string) (rec_type rest : string)
    (acc : extraction) : extraction :=
  let rest := if PyStr.startswith TUPLE_DELIM rest
              then PyStr.drop (String.length TUPLE_DELIM) rest else rest in
  let fields := PyStr.split TUPLE_DELIM rest in
  match fields with
  | f0 :: f1 :: _ =>
      if bool_decide (rec_type = "entity") then
        let name := normalize_text f0 in
        let etype := PyStr.lower (normalize_text f1) in
        if bool_decide (etype ∈ allowed_lower)
        then Extraction (entities acc ++ [(name, etype)]) (relations acc)
        else acc
      else if bool_decide (rec_type = "relationship") then
        let head := normalize_text f0 in
        let tail := normalize_text f1 in
        Extraction (entities acc) (relations acc ++ [(head, tail)])
      else acc
  | _ => acc
  end.

(** [if not rec or COMPLETION_DELIM in rec: break], on the stripped record. *)
Definition stops (rec : string) : bool :=
  PyStr.is_empty rec || PyStr.contains COMPLETION_DELIM rec.

Fixpoint parse_loop (allowed_lower : list string) (parts : list string)
    (acc : extraction) : extraction :=
  match parts with
  | [] => acc
  | rec :: parts' =>
      let rec := PyStr.strip rec in
      if stops rec then acc                                    (* break *)
      else match Regex.re_match record_pattern rec with
           | Some [rec_type; rest] =>
               parse_loop allowed_lower parts'
                 (parse_fields allowed_lower rec_type rest acc)
           | _ => parse_loop allowed_lower parts' acc          (* continue *)
           end
  end.

(** [raw] is [None] when the value passed is not a [str] (a missing cell). *)
Definition parse_delimited_output (raw : option string)
    (allowed_types : list string) : extraction :=
  match raw with
  | None => Extraction [] []
  | Some raw =>
      let parts := PyStr.split RECORD_DELIM raw in
      let allowed_lower :=
        (fun t => PyStr.strip (PyStr.lower t)) <$> allowed_types in
      parse_loop allowed_lower parts (Extraction [] [])
  end.

(** The text of a well-formed entity record and of a well-formed
    relationship record, as the delimited format writes them. *)
Definition entity_text (name etype : string) : string :=
  "(" +:+ DQ +:+ "entity" +:+ DQ +:+ TUPLE_DELIM +:+ name
      +:+ TUPLE_DELIM +:+ etype +:+ ")".

Definition relation_text (head tail : string) : string :=
  "(" +:+ DQ +:+ "relationship" +:+ DQ +:+ TUPLE_DELIM +:+ head
      +:+ TUPLE_DELIM +:+ tail +:+ ")".

Definition no_items : extraction := Extraction [] [].

(** [allowed_lower] of [parse_delimited_output]. *)
Definition lower_types (allowed_types : list string) : list string :=
  (fun t => PyStr.strip (PyStr.lower t)) <$> allowed_types.

(** ** The standard library's [json.loads]

    [json] is not part of the sources; this is a model of its decoder
    (module [json.decoder], strict mode) on ASCII text.  A JSON object
    becomes a [dict]: the keys in the order in which they first occur, a
    repeated key keeping its place and taking the later value.

    The model is that of the grammar.  The limits of the interpreter are
    not part of it: an integer of more digits than [int] converts (4300
    by default) makes [json.loads] raise a [ValueError] that is not a
    [JSONDecodeError], and a nesting deeper than the recursion limit a
    [RecursionError]; here such a document decodes. *)

Module Json.

Inductive json : Type :=
  | JNull
  | JBool (b : bool)
  | JInt (n : Z)
  | JFloat (lexeme : string)        (* a number with a fraction or exponent *)
  | JStr (s : string)
  | JArr (items : list json)
  | JObj (members : list (string * json)).

(** [d[k] = v] on an insertion-ordered dictionary. *)
Fixpoint dict_set (k : string) (v : json) (d : list (string * json))
  : list (string * json) :=
  match d with
  | [] => [(k, v)]
  | (k', v') :: d' =>
      if bool_decide (k = k') then (k, v) :: d' else (k', v') :: dict_set k v d'
  end.

(** [d.get(k)] *)
Fixpoint dict_get (k : string) (d : list (string * json)) : option json :=
  match d with
  | [] => None
  | (k', v') :: d' => if bool_decide (k = k') then Some v' else dict_get k d'
  end.

(** [dict(pairs)] *)
Definition dict_of_pairs (pairs : list (string * json)) : list (string * json) :=
  foldl (fun d kv => dict_set kv.1 kv.2 d) [] pairs.

(** A [JSONDecodeError]: the message and the position. *)
Record decode_error := DecodeError { err_msg : string; err_pos : nat }.

Definition fail {A} (msg : string) (pos : nat) : A + decode_error :=
  inr (DecodeError msg pos).

Definition is_ws (c : ascii) : bool :=
  bool_decide (c = " "%char) || bool_decide (c = "009"%char)
  || bool_decide (c = "010"%char) || bool_decide (c = "013"%char).

(** The text is always the suffix not yet read, with its position. *)
Fixpoint skip_ws (s : string) (pos : nat) : string * nat :=
  match s with
  | String c s' => if is_ws c then skip_ws s' (S pos) else (s, pos)
  | EmptyString => (s, pos)
  end.

Definition is_digit (c : ascii) : bool :=
  let n := nat_of_ascii c in (48 <=? n)%nat && (n <=? 57)%nat.

Definition hex_value (c : ascii) : option N :=
  let n := N_of_ascii c in
  if (48 <=? n)%N && (n <=? 57)%N then Some (n - 48)%N
  else if (65 <=? n)%N && (n <=? 70)%N then Some (n - 55)%N
  else if (97 <=? n)%N && (n <=? 102)%N then Some (n - 87)%N
  else None.

(** The four hexadecimal digits of a [\uXXXX] escape. *)
Definition hex4 (s : string) : option (N * string) :=
  match s with
  | String a (String b (String c (String d s'))) =>
      match hex_value a, hex_value b, hex_value c, hex_value d with
      | Some x, Some y, Some z, Some w =>
          Some ((((x * 16 + y) * 16 + z) * 16 + w)%N, s')
      | _, _, _, _ => None
      end
  | _ => None
  end.

(** [chr(n)], written in UTF-8 when [n] is not an ASCII code. *)
Definition chr (n : N) : string :=
  let byte k := String (ascii_of_N k) EmptyString in
  (if n <? 128 then byte n
   else if n <? 2048 then byte (192 + n / 64) +:+ byte (128 + n mod 64)
   else if n <? 65536 then
     byte (224 + n / 4096) +:+ byte (128 + (n / 64) mod 64)
     +:+ byte (128 + n mod 64)
   else
     byte (240 + n / 262144) +:+ byte (128 + (n / 4096) mod 64)
     +:+ byte (128 + (n / 64) mod 64) +:+ byte (128 + n mod 64))%N.

Definition simple_escape (c : ascii) : option ascii :=
  if bool_decide (c = "034"%char) then Some "034"%char
  else if bool_decide (c = "\"%char) then Some "\"%char
  else if bool_decide (c = "/"%char) then Some "/"%char
  else if bool_decide (c = "b"%char) then Some "008"%char
  else if bool_decide (c = "f"%char) then Some "012"%char
  else if bool_decide (c = "n"%char) then Some "010"%char
  else if bool_decide (c = "r"%char) then Some "013"%char
  else if bool_decide (c = "t"%char) then Some "009"%char
  else None.

(** [scanstring]: the text after the opening quote up to the closing one.
    [begin] is the position of the opening quote.  An invalid escape is
    reported at its backslash. *)
Fixpoint scanstring (fuel : nat) (s : string) (pos begin : nat)
  : (string * string * nat) + decode_error :=
  match fuel with
  | O => fail "Unterminated string starting at" begin
  | S fuel' =>
      match s with
      | EmptyString => fail "Unterminated string starting at" begin
      | String c s' =>
          if bool_decide (c = "034"%char) then inl (EmptyString, s', S pos)
          else if bool_decide (c = "\"%char) then
            match s' with
            | EmptyString => fail "Unterminated string starting at" begin
            | String e s'' =>
                if bool_decide (e = "u"%char) then
                  match hex4 s'' with
                  | None => fail "Invalid \uXXXX escape" pos
                  | Some (uni, s3) =>
                      let pair :=
                        if (55296 <=? uni)%N && (uni <=? 56319)%N then
                          match s3 with
                          | String b (String u s4) =>
                              if bool_decide (b = "\"%char)
                                 && bool_decide (u = "u"%char)
                              then match hex4 s4 with
                                   | Some (uni2, s5) =>
                                       if (56320 <=? uni2)%N
                                          && (uni2 <=? 57343)%N
                                       then Some ((65536 + (uni - 55296) * 1024
                                                   + (uni2 - 56320))%N, s5, 12)
                                       else None
                                   | None => None
                                   end
                              else None
                          | _ => None
                          end
                        else None in
                      let '(code, rest, width) :=
                        default (uni, s3, 6) pair in
                      match scanstring fuel' rest (pos + width) begin with
                      | inl (t, r, p) => inl (chr code +:+ t, r, p)
                      | inr err => inr err
                      end
                  end
                else
                  match simple_escape e with
                  | None => fail "Invalid \escape" pos
                  | Some ch =>
                      match scanstring fuel' s'' (pos + 2) begin with
                      | inl (t, r, p) => inl (String ch t, r, p)
                      | inr err => inr err
                      end
                  end
            end
          else if (nat_of_ascii c <? 32)%nat then
            fail "Invalid control character at" pos
          else
            match scanstring fuel' s' (S pos) begin with
            | inl (t, r, p) => inl (String c t, r, p)
            | inr err => inr err
            end
      end
  end.

(** The digits at the head of the text. *)
Fixpoint digits (s : string) : string * string :=
  match s with
  | String c s' =>
      if is_digit c then let '(d, r) := digits s' in (String c d, r)
      else (EmptyString, s)
  | EmptyString => (EmptyString, s)
  end.

Definition digits_value (d : string) : Z :=
  foldl (fun acc c => (acc * 10 + Z.of_nat (nat_of_ascii c - 48))%Z) 0%Z
        (list_ascii_of_string d).

(** The integer part of a number: an optional minus sign, then a single
    zero or a non-zero digit followed by digits. *)
Definition scan_integer (s : string) : option (string * string) :=
  let '(sign, s1) :=
    match s with
    | String c s' => if bool_decide (c = "-"%char) then ("-", s') else ("", s)
    | EmptyString => ("", s)
    end in
  match s1 with
  | String c s' =>
      if bool_decide (c = "0"%char) then Some (sign +:+ "0", s')
      else if is_digit c then
        let '(d, r) := digits s1 in Some (sign +:+ d, r)
      else None
  | EmptyString => None
  end.

(** The optional fraction and the optional exponent. *)
Definition scan_frac (s : string) : string * string :=
  match s with
  | String c s' =>
      if bool_decide (c = "."%char) then
        match digits s' with
        | (EmptyString, _) => (EmptyString, s)
        | (d, r) => ("." +:+ d, r)
        end
      else (EmptyString, s)
  | EmptyString => (EmptyString, s)
  end.

Definition scan_exp (s : string) : string * string :=
  match s with
  | String c s' =>
      if bool_decide (c = "e"%char) || bool_decide (c = "E"%char) then
        let '(sign, s1) :=
          match s' with
          | String g s'' =>
              if bool_decide (g = "-"%char) || bool_decide (g = "+"%char)
              then (String g EmptyString, s'') else (EmptyString, s')
          | EmptyString => (EmptyString, s')
          end in
        match digits s1 with
        | (EmptyString, _) => (EmptyString, s)
        | (d, r) => (String c sign +:+ d, r)
        end
      else (EmptyString, s)
  | EmptyString => (EmptyString, s)
  end.

Definition int_value (lexeme : string) : Z :=
  match lexeme with
  | String c d => if bool_decide (c = "-"%char) then (- digits_value d)%Z
                  else digits_value lexeme
  | EmptyString => 0%Z
  end.

Definition scan_number (s : string) (pos : nat)
  : option (json * string * nat) :=
  match scan_integer s with
  | None => None
  | Some (i, s1) =>
      let '(f, s2) := scan_frac s1 in
      let '(e, s3) := scan_exp s2 in
      let lexeme := i +:+ f +:+ e in
      let v := if PyStr.is_empty f && PyStr.is_empty e
               then JInt (int_value i) else JFloat lexeme in
      Some (v, s3, pos + String.length lexeme)
  end.

Definition literal (word : string) (v : json) (s : string) (pos : nat)
  : option (json * string * nat) :=
  if PyStr.startswith word s
  then Some (v, PyStr.drop (String.length word) s, pos + String.length word)
  else None.

(** A scanned value, the text after it and its position. *)
Definition scanned : Type := (json * string * nat) + decode_error.

(** [JSONObject], from the first key on: [s] starts after the opening
    quote of a key.  [scan] is [scan_once]; [n] bounds the number of
    members. *)
Fixpoint object_members (scan : string → nat → scanned) (n : nat)
    (s : string) (pos : nat) (pairs : list (string * json)) : scanned :=
  match n with
  | O => fail "Expecting value" pos
  | S n' =>
      match scanstring (S (String.length s)) s pos (pos - 1) with
      | inr err => inr err
      | inl (key, s1, p1) =>
          let '(s2, p2) := skip_ws s1 p1 in
          match s2 with
          | String c s3 =>
              if bool_decide (c = ":"%char) then
                let '(s4, p4) := skip_ws s3 (S p2) in
                match scan s4 p4 with
                | inr err => inr err
                | inl (v, s5, p5) =>
                    let pairs := pairs ++ [(key, v)] in
                    let '(s6, p6) := skip_ws s5 p5 in
                    match s6 with
                    | String d s7 =>
                        if bool_decide (d = "}"%char) then
                          inl (JObj (dict_of_pairs pairs), s7, S p6)
                        else if bool_decide (d = ","%char) then
                          let '(s8, p8) := skip_ws s7 (S p6) in
                          match s8 with
                          | String q s9 =>
                              if bool_decide (q = "034"%char)
                              then object_members scan n' s9 (S p8) pairs
                              else fail "Expecting property name enclosed in double quotes" p8
                          | EmptyString =>
                              fail "Expecting property name enclosed in double quotes" p8
                          end
                        else fail "Expecting ',' delimiter" p6
                    | EmptyString => fail "Expecting ',' delimiter" p6
                    end
                end
              else fail "Expecting ':' delimiter" p2
          | EmptyString => fail "Expecting ':' delimiter" p2
          end
      end
  end.

(** [JSONArray], from the first item on. *)
Fixpoint array_items (scan : string → nat → scanned) (n : nat)
    (s : string) (pos : nat) (values : list json) : scanned :=
  match n with
  | O => fail "Expecting value" pos
  | S n' =>
      match scan s pos with
      | inr err => inr err
      | inl (v, s1, p1) =>
          let values := values ++ [v] in
          let '(s2, p2) := skip_ws s1 p1 in
          match s2 with
          | String d s3 =>
              if bool_decide (d = "]"%char) then inl (JArr values, s3, S p2)
              else if bool_decide (d = ","%char) then
                let '(s4, p4) := skip_ws s3 (S p2) in
                array_items scan n' s4 p4 values
              else fail "Expecting ',' delimiter" p2
          | EmptyString => fail "Expecting ',' delimiter" p2
          end
      end
  end.

(** The literals and numbers of [scan_once], in its order. *)
Definition scan_atom (s : string) (pos : nat) : scanned :=
  let found :=
    Regex.first_of (literal "null" JNull s pos)
      (Regex.first_of (literal "true" (JBool true) s pos)
      (Regex.first_of (literal "false" (JBool false) s pos)
      (Regex.first_of (scan_number s pos)
      (Regex.first_of (literal "NaN" (JFloat "NaN") s pos)
      (Regex.first_of (literal "Infinity" (JFloat "Infinity") s pos)
         (literal "-Infinity" (JFloat "-Infinity") s pos)))))) in
  match found with
  | Some r => inl r
  | None => fail "Expecting value" pos
  end.

(** [scan_once]; [fuel] bounds the nesting of values. *)
Fixpoint scan_once (fuel : nat) (s : string) (pos : nat) : scanned :=
  match fuel with
  | O => fail "Expecting value" pos
  | S fuel' =>
      match s with
      | EmptyString => fail "Expecting value" pos
      | String c s' =>
          if bool_decide (c = "034"%char) then
            match scanstring (S (String.length s')) s' (S pos) pos with
            | inl (t, r, p) => inl (JStr t, r, p)
            | inr err => inr err
            end
          else if bool_decide (c = "{"%char) then
            let '(s1, p1) := skip_ws s' (S pos) in
            match s1 with
            | String d s2 =>
                if bool_decide (d = "}"%char) then inl (JObj [], s2, S p1)
                else if bool_decide (d = "034"%char)
                then object_members (scan_once fuel') (String.length s) s2
                       (S p1) []
                else fail "Expecting property name enclosed in double quotes" p1
            | EmptyString =>
                fail "Expecting property name enclosed in double quotes" p1
            end
          else if bool_decide (c = "["%char) then
            let '(s1, p1) := skip_ws s' (S pos) in
            match s1 with
            | String d s2 =>
                if bool_decide (d = "]"%char) then inl (JArr [], s2, S p1)
                else array_items (scan_once fuel') (String.length s) s1 p1 []
            | EmptyString => fail "Expecting value" p1
            end
          else scan_atom s pos
      end
  end.

(** [json.loads(s)] *)
Definition loads (s : string) : json + decode_error :=
  let '(s0, p0) := skip_ws s 0 in
  match scan_once (S (String.length s)) s0 p0 with
  | inr err => inr err
  | inl (v, s1, p1) =>
      let '(s2, p2) := skip_ws s1 p1 in
      if PyStr.is_empty s2 then inl v else fail "Extra data" p2
  end.

(** [str(e)] of a [JSONDecodeError] raised on the document [doc]. *)
Fixpoint line_col (doc : string) (pos line col : nat) : nat * nat :=
  match pos, doc with
  | S pos', String c doc' =>
      if bool_decide (c = "010"%char) then line_col doc' pos' (S line) 1
      else line_col doc' pos' line (S col)
  | _, _ => (line, col)
  end.

Definition error_text (doc : string) (e : decode_error) : string :=
  let '(line, col) := line_col doc (err_pos e) 1 1 in
  err_msg e +:+ ": line " +:+ pretty line +:+ " column " +:+ pretty col
    +:+ " (char " +:+ pretty (err_pos e) +:+ ")".

End Json.

Abbreviation json := Json.json.
Abbreviation dict := (list (string * Json.json)).

(** ** Python dictionaries with keys of any hashable kind

    What the sources print with [json.dumps] is not always a decoded
    value: the global memory is a dictionary that [dict.update] can give
    keys that are numbers, [True], [False] or [None].  A key is kept as
    the decoded value it was first set with; two keys are the same when
    they are equal in Python: strings by their characters, numbers,
    [True] and [False] by their numeric value, whatever their type. *)

(** A dictionary with such keys, in insertion order. *)
Abbreviation memory := (list (Json.json * Json.json)).

(** A value given to [json.dumps]: a decoded value, or a dictionary
    with keys of any hashable kind. *)
Inductive pyvalue : Type :=
  | PVal (v : Json.json)
  | PDict (members : list (Json.json * pyvalue)).

Coercion PVal : Json.json >-> pyvalue.

Module PyDict.

(** [float(lexeme)]: the decimal number is rounded to the nearest
    binary64 number, ties to even; [Json] keeps the text of a number with
    a fraction or an exponent, and the three names [NaN], [Infinity] and
    [-Infinity]. *)
Definition prec : Z := 53.
Definition emax : Z := 1024.

(** The sign, the digits as an integer and the power of ten of a decimal
    number. *)
Definition decimal_of_lexeme (lexeme : string) : bool * Z * Z :=
  let '(negative, s) :=
    match lexeme with
    | String c s' =>
        if bool_decide (c = "-"%char) then (true, s') else (false, lexeme)
    | EmptyString => (false, lexeme)
    end in
  let '(int_digits, s1) := Json.digits s in
  let '(frac_digits, s2) :=
    match s1 with
    | String c s' =>
        if bool_decide (c = "."%char) then Json.digits s'
        else (EmptyString, s1)
    | EmptyString => (EmptyString, s1)
    end in
  let exponent :=
    match s2 with
    | String _ (String g s') =>
        if bool_decide (g = "-"%char) then (- Json.digits_value s')%Z
        else if bool_decide (g = "+"%char) then Json.digits_value s'
        else Json.digits_value (String g s')
    | _ => 0%Z
    end in
  (negative, Json.digits_value (int_digits +:+ frac_digits),
   (exponent - Z.of_nat (String.length frac_digits))%Z).

Definition float_value (lexeme : string) : spec_float :=
  if bool_decide (lexeme = "NaN") then S754_nan
  else if bool_decide (lexeme = "Infinity") then S754_infinity false
  else if bool_decide (lexeme = "-Infinity") then S754_infinity true
  else
    let '(negative, m, e) := decimal_of_lexeme lexeme in
    match m with
    | Zpos p =>
        if (0 <=? e)%Z then
          binary_normalize prec emax
            (if negative then - (m * 10 ^ e) else m * 10 ^ e)%Z 0 false
        else
          SFdiv prec emax (S754_finite negative p 0)
            (S754_finite false (Z.to_pos (10 ^ (- e))) 0)
    | _ => S754_zero negative
    end.

(** What two keys must share to be the same key: the characters of a
    string; for a number, [True] (1) and [False] (0) the value, written
    [m * 2 ^ e] with [m] odd, or 0; [None]; an infinity; the one object
    [NaN] of the decoder. *)
Inductive key_value : Type :=
  | VStr (s : string)
  | VNone
  | VNum (m e : Z)
  | VInf (negative : bool)
  | VNaN.

#[global] Instance key_value_eq_dec : EqDecision key_value.
Proof. solve_decision. Defined.

Fixpoint odd_part (p : positive) (e : Z) : positive * Z :=
  match p with
  | xO p' => odd_part p' (e + 1)%Z
  | _ => (p, e)
  end.

Definition dyadic (m e : Z) : key_value :=
  match m with
  | Z0 => VNum 0 0
  | Zpos p => let '(q, e') := odd_part p e in VNum (Zpos q) e'
  | Zneg p => let '(q, e') := odd_part p e in VNum (Zneg q) e'
  end.

(** The lists and dictionaries are not hashable. *)
Definition key_value_of (k : json) : option key_value :=
  match k with
  | Json.JStr s => Some (VStr s)
  | Json.JNull => Some VNone
  | Json.JBool b => Some (dyadic (if b then 1 else 0) 0)
  | Json.JInt n => Some (dyadic n 0)
  | Json.JFloat lexeme =>
      Some match float_value lexeme with
           | S754_zero _ => VNum 0 0
           | S754_infinity negative => VInf negative
           | S754_nan => VNaN
           | S754_finite negative m e =>
               dyadic (if negative then Zneg m else Zpos m) e
           end
  | Json.JArr _ | Json.JObj _ => None
  end.

Definition hashable (k : json) : bool :=
  bool_decide (is_Some (key_value_of k)).

Definition key_eq (k1 k2 : json) : bool :=
  bool_decide (key_value_of k1 = key_value_of k2).

(** [d.get(k)] *)
Fixpoint get (k : json) (d : memory) : option json :=
  match d with
  | [] => None
  | (k', v') :: d' => if key_eq k k' then Some v' else get k d'
  end.

(** [d[k] = v]: the value of a key that is there is replaced, the key
    itself stays as it was first set; a new key comes last. *)
Fixpoint set (k : json) (v : json) (d : memory) : memory :=
  match d with
  | [] => [(k, v)]
  | (k', v') :: d' =>
      if key_eq k k' then (k', v) :: d' else (k', v') :: set k v d'
  end.

(** The pairs are set one after the other. *)
Definition update_pairs (d : memory) (pairs : list (json * json)) : memory :=
  foldl (fun d kv => set kv.1 kv.2 d) d pairs.

End PyDict.

(** The text of exceptions the interpreter raises itself (a [TypeError] on
    a value of the wrong type) is not modelled: it is the class name. *)
Definition TypeError : string := "TypeError".
Definition ValueError : string := "ValueError".

Definition failure_of {A} (r : result A) : option string :=
  match r with
  | Ok _ => None
  | Raise msg => Some msg
  end.

(** ** [ner.py]: [extract_json_from_ollama] *)

Module Ner.

(** The pattern of the repair: a double quote, one or more characters
    other than a double quote, a newline or a carriage return (group 1,
    as few as possible), an apostrophe, blanks, a colon. *)
Definition stray_quote_pattern : Regex.re :=
  Regex.seq_of
    [ Regex.Lit DQ;
      Regex.Group
        (Regex.LazyPlus
           (fun c => negb (bool_decide (c = "034"%char)
                           || bool_decide (c = "010"%char)
                           || bool_decide (c = "013"%char))));
      Regex.Lit "'"; Regex.Star PyStr.isspace; Regex.Lit ":" ].

(** [re.sub(pattern, quote + group 1 + quote + colon, raw_response)] *)
Definition repair (raw_response : string) : string :=
  Regex.re_sub stray_quote_pattern
    (fun caps => DQ +:+ default EmptyString (caps !! 0) +:+ DQ +:+ ":")
    raw_response.

(** [if key in d and d[key] is None: d[key] = value] *)
Definition replace_null (key : string) (value : json) (d : dict) : dict :=
  match Json.dict_get key d with
  | Some Json.JNull => Json.dict_set key value d
  | _ => d
  end.

Definition is_str (key : string) (v : json) : bool :=
  match v with
  | Json.JStr s => bool_decide (s = key)
  | _ => false
  end.

(** The two [if] blocks that turn null sub-fields into an empty list or
    dictionary.  [result["ENTITIES"]] need not be a dictionary: [key in]
    a list or a string is a membership test, after which the subscript by
    a string raises; on any other value [key in] raises at once. *)
Definition normalise (parsed : dict) : result dict :=
  parsed ←
    match Json.dict_get "ENTITIES" parsed with
    | None => Ok parsed
    | Some (Json.JObj ents) =>
        let ents := replace_null "PROPER_NOUN" (Json.JArr []) ents in
        let ents := replace_null "NOUN_PHRASE" (Json.JArr []) ents in
        Ok (Json.dict_set "ENTITIES" (Json.JObj ents) parsed)
    | Some (Json.JArr items) =>
        if existsb (is_str "PROPER_NOUN") items
           || existsb (is_str "NOUN_PHRASE") items
        then Raise TypeError else Ok parsed
    | Some (Json.JStr s) =>
        if PyStr.contains "PROPER_NOUN" s || PyStr.contains "NOUN_PHRASE" s
        then Raise TypeError else Ok parsed
    | Some _ => Raise TypeError
    end;
  Ok (replace_null "PROPER_NOUN_DESCRIPTION" (Json.JObj []) parsed).

Definition extract_json_from_ollama (raw_response : string) : result json :=
  if negb (PyStr.startswith "{" (PyStr.strip raw_response)) then
    Raise ("Output does not start with '{'. Unexpected format:"
           +:+ String newline (PyStr.take 300 raw_response))
  else
    match Json.loads raw_response with
    | inl (Json.JObj []) => Raise "Parsed JSON is empty."
    | inl (Json.JObj parsed) => parsed ← normalise parsed; Ok (Json.JObj parsed)
    | inl _ =>
        (* not reached, see [loads_object]: a text whose first character
           is an opening brace decodes to an object or not at all *)
        Raise TypeError
    | inr e =>
        let repaired := repair raw_response in
        match Json.loads repaired with
        | inl parsed => Ok parsed
        | inr _ =>
            Raise ("Invalid JSON format. " +:+ Json.error_text raw_response e)
        end
    end.

End Ner.

(** The three JSON texts of the repair scenario: the key [a'] closed by a
    double quote (valid JSON), the key [a] closed by an apostrophe
    instead of a double quote, and the key [a] closed properly. *)
Definition text_key_a_apostrophe : string := "{" +:+ DQ +:+ "a'" +:+ DQ +:+ ": 1}".
Definition text_key_closed_by_apostrophe : string := "{" +:+ DQ +:+ "a': 1}".
Definition text_key_a : string := "{" +:+ DQ +:+ "a" +:+ DQ +:+ ": 1}".

(** ** The completion service

    [requests.post] is outside the sources: a call answers, fails in one
    of the ways the sources tell apart, and moves the service to a new
    state.  The model name and the URL are fixed during a run and left
    out. *)

Inductive post_result : Type :=
  | Responded (response : option string)  (* status 200, a JSON object; the
                                             value of its key [response] *)
  | TimedOut                              (* requests.exceptions.Timeout *)
  | HTTPFailed (err text : string)        (* raise_for_status() *)
  | RequestFailed (err : string)          (* another RequestException *)
  | BadEnvelope (err : string).           (* a ValueError of response.json() *)

(** [run_ollama_inference] of [loopcoref.py] and [resolve_coref.py]:
    [response.json()['response']], three [except] clauses. *)
Definition inference_strict (r : post_result) : result string :=
  match r with
  | Responded (Some text) => Ok text
  | Responded None => Raise "'response'"                   (* KeyError *)
  | TimedOut => Raise "Ollama inference timed out."
  | HTTPFailed err text =>
      Raise ("HTTP error occurred: " +:+ err +:+ " - " +:+ text)
  | RequestFailed err => Raise ("Request failed: " +:+ err)
  | BadEnvelope err => Raise err
  end.

(** [run_ollama_inference] of [ner.py] and [erevaluation.py]:
    [response.json().get('response', '')], four [except] clauses. *)
Definition inference_lenient (r : post_result) : result string :=
  match r with
  | Responded response => Ok (default EmptyString response)
  | TimedOut => Raise "Ollama inference timed out."
  | HTTPFailed err text =>
      Raise ("HTTP error occurred: " +:+ err +:+ " - " +:+ text)
  | RequestFailed err => Raise ("Request failed: " +:+ err)
  | BadEnvelope _ => Raise "Invalid JSON response received from Ollama."
  end.

(** ["timed out" in str(e).lower()] *)
Definition timed_out (msg : string) : bool :=
  PyStr.contains "timed out" (PyStr.lower msg).

(** One attempt made for a chunk or a row, as the log lines of the sources
    report it: the prompt sent, the timeout of the call, what the service
    answered, and [str(e)] when the attempt ended in an exception. *)
Record attempt := Attempt {
  at_prompt : string;
  at_timeout : nat;
  at_answer : post_result;
  at_failure : option string
}.

Definition extended (a : attempt) : bool := bool_decide (at_timeout a = 300).

(** ** [loopcoref.py]: [extract_json_from_ollama] *)

Module Coref.

Definition has_key (key : string) (d : dict) : bool :=
  bool_decide (is_Some (Json.dict_get key d)).

Definition extract_json_from_ollama (raw_response : string) : result dict :=
  let cleaned := PyStr.strip raw_response in
  if negb (PyStr.startswith "{" cleaned) then
    Raise ("Output does not start with '{'. Unexpected format:"
           +:+ String newline (PyStr.take 200 cleaned))
  else
    match Json.loads cleaned with
    | inl (Json.JObj parsed) =>
        if negb (has_key "RESOLVED_ENTITIES" parsed)
           || negb (has_key "AUXILIARY_DESCRIPTIONS" parsed)
        then Raise "Valid JSON but missing required keys."
        else Ok parsed
    | inl _ =>
        (* not reached, see [loads_object] *)
        Raise TypeError
    | inr e => Raise ("Invalid JSON format. " +:+ Json.error_text cleaned e)
    end.

(** The items of a dictionary with string keys, as items of a
    dictionary with keys of any kind. *)
Definition of_dict (d : dict) : memory :=
  (fun kv => (Json.JStr kv.1, kv.2)) <$> d.

(** The key and the value that [dict.update] takes from one element of
    a sequence: the element is turned into a list (the items of a list,
    the characters of a string, the keys of a dictionary; a number,
    [True], [False] and [None] cannot be), which must have two items, and
    the first of them must be hashable. *)
Definition item_pair (item : json) : result (json * json) :=
  match item with
  | Json.JArr [k; v] => if PyDict.hashable k then Ok (k, v) else Raise TypeError
  | Json.JArr _ => Raise ValueError
  | Json.JStr s =>
      match PyStr.chars s with
      | [a; b] => Ok (Json.JStr a, Json.JStr b)
      | _ => Raise ValueError
      end
  | Json.JObj [(k1, _); (k2, _)] => Ok (Json.JStr k1, Json.JStr k2)
  | Json.JObj _ => Raise ValueError
  | _ => Raise TypeError
  end.

(** The loop of [dict.update] over a sequence: the pairs are set one
    after the other, and those set before an element that raises stay. *)
Fixpoint merge_seq (d : memory) (items : list json) : result unit * memory :=
  match items with
  | [] => (Ok (), d)
  | item :: rest =>
      match item_pair item with
      | Ok (k, v) => merge_seq (PyDict.set k v d) rest
      | Raise msg => (Raise msg, d)
      end
  end.

(** [d.update(v)] for a decoded value [v]: the outcome and the dictionary
    afterwards.  A dictionary gives its items; a list is a sequence of
    pairs; a string is the sequence of its characters, none of which is a
    pair, so that only the empty string passes; any other value is not
    iterable. *)
Definition update (d : memory) (v : json) : result unit * memory :=
  match v with
  | Json.JObj other => (Ok (), PyDict.update_pairs d (of_dict other))
  | Json.JArr items => merge_seq d items
  | Json.JStr s =>
      match PyStr.chars s with
      | [] => (Ok (), d)
      | _ => (Raise ValueError, d)
      end
  | _ => (Raise TypeError, d)
  end.

(** The pairs that [d.update(v)] sets, in order, whether it then raises
    or not. *)
Fixpoint seq_pairs (items : list json) : list (json * json) :=
  match items with
  | [] => []
  | item :: rest =>
      match item_pair item with
      | Ok kv => kv :: seq_pairs rest
      | Raise _ => []
      end
  end.

Definition pairs_of (v : json) : list (json * json) :=
  match v with
  | Json.JObj other => of_dict other
  | Json.JArr items => seq_pairs items
  | _ => []
  end.

End Coref.

(** A dictionary of the global memory as a value given to [json.dumps]. *)
Definition memory_value (d : memory) : pyvalue :=
  PDict ((fun kv => (kv.1, PVal kv.2)) <$> d).

(** ** The pipeline stages *)

Section Pipeline.

Context {W : Type}.

(** The service: state, prompt, timeout in seconds. *)
Variable post : W → string → nat → post_result * W.

(** [json.dumps(_, indent=2)] *)
Variable dumps : pyvalue → string.

(** What a stage reads and changes: the service, the two dictionaries of
    the global memory (one object each, shared by all the passes), the
    files written, and the attempts made. *)
Record state := State {
  svc : W;
  resolved_entities : memory;
  aux_descriptions : memory;
  files : list (string * string);
  attempts : list attempt
}.

Definition set_memory (re ad : memory) (st : state) : state :=
  State (svc st) re ad (files st) (attempts st).

Definition write_file (path content : string) (st : state) : state :=
  State (svc st) (resolved_entities st) (aux_descriptions st)
        (files st ++ [(path, content)]) (attempts st).

(** One call of the service followed by [after] on its answer, recorded as
    one attempt. *)
Definition try_call {A} (inference : post_result → result string)
    (after : string → result A) (prompt : string) (timeout : nat)
    (st : state) : result A * state :=
  let '(r, w) := post (svc st) prompt timeout in
  let out := text ← inference r; after text in
  (out, State w (resolved_entities st) (aux_descriptions st) (files st)
          (attempts st ++ [Attempt prompt timeout r (failure_of out)])).

(** *** [loopcoref.py] *)

Record chunk := Chunk {
  fname : string;
  chunk_text : string;
  ner_data : dict            (* the decoded NER file of the chunk *)
}.

Definition coref_prompt (prompt_template : string) (re ad : memory)
    (c : chunk) : string :=
  let identified_entities :=
    Json.JObj
      [ ("NER_ENTITIES",
         default (Json.JObj []) (Json.dict_get "ENTITIES" (ner_data c)));
        ("PROPER_NOUN_DESCRIPTION",
         default (Json.JObj [])
                 (Json.dict_get "PROPER_NOUN_DESCRIPTION" (ner_data c))) ] in
  let payload :=
    PDict
      [ (Json.JStr "RESOLVED_ENTITIES", memory_value re);
        (Json.JStr "AUXILIARY_DESCRIPTIONS", memory_value ad);
        (Json.JStr "IDENTIFIED_ENTITIES", PVal identified_entities);
        (Json.JStr "CHUNK_TEXT", PVal (Json.JStr (chunk_text c))) ] in
  PyStr.strip prompt_template +:+ String newline (String newline (dumps payload)).

(** How the [while] loop of a chunk ends. *)
Inductive loop_end : Type :=
  | Success (parsed : dict)
  | Exhausted (attempt : nat) (last_error : option string)
  | OutOfFuel.

(** The loop [while attempt < max_retries and not success]; each turn of
    the loop takes one unit of [fuel]. *)
Fixpoint retry_loop (fuel : nat) (full_prompt : string) (max_retries : nat)
    (attempt : nat) (timeout_retry_done : bool) (last_error : option string)
    (st : state) : loop_end * state :=
  if (attempt <? max_retries)%nat then
    match fuel with
    | O => (OutOfFuel, st)
    | S fuel' =>
        match try_call inference_strict Coref.extract_json_from_ollama
                full_prompt 120 st with
        | (Ok parsed, st1) => (Success parsed, st1)
        | (Raise e, st1) =>
            let attempt := S attempt in
            if timed_out e && negb timeout_retry_done then
              match try_call inference_strict Coref.extract_json_from_ollama
                      full_prompt 300 st1 with
              | (Ok parsed, st2) => (Success parsed, st2)
              | (Raise retry_e, st2) =>
                  retry_loop fuel' full_prompt max_retries (S attempt) true
                    (Some retry_e) st2
              end
            else
              retry_loop fuel' full_prompt max_retries attempt
                timeout_retry_done (Some e) st1
        end
    end
  else (Exhausted attempt last_error, st).

Definition chunk_name_of (fname : string) : string :=
  PyStr.replace ".txt" EmptyString fname.

(** The body of the [for] loop of [process_chunks] for one [.txt] file. *)
Definition process_chunk (prompt_template output_dir : string)
    (max_retries_arg : nat) (verification : bool) (c : chunk) (st : state)
  : result unit * state :=
  let chunk_name := chunk_name_of (fname c) in
  let full_prompt :=
    coref_prompt prompt_template (resolved_entities st) (aux_descriptions st) c in
  let max_retries := Nat.max 1 max_retries_arg in
  match retry_loop max_retries full_prompt max_retries 0 false None st with
  | (Success parsed, st1) =>
      let '(updated, re) :=
        Coref.update (resolved_entities st1)
          (default (Json.JObj [])
                   (Json.dict_get "RESOLVED_ENTITIES" parsed)) in
      let st2 := set_memory re (aux_descriptions st1) st1 in
      match updated with
      | Raise msg => (Raise msg, st2)
      | Ok _ =>
          let '(updated, ad) :=
            Coref.update (aux_descriptions st2)
              (default (Json.JObj [])
                       (Json.dict_get "AUXILIARY_DESCRIPTIONS" parsed)) in
          let st3 := set_memory re ad st2 in
          match updated with
          | Raise msg => (Raise msg, st3)
          | Ok _ =>
              let out_path :=
                output_dir +:+ "/" +:+ chunk_name
                  +:+ (if verification then "_verify" else EmptyString)
                  +:+ ".json" in
              (Ok (), write_file out_path (dumps (Json.JObj parsed)) st3)
          end
      end
  | (Exhausted attempt last_error, st1) =>
      (Raise ("Ollama inference failed for " +:+ chunk_name +:+ " after "
              +:+ pretty attempt +:+ " attempts. Last error: "
              +:+ default "None" last_error), st1)
  | (OutOfFuel, st1) => (Raise "out of fuel", st1)
  end.

Fixpoint process_chunk_files (prompt_template output_dir : string)
    (max_retries_arg : nat) (verification : bool) (chunk_files : list chunk)
    (st : state) : result unit * state :=
  match chunk_files with
  | [] => (Ok (), st)
  | c :: rest =>
      if negb (PyStr.endswith ".txt" (fname c)) then
        process_chunk_files prompt_template output_dir max_retries_arg
          verification rest st                                  (* continue *)
      else
        match process_chunk prompt_template output_dir max_retries_arg
                verification c st with
        | (Ok _, st1) =>
            process_chunk_files prompt_template output_dir max_retries_arg
              verification rest st1
        | (Raise msg, st1) => (Raise msg, st1)
        end
  end.

Definition memory_json (st : state) : pyvalue :=
  PDict [ (Json.JStr "RESOLVED_ENTITIES", memory_value (resolved_entities st));
          (Json.JStr "AUXILIARY_DESCRIPTIONS",
           memory_value (aux_descriptions st)) ].

Definition process_chunks (prompt_template base_output_folder : string)
    (max_retries_arg : nat) (verification : bool) (chunk_files : list chunk)
    (st : state) : result unit * state :=
  match process_chunk_files prompt_template
          (base_output_folder +:+ "/coref_outputs") max_retries_arg
          verification chunk_files st with
  | (Ok _, st1) =>
      (Ok (), write_file (base_output_folder +:+ "/final_memory.json")
                (dumps (memory_json st1)) st1)
  | (Raise msg, st1) => (Raise msg, st1)
  end.

(** [main]: the discovery pass, then [verify_passes] verification passes
    on the same two dictionaries, which start empty. *)
Fixpoint verification_passes (verify_prompt base_output_folder : string)
    (max_retries_arg : nat) (chunk_files : list chunk) (passes : nat)
    (st : state) : result unit * state :=
  match passes with
  | O => (Ok (), st)
  | S passes' =>
      match process_chunks verify_prompt base_output_folder max_retries_arg
              true chunk_files st with
      | (Ok _, st1) =>
          verification_passes verify_prompt base_output_folder
            max_retries_arg chunk_files passes' st1
      | (Raise msg, st1) => (Raise msg, st1)
      end
  end.

Definition coref_main (discovery_prompt verify_prompt base_output_folder : string)
    (max_retries_arg verify_passes : nat) (chunk_files : list chunk)
    (st : state) : result unit * state :=
  let st := set_memory [] [] st in
  match process_chunks discovery_prompt base_output_folder max_retries_arg
          false chunk_files st with
  | (Ok _, st1) =>
      verification_passes verify_prompt base_output_folder max_retries_arg
        chunk_files verify_passes st1
  | (Raise msg, st1) => (Raise msg, st1)
  end.

(** *** [resolve_coref.py] *)

Definition final_prompt (template : string) (re ad : memory)
    (text : string) : string :=
  PyStr.strip template
  +:+ String newline (String newline (dumps (PDict
        [ (Json.JStr "RESOLVED_ENTITIES", memory_value re);
          (Json.JStr "AUXILIARY_DESCRIPTIONS", memory_value ad);
          (Json.JStr "TEXT_CHUNK", PVal (Json.JStr text)) ]))).

(** The loop [for retry in range(args.num_retries)] of one chunk;
    [retries] is what is left of the range.  The result is [input_text]
    when the loop is left, by [break] or at the end of the range. *)
Fixpoint resolve_loop (template chunk_name : string) (num_retries : nat)
    (retries : list nat) (input_text : string) (st : state)
  : result string * state :=
  match retries with
  | [] => (Ok input_text, st)
  | retry :: retries' =>
      let prompt :=
        final_prompt template (resolved_entities st) (aux_descriptions st)
          input_text in
      match try_call inference_strict Ok prompt 120 st with
      | (Ok text, st1) => (Ok text, st1)                          (* break *)
      | (Raise e, st1) =>
          let second :=
            if timed_out e
            then let '(r, st2) := try_call inference_strict Ok prompt 300 st1 in
                 (Some r, st2)
            else (None, st1) in
          match second with
          | (Some (Ok text), st2) => (Ok text, st2)               (* break *)
          | (_, st2) =>
              if bool_decide (retry = num_retries - 1) then
                (Raise e,
                 write_file ("debug_failed_prompt_" +:+ chunk_name +:+ ".txt")
                   prompt st2)
              else
                resolve_loop template chunk_name num_retries retries'
                  input_text st2
          end
      end
  end.

(** The body of the loop over the chunk files. *)
Definition resolve_chunk (template resolved_dir : string) (num_retries : nat)
    (fname chunk_text : string) (st : state) : result unit * state :=
  let chunk_name := chunk_name_of fname in
  match resolve_loop template chunk_name num_retries (seq 0 num_retries)
          chunk_text st with
  | (Ok resolved_text, st1) =>
      (Ok (), write_file (resolved_dir +:+ "/" +:+ chunk_name +:+ "_resolved.txt")
                resolved_text st1)
  | (Raise msg, st1) => (Raise msg, st1)
  end.

Fixpoint resolve_chunks (template resolved_dir : string) (num_retries : nat)
    (chunk_files : list (string * string)) (st : state)
  : result unit * state :=
  match chunk_files with
  | [] => (Ok (), st)
  | (fname, chunk_text) :: rest =>
      match resolve_chunk template resolved_dir num_retries fname chunk_text
              st with
      | (Ok _, st1) => resolve_chunks template resolved_dir num_retries rest st1
      | (Raise msg, st1) => (Raise msg, st1)
      end
  end.

(** [{k: v for k, v in resolved_entities.items() if v is not None}] *)
Definition is_null (v : json) : bool :=
  match v with
  | Json.JNull => true
  | _ => false
  end.

Definition prune (d : dict) : dict :=
  filter (fun kv => is_null kv.2 = false) d.

(** [main] up to the resolution of the last chunk: [memory] is the decoded
    file of the final memory, [chunk_files] the sorted listing of the chunk
    directory with the text of each file.  The model is that of a memory
    file whose two entries are dictionaries or missing, as
    [process_chunks] writes it.  With another value of
    [RESOLVED_ENTITIES] the call of [items] raises.  Another value of
    [AUXILIARY_DESCRIPTIONS] is not looked at by the code, which goes on
    and prints it into the prompts; the state has no place for it, and
    the model stops there.  The run is one with [--log-file] given:
    [main] logs to [args.log_file] before the first chunk, and without
    the option that call of [open] raises. *)
Definition final_main (template input_folder : string) (num_retries : nat)
    (memory : dict) (chunk_files : list (string * string)) (st : state)
  : result unit * state :=
  match default (Json.JObj []) (Json.dict_get "RESOLVED_ENTITIES" memory),
        default (Json.JObj []) (Json.dict_get "AUXILIARY_DESCRIPTIONS" memory)
  with
  | Json.JObj re, Json.JObj ad =>
      resolve_chunks template (input_folder +:+ "/resolved_outputs")
        num_retries
        (filter (fun f => PyStr.endswith ".txt" f.1 = true) chunk_files)
        (set_memory (Coref.of_dict (prune re)) (Coref.of_dict ad) st)
  | _, _ => (Raise TypeError, st)
  end.

(** *** [erevaluation.py]: the single-row batch extraction driver *)

Record row := Row { Entity_Types : string; Input_Text : string }.

Definition row_prompt (PROMPT_TEMPLATE : string) (r : row) : string :=
  PyStr.replace "{input_text}" (Input_Text r)
    (PyStr.replace "{entity_types}" (Entity_Types r) PROMPT_TEMPLATE).

(** The body of the loop over the rows: the value appended to [outputs]. *)
Definition run_row (PROMPT_TEMPLATE : string) (timeout : nat) (r : row)
    (st : state) : string * state :=
  match try_call inference_lenient Ok (row_prompt PROMPT_TEMPLATE r)
          timeout st with
  | (Ok llm_output, st1) => (llm_output, st1)
  | (Raise e, st1) => ("ERROR: " +:+ e, st1)
  end.

Fixpoint run_rows (PROMPT_TEMPLATE : string) (timeout : nat)
    (rows : list row) (outputs : list string) (st : state)
  : list string * state :=
  match rows with
  | [] => (outputs, st)
  | r :: rows' =>
      let '(llm_output, st1) := run_row PROMPT_TEMPLATE timeout r st in
      run_rows PROMPT_TEMPLATE timeout rows' (outputs ++ [llm_output]) st1
  end.

(** [if args.limit: df = df.head(args.limit)] *)
Definition limit_rows (limit : option nat) (rows : list row) : list row :=
  match limit with
  | Some (S n) => take (S n) rows
  | _ => rows
  end.

(** [main] up to the column [LLM_Output]. *)
Definition driver_main (PROMPT_TEMPLATE : string) (timeout : nat)
    (limit : option nat) (rows : list row) (st : state)
  : result (list string) * state :=
  let df := limit_rows limit rows in
  let '(outputs, st1) := run_rows PROMPT_TEMPLATE timeout df [] st in
  (Ok outputs, st1).

End Pipeline.

(** A service that plays a script: one answer per call, whatever the
    prompt, and a timeout once the script is over. *)
Definition scripted (script : list post_result) (prompt : string)
    (timeout : nat) : post_result * list post_result :=
  match script with
  | [] => (TimedOut, [])
  | r :: script' => (r, script')
  end.

Definition initial_state {W} (w : W) : state := State w [] [] [] [].

(** ** Predicates on the attempts of one chunk *)

(** The extended-timeout discipline of a list of attempts: an attempt with
    the extended timeout occurs right after the first attempt that failed
    with a timeout-classified message, and nowhere else.  [fired] tells
    whether the extended retry was made before the list starts. *)
Fixpoint escalation_ok (fired : bool) (l : list attempt) : bool :=
  match l with
  | [] => true
  | a :: l' =>
      if extended a then false
      else match at_failure a with
           | Some msg =>
               if timed_out msg && negb fired then
                 match l' with
                 | b :: l'' => extended b && escalation_ok true l''
                 | [] => false
                 end
               else escalation_ok fired l'
           | None => escalation_ok fired l'
           end
  end.

Definition count_extended (l : list attempt) : nat :=
  length (filter (fun a => extended a = true) l).

(** A stand-in for [json.dumps] in the examples: it prints the chunk text
    of a prompt payload and nothing else. *)
Fixpoint payload_text (key : string) (members : list (json * pyvalue))
  : option string :=
  match members with
  | (Json.JStr k, PVal (Json.JStr t)) :: members' =>
      if bool_decide (k = key) then Some t else payload_text key members'
  | _ :: members' => payload_text key members'
  | [] => None
  end.

Definition dumps_text (v : pyvalue) : string :=
  match v with
  | PDict members =>
      match payload_text "TEXT_CHUNK" members,
            payload_text "CHUNK_TEXT" members with
      | Some t, _ | _, Some t => t
      | _, _ => EmptyString
      end
  | PVal (Json.JObj members) =>
      match Json.dict_get "TEXT_CHUNK" members,
            Json.dict_get "CHUNK_TEXT" members with
      | Some (Json.JStr t), _ | _, Some (Json.JStr t) => t
      | _, _ => EmptyString
      end
  | _ => EmptyString
  end.

(** A text between double quotes. *)
Definition quoted (s : string) : string := DQ +:+ s +:+ DQ.

(** The answer of the service in the merge example: the object with
    [RESOLVED_ENTITIES] mapping [Bob] and [he] to [Robert K.], and
    [AUXILIARY_DESCRIPTIONS] describing [Robert K.]. *)
Definition example_response : string :=
  "{" +:+ quoted "RESOLVED_ENTITIES" +:+ ": {"
      +:+ quoted "Bob" +:+ ": " +:+ quoted "Robert K." +:+ ", "
      +:+ quoted "he" +:+ ": " +:+ quoted "Robert K." +:+ "}, "
      +:+ quoted "AUXILIARY_DESCRIPTIONS" +:+ ": {"
      +:+ quoted "Robert K." +:+ ": " +:+ quoted "a smuggler" +:+ "}}".

Definition example_chunk : chunk :=
  Chunk "chunk_000.txt" "Bob met Al. He left." [].

(** A memory in which [Bob] and [Al] are already resolved. *)
Definition example_state : @state (list post_result) :=
  State [Responded (Some example_response)]
        [(Json.JStr "Bob", Json.JStr "Bob");
         (Json.JStr "Al", Json.JStr "Al Capone")] [] [] [].

(** An answer whose [RESOLVED_ENTITIES] is not an object but a list of
    pairs, a list of two items and a string of two characters, and whose
    [AUXILIARY_DESCRIPTIONS] is the empty list: [dict.update] takes
    both. *)
Definition example_list_response : string :=
  "{" +:+ quoted "RESOLVED_ENTITIES" +:+ ": [["
      +:+ quoted "Bob" +:+ ", " +:+ quoted "Robert K." +:+ "], "
      +:+ quoted "he" +:+ "], "
      +:+ quoted "AUXILIARY_DESCRIPTIONS" +:+ ": []}".

Definition example_list_state : @state (list post_result) :=
  State [Responded (Some example_list_response)]
        [(Json.JStr "Bob", Json.JStr "Bob");
         (Json.JStr "Al", Json.JStr "Al Capone")] [] [] [].

(** An answer whose [RESOLVED_ENTITIES] is a list with a pair and then a
    number: the pair is set before [dict.update] raises. *)
Definition example_bad_response : string :=
  "{" +:+ quoted "RESOLVED_ENTITIES" +:+ ": [["
      +:+ quoted "Bob" +:+ ", " +:+ quoted "Robert K." +:+ "], 7], "
      +:+ quoted "AUXILIARY_DESCRIPTIONS" +:+ ": {}}".

Definition example_bad_state : @state (list post_result) :=
  State [Responded (Some example_bad_response)]
        [(Json.JStr "Bob", Json.JStr "Bob");
         (Json.JStr "Al", Json.JStr "Al Capone")] [] [] [].

(** ** [evaluation2.py]: the rest of the loop of [main] *)

(** The three lists of entity pairs of the detailed report (the lists of
    relation pairs are built the same way): membership in the other list,
    without flags. *)
Definition tp_pair_list (gold pred : list (string * string))
  : list (string * string) :=
  filter (fun pe => pe ∈ gold) pred.

Definition fp_pair_list (gold pred : list (string * string))
  : list (string * string) :=
  filter (fun pe => pe ∉ gold) pred.

Definition fn_pair_list (gold pred : list (string * string))
  : list (string * string) :=
  filter (fun ge => ge ∉ pred) gold.

Definition add_counts (a b : counts) : counts :=
  Counts (tp a + tp b) (fp a + fp b) (fn a + fn b).

(** [for etype, counts in per_type_e_row.items(): ...]: the counters of a
    row are added to the global bucket of their type, which is created
    when it is missing. *)
Definition add_per_type (global row : gmap string counts)
  : gmap string counts :=
  map_fold (fun etype c g => alter (fun x => add_counts x c) etype
                               (setdefault_zero etype g))
           global row.

(** A row of the evaluation file; a cell that is not a [str] is [None]. *)
Record eval_row := EvalRow {
  row_entity_types : string;
  row_output : option string;
  row_llm_output : option string
}.

(** [[t.strip() for t in str(row["Entity_Types"]).split(",") if t.strip()]] *)
Definition row_allowed_types (r : eval_row) : list string :=
  filter (fun t => PyStr.is_empty t = false)
         (PyStr.strip <$> PyStr.split "," (row_entity_types r)).

(** The global counters of [main]. *)
Record globals := Globals {
  global_e : counts;
  global_r : counts;
  global_per_type_entities : gmap string counts
}.

Definition initial_globals : globals :=
  Globals zero_counts zero_counts init_per_type.

(** One turn of the loop over the rows, as far as the counters go. *)
Definition evaluate_row (g : globals) (r : eval_row) : globals :=
  let allowed_types := row_allowed_types r in
  let gold := parse_delimited_output (row_output r) allowed_types in
  let pred := parse_delimited_output (row_llm_output r) allowed_types in
  let '(overall_e, per_type_e_row) :=
    score_entities (entities gold) (entities pred) in
  let rel := score_relations (relations gold) (relations pred) in
  Globals (add_counts (global_e g) overall_e)
          (add_counts (global_r g) rel)
          (add_per_type (global_per_type_entities g) per_type_e_row).

Definition evaluate_rows (rows : list eval_row) : globals :=
  foldl evaluate_row initial_globals rows.

(** The number of predicted and of gold entities and relations of a row. *)
Definition row_sizes (r : eval_row) : nat * nat * nat * nat :=
  let allowed_types := row_allowed_types r in
  let gold := parse_delimited_output (row_output r) allowed_types in
  let pred := parse_delimited_output (row_llm_output r) allowed_types in
  (length (entities pred), length (entities gold),
   length (relations pred), length (relations gold)).

(** A word of [str.split()]: not empty and without a whitespace
    character. *)
Fixpoint has_space (s : string) : bool :=
  match s with
  | "" => false
  | String c s' => PyStr.isspace c || has_space s'
  end.

Definition is_word (w : string) : bool :=
  negb (PyStr.is_empty w) && negb (has_space w).

(** What holds of the lists of the parser at every turn of its loop. *)
Definition parsed_ok (allowed_lower : list string) (acc : extraction) : Prop :=
  Forall (fun e : entity => e.2 ∈ allowed_lower
                   ∧ normalize_text e.1 = e.1 ∧ normalize_text e.2 = e.2)
         (entities acc)
  ∧ Forall (fun r : relation =>
              normalize_text r.1 = r.1 ∧ normalize_text r.2 = r.2)
           (relations acc).

(** The path of the output of a chunk in [process_chunks]. *)
Definition coref_out_path (output_dir : string) (verification : bool)
    (c : chunk) : string :=
  output_dir +:+ "/" +:+ chunk_name_of (fname c)
    +:+ (if verification then "_verify" else EmptyString) +:+ ".json".

(** The chunk files that [process_chunks] does not skip. *)
Definition txt_chunks (chunk_files : list chunk) : list chunk :=
  filter (fun c => PyStr.endswith ".txt" (fname c) = true) chunk_files.

(** ** [ner.py]: the retry ladder of [main]

    The four fallback instructions are the string constants of the
    source, written line by line; a line that holds double quotes is
    given by its pieces between the quotes.  The arrow in [fallback_4] is
    kept as the bytes of its UTF-8 encoding. *)

Definition fallback_1 : string :=
  String.concat (String newline EmptyString)
    [ EmptyString;
      "You must return valid JSON only. Do not add comments or explanations.";
      "All items in any list MUST be quoted strings.";
      String.concat DQ ["DO NOT write phrases like "; "is not mentioned"; " or "; "not present"; "."];
      "If an entity is not found, return an empty list or empty object.";
      EmptyString;
      "Return JSON in exactly this structure:";
      EmptyString;
      "{";
      String.concat DQ ["  "; "ENTITIES"; ": {"];
      String.concat DQ ["    "; "PROPER_NOUN"; ": ["; "Example Name"; "],"];
      String.concat DQ ["    "; "NOUN_PHRASE"; ": ["; "Example Phrase"; "]"];
      "  },";
      String.concat DQ ["  "; "PROPER_NOUN_DESCRIPTION"; ": {"];
      String.concat DQ ["    "; "Example Name"; ": "; "Short factual description from text"; EmptyString];
      "  }";
      "}";
      EmptyString;
      "Begin JSON:";
      EmptyString ].

Definition fallback_2 : string :=
  String.concat (String newline EmptyString)
    [ EmptyString;
      "            Output only JSON. No natural language allowed anywhere.";
      "Lists must contain only quoted strings. ";
      "Do not justify missing entities. If nothing is found, output [] or {}.";
      EmptyString;
      "Required JSON format (use these keys exactly):";
      EmptyString;
      "{";
      String.concat DQ ["  "; "ENTITIES"; ": {"];
      String.concat DQ ["    "; "PROPER_NOUN"; ": ["; "X"; "],"];
      String.concat DQ ["    "; "NOUN_PHRASE"; ": ["; "Y"; "]"];
      "  },";
      String.concat DQ ["  "; "PROPER_NOUN_DESCRIPTION"; ": {"];
      String.concat DQ ["    "; "X"; ": "; "Short factual description"; EmptyString];
      "  }";
      "}";
      EmptyString;
      "Start your JSON response below this line:";
      EmptyString;
      "            " ].

Definition fallback_3 : string :=
  String.concat (String newline EmptyString)
    [ "Return a JSON object. Nothing except JSON is allowed. ";
      "List entries must be plain quoted strings. ";
      "No explanations, reasons, or comments allowed. ";
      "Entities not present should be represented as [] or {}.";
      EmptyString;
      "Model output schema:";
      EmptyString;
      "{";
      String.concat DQ ["  "; "ENTITIES"; ": {"];
      String.concat DQ ["    "; "PROPER_NOUN"; ": ["; "Entity1"; ", "; "Entity2"; "],"];
      String.concat DQ ["    "; "NOUN_PHRASE"; ": ["; "Phrase1"; ", "; "Phrase2"; "]"];
      "  },";
      String.concat DQ ["  "; "PROPER_NOUN_DESCRIPTION"; ": {"];
      String.concat DQ ["    "; "Entity1"; ": "; "Description"; ","];
      String.concat DQ ["    "; "Entity2"; ": "; "Description"; EmptyString];
      "  }";
      "}";
      EmptyString;
      "Produce JSON now: " ].

Definition fallback_4 : string :=
  String.concat (String newline EmptyString)
    [ " Contract: You will output valid JSON only. ";
      "Violation conditions: Any commentary, explanations, or unquoted text inside lists.";
      "All list items must be quoted strings. No exceptions.";
      "Missing entities → return empty lists or an empty object.";
      EmptyString;
      "Schema to follow:";
      EmptyString;
      "{";
      String.concat DQ ["  "; "ENTITIES"; ": {"];
      String.concat DQ ["    "; "PROPER_NOUN"; ": ["; "A"; "],"];
      String.concat DQ ["    "; "NOUN_PHRASE"; ": ["; "B"; "]"];
      "  },";
      String.concat DQ ["  "; "PROPER_NOUN_DESCRIPTION"; ": {"];
      String.concat DQ ["    "; "A"; ": "; "Short description"; EmptyString];
      "  }";
      "}";
      EmptyString;
      "Insert your JSON here: " ].

Definition fallback_variants : list string :=
  [fallback_1; fallback_2; fallback_3; fallback_4].

(** [f"{prompt_template.strip()}\n\n{chunk_text.strip()}"] *)
Definition ner_base_prompt (prompt_template chunk_text : string) : string :=
  PyStr.strip prompt_template
  +:+ String newline (String newline (PyStr.strip chunk_text)).

(** The prompt of an attempt: the base prompt at first, then the fallback
    [fallback_variants[(retry_count - 1) % len(fallback_variants)]], two
    newlines and the base prompt. *)
Definition ner_full_prompt (base_prompt : string) (retry_count : nat)
  : string :=
  match retry_count with
  | O => base_prompt
  | S k =>
      default EmptyString
        (fallback_variants !! (k mod length fallback_variants))
      +:+ String newline (String newline base_prompt)
  end.

(** The text of the exception raised when a local variable is read
    before it is bound is, as for [TypeError], the class name. *)
Definition UnboundLocalError : string := "UnboundLocalError".

(** How the [while] loop of a chunk ends: by [break], by the
    [RuntimeError] of the last attempt, or without a turn. *)
Inductive ner_end : Type :=
  | NerSuccess (result_raw : string) (parsed : json)
  | NerFailed (msg : string)
  | NerNoTurn
  | NerOutOfFuel.

Section NerMain.

Context {W : Type}.
Variable post : W → string → nat → post_result * W.
Variable dumps : json → string.

(** The loop [while retry_count <= args.max_retries]; [max_retries] is
    any integer.  Each turn takes one unit of [fuel]. *)
Fixpoint ner_loop (fuel : nat) (base_prompt fname : string) (max_retries : Z)
    (retry_count : nat) (st : state) : ner_end * state :=
  if (Z.of_nat retry_count <=? max_retries)%Z then
    match fuel with
    | O => (NerOutOfFuel, st)
    | S fuel' =>
        let full_prompt := ner_full_prompt base_prompt retry_count in
        match try_call post inference_lenient
                (fun result_raw =>
                   parsed ← Ner.extract_json_from_ollama result_raw;
                   Ok (result_raw, parsed))
                full_prompt 300 st with
        | (Ok (result_raw, parsed), st1) =>
            (NerSuccess result_raw parsed, st1)                  (* break *)
        | (Raise e, st1) =>
            let retry_count := S retry_count in
            if (max_retries <? Z.of_nat retry_count)%Z then
              (NerFailed ("Failed after " +:+ pretty max_retries
                          +:+ " attempts for chunk " +:+ fname +:+ ": "
                          +:+ e), st1)
            else ner_loop fuel' base_prompt fname max_retries retry_count st1
        end
    end
  else (NerNoTurn, st).

Definition ner_raw_path (output_dir fname : string) : string :=
  output_dir +:+ "/" +:+ PyStr.replace ".txt" "_raw.txt" fname.

Definition ner_out_path (output_dir fname : string) : string :=
  output_dir +:+ "/" +:+ PyStr.replace ".txt" ".json" fname.

(** The body of the loop over the chunk files.  When the [while] loop
    makes no turn, [result_raw] is not bound: the raw file is opened,
    hence created empty, and the [write] raises.  As the exception ends
    the run, this happens for the first chunk only. *)
Definition ner_chunk (prompt_template output_dir : string) (max_retries : Z)
    (fname chunk_text : string) (st : state) : result unit * state :=
  let base_prompt := ner_base_prompt prompt_template chunk_text in
  match ner_loop (S (Z.to_nat max_retries)) base_prompt fname max_retries 0
          st with
  | (NerSuccess result_raw parsed, st1) =>
      (Ok (), write_file (ner_out_path output_dir fname) (dumps parsed)
                (write_file (ner_raw_path output_dir fname) result_raw st1))
  | (NerFailed msg, st1) => (Raise msg, st1)
  | (NerNoTurn, st1) =>
      (Raise UnboundLocalError,
       write_file (ner_raw_path output_dir fname) EmptyString st1)
  | (NerOutOfFuel, st1) => (Raise "out of fuel", st1)
  end.

Fixpoint ner_chunks (prompt_template output_dir : string) (max_retries : Z)
    (chunk_files : list (string * string)) (st : state)
  : result unit * state :=
  match chunk_files with
  | [] => (Ok (), st)
  | (fname, chunk_text) :: rest =>
      match ner_chunk prompt_template output_dir max_retries fname chunk_text
              st with
      | (Ok _, st1) => ner_chunks prompt_template output_dir max_retries rest st1
      | (Raise msg, st1) => (Raise msg, st1)
      end
  end.

(** [main]: [listing] is the sorted listing of the chunk directory with
    the text of each file. *)
Definition ner_main (prompt_template output_dir : string) (max_retries : Z)
    (listing : list (string * string)) (st : state) : result unit * state :=
  ner_chunks prompt_template output_dir max_retries
    (filter (fun f => PyStr.endswith ".txt" f.1 = true) listing) st.

End NerMain.

(** ** [chunk.py]: [chunk_legal_text] *)

(** [re.split] on runs of two or more newlines: the text is cut at
    every maximal run of at least two newlines.  [in_sep] tells that the
    characters read are still those of a separator. *)
Fixpoint split_blank_lines (s : string) (in_sep : bool) : list string :=
  match s with
  | "" => [""]
  | String c s' =>
      if in_sep && bool_decide (c = newline) then split_blank_lines s' true
      else if PyStr.startswith (String newline (String newline "")) s
      then "" :: split_blank_lines s' true
      else match split_blank_lines s' false with
           | w :: ws => String c w :: ws
           | [] => [String c ""]
           end
  end.

(** The separator of the paragraphs of a chunk. *)
Definition PARA_SEP : string := String newline (String newline "").

(** [len(tokenizer.encode(para)) if tokenizer else len(para.split())];
    a tokenizer is given by the number of tokens of a text. *)
Definition token_count (tokenizer : option (string → nat)) (para : string)
  : nat :=
  match tokenizer with
  | Some encoded_length => encoded_length para
  | None => length (PyStr.split_ws para)
  end.

(** The variables of the loop over the paragraphs. *)
Record chunker := Chunker {
  chunks : list string;
  current_chunk : list string;
  current_length : nat
}.

(** [if current_chunk: chunks.append("\n\n".join(current_chunk))] *)
Definition flush (chunks current_chunk : list string) : list string :=
  match current_chunk with
  | [] => chunks
  | _ => chunks ++ [PyStr.join PARA_SEP current_chunk]
  end.

(** One turn of the loop over the paragraphs; [max_tokens] is any
    integer. *)
Definition add_paragraph (max_tokens : Z) (tokenizer : option (string → nat))
    (st : chunker) (para : string) : chunker :=
  let para := PyStr.strip para in
  if PyStr.is_empty para then st                                 (* continue *)
  else
    let token_count := token_count tokenizer para in
    if (max_tokens <? Z.of_nat (current_length st + token_count))%Z then
      Chunker (flush (chunks st) (current_chunk st)) [para] token_count
    else
      Chunker (chunks st) (current_chunk st ++ [para])
              (current_length st + token_count).

(** The chunks before the last one is looked at. *)
Definition grouped_chunks (text : string) (max_tokens : Z)
    (tokenizer : option (string → nat)) : list string :=
  let paragraphs := split_blank_lines (PyStr.strip text) false in
  let st := foldl (add_paragraph max_tokens tokenizer) (Chunker [] [] 0)
              paragraphs in
  flush (chunks st) (current_chunk st).

(** [if len(chunks) >= 2: ...]: a last chunk with fewer words than
    [min_last_chunk_words] is appended to the chunk before it. *)
Definition merge_last (min_last_chunk_words : Z) (chunks : list string)
  : list string :=
  match reverse chunks with
  | last_chunk :: previous :: front =>
      if (Z.of_nat (length (PyStr.split_ws last_chunk))
          <? min_last_chunk_words)%Z
      then reverse front ++ [previous +:+ PARA_SEP +:+ last_chunk]
      else chunks
  | _ => chunks
  end.

Definition chunk_legal_text (text : string) (max_tokens : Z)
    (tokenizer : option (string → nat)) (min_last_chunk_words : Z)
  : list string :=
  merge_last min_last_chunk_words (grouped_chunks text max_tokens tokenizer).

(** The paragraphs that the loop does not skip, stripped. *)
Definition kept_paragraphs (text : string) : list string :=
  filter (fun p => PyStr.is_empty p = false)
         (PyStr.strip <$> split_blank_lines (PyStr.strip text) false).

(** A group of paragraphs is within the budget when its token counts add
    up to at most [max_tokens], or when it is a single paragraph. *)
Definition within_budget (max_tokens : Z) (tokenizer : option (string → nat))
    (group : list string) : Prop :=
  (Z.of_nat (sum_list (token_count tokenizer <$> group)) ≤ max_tokens)%Z
  ∨ length group = 1%nat.

(** The open chunk as a group, when it is not empty. *)
Definition open_group (current_chunk : list string) : list (list string) :=
  match current_chunk with
  | [] => []
  | _ => [current_chunk]
  end.

(** A group is followed by another only when the first paragraph of the
    next group did not fit into it. *)
Definition closed_when_full (max_tokens : Z)
    (tokenizer : option (string → nat)) (groups : list (list string))
  : Prop :=
  ∀ i g p rest,
    groups !! i = Some g → groups !! S i = Some (p :: rest) →
    (max_tokens
     < Z.of_nat (sum_list (token_count tokenizer <$> g)
                 + token_count tokenizer p))%Z.

(** What holds of the variables of the loop of [chunk_legal_text] once
    the paragraphs [added] have been added: the chunks closed so far are
    the joins of groups within the budget, the groups followed by the
    open chunk are the paragraphs added, in order, and no group was
    closed before it was full. *)
Definition chunker_ok (max_tokens : Z) (tokenizer : option (string → nat))
    (st : chunker) (added : list string) : Prop :=
  ∃ groups : list (list string),
    chunks st = PyStr.join PARA_SEP <$> groups
    ∧ concat groups ++ current_chunk st = added
    ∧ Forall (fun g => g ≠ [] ∧ within_budget max_tokens tokenizer g) groups
    ∧ current_length st
      = sum_list (token_count tokenizer <$> current_chunk st)
    ∧ (current_chunk st = []
       ∨ within_budget max_tokens tokenizer (current_chunk st))
    ∧ (current_chunk st = [] → groups = [])
    ∧ closed_when_full max_tokens tokenizer
        (groups ++ open_group (current_chunk st)).

(** The paths written for the chunk files of a listing by the entity
    stage, two per file, and by one pass of the coreference stage, one
    per file and the final memory. *)
Definition ner_paths (output_dir : string) (chunk_files : list (string * string))
  : list string :=
  chunk_files ≫= (fun f => [ner_raw_path output_dir f.1;
                            ner_out_path output_dir f.1]).

Definition coref_pass_paths (base_output_folder : string) (verification : bool)
    (chunk_files : list chunk) : list string :=
  (coref_out_path (base_output_folder +:+ "/coref_outputs") verification
     <$> txt_chunks chunk_files)
  ++ [base_output_folder +:+ "/final_memory.json"].

(** ** Quantities used to state the properties of the global memory *)

(** In a decoded value no object has the same key twice. *)
Fixpoint distinct_keys (v : json) : Prop :=
  match v with
  | Json.JObj members =>
      NoDup members.*1
      ∧ fold_right (fun kv rest => distinct_keys kv.2 ∧ rest) True members
  | Json.JArr items =>
      fold_right (fun item rest => distinct_keys item ∧ rest) True items
  | _ => True
  end.

(** [d'] is [d] merged with the value [v] of a response, a union with
    override.  The map of the response is what its pairs make of an
    empty dictionary; for an object these are its items. *)
Definition union_with_override (d : memory) (v : json) (d' : memory) : Prop :=
  let response := PyDict.update_pairs [] (Coref.pairs_of v) in
  (* every key that was there is still there *)
  (∀ k, is_Some (PyDict.get k d) → is_Some (PyDict.get k d'))
  (* every key of the response is there *)
  ∧ (∀ k x, (k, x) ∈ Coref.pairs_of v → is_Some (PyDict.get k d'))
  (* a key of the response has the value of the response *)
  ∧ (∀ k x, PyDict.get k response = Some x → PyDict.get k d' = Some x)
  (* any other key keeps its value *)
  ∧ (∀ k, PyDict.get k response = None → PyDict.get k d' = PyDict.get k d)
  (* the same, for a response that is an object, by its items *)
  ∧ (∀ members k x,
       v = Json.JObj members → Json.dict_get k members = Some x →
       PyDict.get (Json.JStr k) d' = Some x)
  ∧ (∀ members k,
       v = Json.JObj members → Json.dict_get k members = None →
       PyDict.get (Json.JStr k) d' = PyDict.get (Json.JStr k) d).

(** * Properties of the scorer *)

Section Scorer.

Implicit Types (gold pred : list entity) (used : list bool).

Lemma count_false_cons b used :
  count_false (b :: used) = (if b then 0 else 1) + count_false used.
Proof.
  unfold count_false. rewrite filter_cons.
  destruct b; case_decide; simpl; congruence.
Qed.

Lemma count_false_replicate n : count_false (replicate n false) = n.
Proof.
  induction n as [|n IH]; [done|].
  simpl replicate. rewrite count_false_cons, IH. done.
Qed.

Lemma count_false_insert used j :
  used !! j = Some false →
  S (count_false (<[j := true]> used)) = count_false used.
Proof.
  revert j. induction used as [|b used IH]; intros [|j] Hj; simplify_eq/=.
  - rewrite !count_false_cons. done.
  - rewrite !count_false_cons. rewrite <- (IH j Hj). lia.
Qed.

Lemma find_match_unused p used gold i j :
  find_match p used gold i = Some j → used !! j = Some false.
Proof.
  revert i. induction gold as [|g gold IH]; intros i; simpl; [done|].
  destruct (used !! i) as [[]|] eqn:E; simpl; eauto.
  destruct (bool_decide (p.1 = g.1) && bool_decide (p.2 = g.2)); eauto.
  intros [= <-]. done.
Qed.

(** What one prediction does to the overall counters and the flags. *)
Lemma score_pred_overall gold st p :
  let st' := score_pred gold st p in
  length (st_used st') = length (st_used st)
  ∧ tp (st_overall st') + fp (st_overall st')
    = S (tp (st_overall st) + fp (st_overall st))
  ∧ tp (st_overall st') + count_false (st_used st')
    = tp (st_overall st) + count_false (st_used st)
  ∧ fn (st_overall st') = fn (st_overall st).
Proof.
  unfold score_pred.
  destruct (find_match p (st_used st) gold 0) as [j|] eqn:E; simpl.
  - apply find_match_unused in E. apply count_false_insert in E.
    rewrite length_insert. lia.
  - lia.
Qed.

Lemma step1_overall gold pred st :
  let st' := foldl (score_pred gold) st pred in
  length (st_used st') = length (st_used st)
  ∧ tp (st_overall st') + fp (st_overall st')
    = tp (st_overall st) + fp (st_overall st) + length pred
  ∧ tp (st_overall st') + count_false (st_used st')
    = tp (st_overall st) + count_false (st_used st)
  ∧ fn (st_overall st') = fn (st_overall st).
Proof.
  revert st. induction pred as [|p pred IH]; intros st; simpl.
  - lia.
  - specialize (IH (score_pred gold st p)). simpl in IH.
    pose proof (score_pred_overall gold st p) as H. simpl in H.
    destruct IH as (? & ? & ? & ?), H as (? & ? & ? & ?).
    repeat split; lia.
Qed.

Lemma step2_overall (l : list (bool * entity)) acc :
  let r := foldl score_gold acc l in
  tp r.1 = tp acc.1 ∧ fp r.1 = fp acc.1
  ∧ fn r.1 = fn acc.1 + count_false (l.*1).
Proof.
  revert acc. induction l as [|[u g] l IH]; intros acc; cbv zeta in *.
  - unfold count_false. simpl. lia.
  - simpl foldl. rewrite fmap_cons, count_false_cons.
    destruct (IH (score_gold acc (u, g))) as (H1 & H2 & H3).
    rewrite H1, H2, H3. unfold score_gold. destruct u; simpl; lia.
Qed.

(** C5. For every list of gold entities and every list of predicted
    entities, the overall counts of [score_entities] satisfy
    [tp + fp = len(pred)] and [tp + fn = len(gold)]. *)
Theorem score_entities_totals gold pred :
  let overall := (score_entities gold pred).1 in
  tp overall + fp overall = length pred
  ∧ tp overall + fn overall = length gold.
Proof.
  unfold score_entities.
  set (st0 := ScoreState _ _ _).
  pose proof (step1_overall gold pred st0) as H1. simpl in H1.
  set (st1 := foldl (score_pred gold) st0 pred) in *.
  pose proof (step2_overall (zip (st_used st1) gold)
                (st_overall st1, st_per_type st1)) as H2. simpl in H2.
  destruct H1 as (Hlen & Htf & Htu & Hfn), H2 as (Htp & Hfp & Hfn').
  subst st0. simpl in *. rewrite length_replicate in Hlen.
  rewrite count_false_replicate in Htu.
  rewrite fst_zip in Hfn' by lia.
  simpl. lia.
Qed.

(** *** Per-type buckets *)

Lemma bump_insert f t (m : gmap string counts) :
  bump f t m = <[t := f (default zero_counts (m !! t))]> m.
Proof.
  unfold bump, setdefault_zero. apply map_eq; intros k.
  destruct (m !! t) as [c|] eqn:E; simpl.
  - destruct (decide (t = k)) as [<-|Hne].
    + by rewrite lookup_alter_eq, lookup_insert_eq, E.
    + by rewrite lookup_alter_ne, lookup_insert_ne.
  - by rewrite alter_insert_eq.
Qed.

Lemma total_insert_fresh f (m : gmap string counts) k c :
  m !! k = None → total f (<[k := c]> m) = f c + total f m.
Proof.
  intros Hk. unfold total.
  rewrite map_fold_insert_L; [done| |done]. intros. lia.
Qed.

Lemma total_insert f (m : gmap string counts) k c :
  f zero_counts = 0 →
  total f (<[k := c]> m) + f (default zero_counts (m !! k))
  = total f m + f c.
Proof.
  intros Hz. destruct (m !! k) as [old|] eqn:E; simpl.
  - assert (total f m = f old + total f (delete k m)) as ->.
    { rewrite <- (insert_delete_id m k old) at 1 by done.
      apply total_insert_fresh, lookup_delete_eq. }
    rewrite <- insert_delete_eq, total_insert_fresh
      by apply lookup_delete_eq.
    lia.
  - rewrite total_insert_fresh by done. lia.
Qed.

Lemma total_bump f g t (m : gmap string counts) :
  f zero_counts = 0 →
  total f (bump g t m) + f (default zero_counts (m !! t))
  = total f m + f (g (default zero_counts (m !! t))).
Proof. intros Hz. rewrite bump_insert. by apply total_insert. Qed.

Lemma total_init f : f zero_counts = 0 → total f init_per_type = 0.
Proof.
  intros Hz. unfold init_per_type, ALL_ENTITY_TYPES. simpl foldl.
  repeat (rewrite total_insert_fresh by (vm_compute; reflexivity);
          rewrite Hz; simpl).
  reflexivity.
Qed.

Lemma buckets_agree_bump_tp overall per_type t :
  buckets_agree overall per_type →
  buckets_agree (inc_tp overall) (bump inc_tp t per_type).
Proof.
  intros (Ht & Hp & Hn). unfold buckets_agree.
  pose proof (total_bump tp inc_tp t per_type eq_refl).
  pose proof (total_bump fp inc_tp t per_type eq_refl).
  pose proof (total_bump fn inc_tp t per_type eq_refl).
  simpl in *. lia.
Qed.

Lemma buckets_agree_bump_fp overall per_type t :
  buckets_agree overall per_type →
  buckets_agree (inc_fp overall) (bump inc_fp t per_type).
Proof.
  intros (Ht & Hp & Hn). unfold buckets_agree.
  pose proof (total_bump tp inc_fp t per_type eq_refl).
  pose proof (total_bump fp inc_fp t per_type eq_refl).
  pose proof (total_bump fn inc_fp t per_type eq_refl).
  simpl in *. lia.
Qed.

Lemma buckets_agree_bump_fn overall per_type t :
  buckets_agree overall per_type →
  buckets_agree (inc_fn overall) (bump inc_fn t per_type).
Proof.
  intros (Ht & Hp & Hn). unfold buckets_agree.
  pose proof (total_bump tp inc_fn t per_type eq_refl).
  pose proof (total_bump fp inc_fn t per_type eq_refl).
  pose proof (total_bump fn inc_fn t per_type eq_refl).
  simpl in *. lia.
Qed.

Lemma step1_buckets gold pred st :
  buckets_agree (st_overall st) (st_per_type st) →
  let st' := foldl (score_pred gold) st pred in
  buckets_agree (st_overall st') (st_per_type st').
Proof.
  revert st. induction pred as [|p pred IH]; intros st Hst; [done|].
  simpl. apply IH. unfold score_pred.
  destruct (find_match p (st_used st) gold 0); simpl;
    auto using buckets_agree_bump_tp, buckets_agree_bump_fp.
Qed.

Lemma step2_buckets (l : list (bool * entity)) acc :
  buckets_agree acc.1 acc.2 →
  let r := foldl score_gold acc l in buckets_agree r.1 r.2.
Proof.
  revert acc. induction l as [|[u g] l IH]; intros acc Hacc; [done|].
  simpl. apply IH. unfold score_gold.
  destruct u; simpl; auto using buckets_agree_bump_fn.
Qed.

(** C10. In every result of [score_entities] the per-type counts add up
    to the overall counts: the sum over all types of the per-type [tp]
    is the overall [tp], and likewise for [fp] and [fn]. *)
Theorem score_entities_partition gold pred :
  let r := score_entities gold pred in
  total tp r.2 = tp r.1 ∧ total fp r.2 = fp r.1 ∧ total fn r.2 = fn r.1.
Proof.
  unfold score_entities. apply step2_buckets. simpl.
  apply step1_buckets. simpl.
  repeat split; apply total_init; reflexivity.
Qed.

End Scorer.

(** * Properties of [compute_prf1] *)

Section PRF1.

Local Open Scope Qc_scope.

Lemma int_to_Qc_nonzero n : (0 < n)%nat → int_to_Qc n ≠ 0.
Proof.
  intros Hn. unfold int_to_Qc. rewrite <- Z2Qc_inj_0, Z2Qc_inj_iff. lia.
Qed.

Lemma py_div_ok a b : b ≠ 0 → py_div a b = Ok (a / b).
Proof. intros Hb. unfold py_div. by rewrite decide_False. Qed.

(** The guarded quotient [tp / (tp + x) if tp + x > 0 else 0.0] returns. *)
Lemma ratio_ok (a b : nat) :
  (if decide (0 < b)%nat then py_div (int_to_Qc a) (int_to_Qc b) else Ok 0)
  = Ok (if decide (0 < b)%nat then int_to_Qc a / int_to_Qc b else 0).
Proof.
  case_decide; [|done]. by apply py_div_ok, int_to_Qc_nonzero.
Qed.

Lemma f1_ok (p r : Qc) :
  (if decide (0 < p + r) then py_div (2 * p * r) (p + r) else Ok 0)
  = Ok (if decide (0 < p + r) then 2 * p * r / (p + r) else 0).
Proof.
  case_decide as H; [|done]. apply py_div_ok.
  intros Hz. rewrite Hz in H. by apply Qclt_not_eq in H.
Qed.

Lemma compute_prf1_eq tp fp fn :
  compute_prf1 tp fp fn =
  let p := if decide (0 < tp + fp)%nat
           then int_to_Qc tp / int_to_Qc (tp + fp) else 0 in
  let r := if decide (0 < tp + fn)%nat
           then int_to_Qc tp / int_to_Qc (tp + fn) else 0 in
  Ok (p, r, if decide (0 < p + r) then 2 * p * r / (p + r) else 0).
Proof.
  unfold compute_prf1. rewrite !ratio_ok. simpl. by rewrite f1_ok.
Qed.

(** C8. [compute_prf1] never raises on non-negative integers: it returns
    precision [tp/(tp+fp)] when [tp+fp > 0] and 0 otherwise, recall
    [tp/(tp+fn)] when [tp+fn > 0] and 0 otherwise, and f1 [2PR/(P+R)]
    when [P+R > 0] and 0 otherwise; [compute_prf1(0,0,0) = (0,0,0)], and
    [compute_prf1(tp,0,0) = (1,1,1)] for every [tp > 0]. *)
Theorem compute_prf1_safe (tp fp fn : nat) :
  (∃ p r f1, compute_prf1 tp fp fn = Ok (p, r, f1)
     ∧ ((0 < tp + fp)%nat → p = int_to_Qc tp / int_to_Qc (tp + fp))
     ∧ ((tp + fp = 0)%nat → p = 0)
     ∧ ((0 < tp + fn)%nat → r = int_to_Qc tp / int_to_Qc (tp + fn))
     ∧ ((tp + fn = 0)%nat → r = 0)
     ∧ (0 < p + r → f1 = 2 * p * r / (p + r))
     ∧ (¬ 0 < p + r → f1 = 0))
  ∧ compute_prf1 0 0 0 = Ok (0, 0, 0)
  ∧ ((0 < tp)%nat → compute_prf1 tp 0 0 = Ok (1, 1, 1)).
Proof.
  split; [|split].
  - rewrite compute_prf1_eq. cbv zeta. eexists _, _, _. split; [done|].
    repeat split; intros; repeat case_decide; try done; lia.
  - rewrite compute_prf1_eq. cbv zeta.
    rewrite !(decide_False (P := (0 < 0 + 0)%nat)) by lia.
    by rewrite decide_False by done.
  - intros Htp. rewrite compute_prf1_eq. cbv zeta.
    rewrite Nat.add_0_r. rewrite !(decide_True (P := (0 < tp)%nat)) by done.
    assert (int_to_Qc tp / int_to_Qc tp = 1) as ->.
    { apply Qcmult_inv_r. by apply int_to_Qc_nonzero. }
    rewrite decide_True by done.
    do 2 f_equal. by apply Qc_is_canon.
Qed.

Lemma compute_prf1_safe_witness :
  (0 < 3)%nat ∧ compute_prf1 3 0 0 = Ok (1, 1, 1).
Proof.
  split; [lia|]. apply (compute_prf1_safe 3 0 0). lia.
Defined.

End PRF1.

(** * Relation scoring against the greedy policy *)

Section Greedy.

Implicit Types (gold pred : list (string * string)) (used : list bool).

Lemma unused_of_cons u used g gold :
  unused_of (u :: used) (g :: gold)
  = if u then unused_of used gold else g :: unused_of used gold.
Proof.
  unfold unused_of. simpl zip. rewrite filter_cons. simpl.
  destruct u; case_decide; simplify_eq/=; done.
Qed.

Lemma unused_of_replicate gold :
  unused_of (replicate (length gold) false) gold = gold.
Proof.
  induction gold as [|g gold IH]; [done|].
  simpl replicate. by rewrite unused_of_cons, IH.
Qed.

Lemma unused_of_length used gold :
  length used = length gold →
  length (unused_of used gold) = count_false used.
Proof.
  revert gold. induction used as [|u used IH]; intros [|g gold] Hlen;
    simplify_eq/=; [done|].
  rewrite unused_of_cons, count_false_cons.
  destruct u; simpl; rewrite IH; done.
Qed.

Lemma unused_of_subset used gold x :
  x ∈ unused_of used gold → x ∈ gold.
Proof.
  revert gold. induction used as [|u used IH]; intros [|g gold];
    try (unfold unused_of; simpl; by intros ?%elem_of_nil).
  rewrite unused_of_cons. destruct u.
  - intros ?%IH. by right.
  - intros [->|?%IH]%elem_of_cons; [left|right]; done.
Qed.

Lemma pair_eqb (p g : string * string) :
  bool_decide (p.1 = g.1) && bool_decide (p.2 = g.2) = bool_decide (p = g).
Proof.
  destruct p as [a b], g as [c d]; simpl.
  repeat case_bool_decide; simplify_eq/=; try done.
Qed.

Lemma find_match_shift p used gold i :
  find_match p used gold (S i) = S <$> find_match p (tail used) gold i.
Proof.
  revert i. induction gold as [|g gold IH]; intros i; simpl; [done|].
  rewrite lookup_tail, IH.
  by destruct (negb (default true (used !! S i)) && _ && _).
Qed.

Lemma find_match_cons p u used g gold :
  find_match p (u :: used) (g :: gold) 0
  = if negb u && bool_decide (p = g) then Some 0
    else S <$> find_match p used gold 0.
Proof.
  simpl. rewrite find_match_shift. simpl.
  by rewrite <- andb_assoc, pair_eqb.
Qed.

Lemma remove_first_not_in p (l : list (string * string)) :
  p ∉ l → remove_first p l = None.
Proof.
  induction l as [|g l IH]; simpl; [done|].
  intros [Hne Hnotin]%not_elem_of_cons.
  rewrite bool_decide_eq_false_2 by done. by rewrite IH.
Qed.

(** The flag found by [score_entities] is the first unused equal item. *)
Lemma find_match_remove p used gold :
  length used = length gold →
  remove_first p (unused_of used gold)
  = (fun i => unused_of (<[i := true]> used) gold)
      <$> find_match p used gold 0.
Proof.
  revert gold. induction used as [|u used IH]; intros [|g gold] Hlen;
    try done.
  injection Hlen as Hlen.
  rewrite find_match_cons, unused_of_cons. destruct u; simpl.
  - rewrite IH by done. destruct (find_match p used gold 0); simpl; [|done].
    by rewrite unused_of_cons.
  - repeat case_bool_decide; try done; simpl.
    rewrite IH by done.
    destruct (find_match p used gold 0); simpl; [|done].
    by rewrite unused_of_cons.
Qed.

Lemma step1_greedy gold pred st :
  length (st_used st) = length gold →
  greedy_counts (unused_of (st_used st) gold) pred (st_overall st)
  = Counts (tp (st_overall (foldl (score_pred gold) st pred)))
           (fp (st_overall (foldl (score_pred gold) st pred)))
           (fn (st_overall (foldl (score_pred gold) st pred))
            + count_false (st_used (foldl (score_pred gold) st pred))).
Proof.
  revert st. induction pred as [|p pred IH]; intros st Hlen; simpl.
  - by rewrite unused_of_length.
  - rewrite find_match_remove by done.
    destruct (find_match p (st_used st) gold 0) as [i|] eqn:E; simpl.
    + assert (score_pred gold st p
              = ScoreState (<[i := true]> (st_used st))
                  (inc_tp (st_overall st))
                  (bump inc_tp p.2 (st_per_type st))) as ->
        by (unfold score_pred; by rewrite E).
      apply (IH (ScoreState _ _ _)).
      change (length (<[i := true]> (st_used st)) = length gold).
      by rewrite length_insert.
    + assert (score_pred gold st p
              = ScoreState (st_used st) (inc_fp (st_overall st))
                  (bump inc_fp p.2 (st_per_type st))) as ->
        by (unfold score_pred; by rewrite E).
      by apply (IH (ScoreState _ _ _)).
Qed.

(** [score_entities] computes the greedy policy of the specification. *)
Lemma score_entities_greedy gold pred :
  (score_entities gold pred).1 = greedy_policy gold pred.
Proof.
  unfold greedy_policy, score_entities.
  set (st0 := ScoreState _ _ _).
  pose proof (step1_greedy gold pred st0) as H1.
  pose proof (step1_overall gold pred st0) as (Hlen & _).
  simpl in H1, Hlen. rewrite length_replicate in Hlen, H1.
  rewrite unused_of_replicate in H1. rewrite H1 by done.
  set (st1 := foldl (score_pred gold) st0 pred) in *.
  pose proof (step2_overall (zip (st_used st1) gold)
                (st_overall st1, st_per_type st1)) as (Htp & Hfp & Hfn).
  simpl in *. rewrite fst_zip in Hfn by lia.
  destruct (foldl score_gold _ _).1 as [a b c]. simpl in *. congruence.
Qed.

(** *** The relation loop *)

Lemma rel_step_greedy pr used gold :
  NoDup gold → length used = length gold →
  remove_first pr (unused_of used gold)
  = match list_index pr gold with
    | Some m => if negb (default true (used !! m))
                then Some (unused_of (<[m := true]> used) gold) else None
    | None => None
    end.
Proof.
  intros Hnd. revert used.
  induction Hnd as [|g gold Hg Hnd IH]; intros [|u used] Hlen; try done.
  injection Hlen as Hlen. rewrite unused_of_cons. simpl list_index.
  case_bool_decide as Heq.
  - subst g. simpl. destruct u; simpl.
    + apply remove_first_not_in. by intros ?%unused_of_subset.
    + rewrite bool_decide_eq_true_2 by done. by rewrite unused_of_cons.
  - specialize (IH used Hlen).
    destruct u; simpl; [|rewrite bool_decide_eq_false_2 by done];
      rewrite IH; destruct (list_index pr gold) as [m|]; simpl; try done;
      destruct (negb (default true (used !! m))); simpl; try done;
      by rewrite unused_of_cons.
Qed.

Lemma rel_loop_greedy gold pred (st : list bool * counts) :
  NoDup gold → length st.1 = length gold →
  greedy_counts (unused_of st.1 gold) pred st.2
  = Counts (tp (foldl (rel_pred gold) st pred).2)
           (fp (foldl (rel_pred gold) st pred).2)
           (fn st.2 + count_false (foldl (rel_pred gold) st pred).1).
Proof.
  intros Hnd. revert st.
  induction pred as [|pr pred IH]; intros [used acc] Hlen; simpl in *.
  - by rewrite unused_of_length.
  - rewrite rel_step_greedy by done.
    destruct (list_index pr gold) as [m|] eqn:E;
      [destruct (negb (default true (used !! m))) eqn:E2|]; simpl.
    + assert (rel_pred gold (used, acc) pr
              = (<[m := true]> used, inc_tp acc)) as ->
        by (unfold rel_pred; simpl; by rewrite E, E2).
      etrans; [apply (IH (<[m := true]> used, inc_tp acc))|done].
      change (length (<[m := true]> used) = length gold).
      by rewrite length_insert.
    + assert (rel_pred gold (used, acc) pr = (used, inc_fp acc)) as ->
        by (unfold rel_pred; simpl; by rewrite E, E2).
      etrans; [by apply (IH (used, inc_fp acc))|done].
    + assert (rel_pred gold (used, acc) pr = (used, inc_fp acc)) as ->
        by (unfold rel_pred; simpl; by rewrite E).
      etrans; [by apply (IH (used, inc_fp acc))|done].
Qed.

(** X22. On gold lists without repeated tuples the relation loop of
    [main] is the greedy policy: it returns the counts of the policy for
    every list of predictions, repeated or not. *)
Lemma score_relations_nodup gold pred :
  NoDup gold → score_relations gold pred = greedy_policy gold pred.
Proof.
  intros Hnd. unfold score_relations, greedy_policy.
  pose proof (rel_loop_greedy gold pred
                (replicate (length gold) false, zero_counts) Hnd) as H.
  simpl in H. rewrite length_replicate, unused_of_replicate in H.
  by rewrite H.
Qed.

(** C1 (the claim fails on the code). With the gold relation [(a,b)]
    listed twice and predicted twice, the relation loop of [main] counts
    tp=1, fp=1, fn=1, whereas the greedy policy of the specification, and
    [score_entities] on the same tuples, count tp=2, fp=0, fn=0:
    [gold_rel.index(pr)] always returns the first equal gold item, used
    or not. *)
Theorem score_relations_duplicate_gold :
  let gold := [("a", "b"); ("a", "b")] in
  let pred := [("a", "b"); ("a", "b")] in
  score_relations gold pred = Counts 1 1 1
  ∧ greedy_policy gold pred = Counts 2 0 0
  ∧ (score_entities gold pred).1 = Counts 2 0 0.
Proof. vm_compute. done. Qed.

End Greedy.

(** * Properties of the record parser *)

Section Parser.

Implicit Types (al : list string) (acc : extraction) (r : string)
  (pre post : list string).

Lemma parse_loop_stop al pre r post acc :
  stops (PyStr.strip r) = true →
  parse_loop al (pre ++ r :: post) acc = parse_loop al pre acc.
Proof.
  intros Hr. revert acc. induction pre as [|x pre IH]; intros acc; simpl.
  - by rewrite Hr.
  - destruct (stops (PyStr.strip x)); [done|].
    destruct (Regex.re_match record_pattern (PyStr.strip x))
      as [[|? [|? [|? ?]]]|]; apply IH.
Qed.

Lemma parse_loop_skip al pre r post acc :
  stops (PyStr.strip r) = false →
  Regex.re_match record_pattern (PyStr.strip r) = None →
  parse_loop al (pre ++ r :: post) acc = parse_loop al (pre ++ post) acc.
Proof.
  intros Hr Hm. revert acc. induction pre as [|x pre IH]; intros acc; simpl.
  - by rewrite Hr, Hm.
  - destruct (stops (PyStr.strip x)); [done|].
    destruct (Regex.re_match record_pattern (PyStr.strip x))
      as [[|? [|? [|? ?]]]|]; apply IH.
Qed.

(** The lists only grow while the loop runs. *)
Lemma parse_fields_grows al ty rest acc :
  ∃ es rs,
    parse_fields al ty rest acc
    = Extraction (entities acc ++ es) (relations acc ++ rs)
    ∧ parse_fields al ty rest no_items = Extraction es rs.
Proof.
  unfold parse_fields.
  destruct (PyStr.split TUPLE_DELIM _) as [|f0 [|f1 fs]];
    try (exists [], []; destruct acc; simpl; by rewrite !app_nil_r).
  repeat case_bool_decide; simpl;
    try (exists [], []; destruct acc; simpl; by rewrite !app_nil_r).
  - eexists [_], []. by rewrite app_nil_r.
  - eexists [], [_]. by rewrite app_nil_r.
Qed.

Lemma parse_loop_grows al parts acc :
  ∃ es rs,
    parse_loop al parts acc
    = Extraction (entities acc ++ es) (relations acc ++ rs).
Proof.
  revert acc. induction parts as [|x parts IH]; intros acc; simpl.
  - exists [], []. destruct acc; simpl; by rewrite !app_nil_r.
  - destruct (stops (PyStr.strip x)).
    { exists [], []. destruct acc; simpl; by rewrite !app_nil_r. }
    destruct (Regex.re_match record_pattern (PyStr.strip x))
      as [[|ty [|rest [|? ?]]]|]; try apply IH.
    destruct (parse_fields_grows al ty rest acc) as (es & rs & -> & _).
    destruct (IH (Extraction (entities acc ++ es) (relations acc ++ rs)))
      as (es' & rs' & ->). simpl.
    exists (es ++ es'), (rs ++ rs'). by rewrite !app_assoc.
Qed.

(** A matching record that comes before every stopping record leaves its
    items in the result, whatever the records around it are. *)
Lemma parse_loop_keeps al pre r post acc ty rest :
  Forall (fun x => stops (PyStr.strip x) = false) pre →
  stops (PyStr.strip r) = false →
  Regex.re_match record_pattern (PyStr.strip r) = Some [ty; rest] →
  let items := parse_fields al ty rest no_items in
  let result := parse_loop al (pre ++ r :: post) acc in
  (∀ e, e ∈ entities items → e ∈ entities result)
  ∧ (∀ e, e ∈ relations items → e ∈ relations result).
Proof.
  intros Hpre Hr Hm. revert acc.
  induction Hpre as [|x pre Hx Hpre IH]; intros acc; simpl.
  - rewrite Hr, Hm.
    destruct (parse_fields_grows al ty rest acc) as (es & rs & -> & ->).
    destruct (parse_loop_grows al post
                (Extraction (entities acc ++ es) (relations acc ++ rs)))
      as (es' & rs' & ->). simpl.
    split; intros e He; rewrite !elem_of_app; auto.
  - rewrite Hx.
    destruct (Regex.re_match record_pattern (PyStr.strip x))
      as [[|? [|? [|? ?]]]|]; apply IH.
Qed.

(** C2 (amended). For every input string, parsing stops at the first
    record that, once stripped, is empty or contains the completion
    delimiter; every other record that fails the shape match is skipped
    without error, and a well-formed record that comes before the first
    stopping record leaves its items in the returned lists, also when
    non-matching records precede it. *)
Theorem parse_truncates_and_skips raw allowed pre r post :
  PyStr.split RECORD_DELIM raw = pre ++ r :: post →
  let al := lower_types allowed in
  let result := parse_delimited_output (Some raw) allowed in
  (stops (PyStr.strip r) = true → result = parse_loop al pre no_items)
  ∧ (stops (PyStr.strip r) = false →
     Regex.re_match record_pattern (PyStr.strip r) = None →
     result = parse_loop al (pre ++ post) no_items)
  ∧ (∀ ty rest,
       Forall (fun x => stops (PyStr.strip x) = false) pre →
       stops (PyStr.strip r) = false →
       Regex.re_match record_pattern (PyStr.strip r) = Some [ty; rest] →
       (∀ e, e ∈ entities (parse_fields al ty rest no_items) →
             e ∈ entities result)
       ∧ (∀ e, e ∈ relations (parse_fields al ty rest no_items) →
               e ∈ relations result)).
Proof.
  intros Hsplit al result. subst result al.
  unfold parse_delimited_output. rewrite Hsplit. fold no_items.
  fold (lower_types allowed).
  split; [|split].
  - apply parse_loop_stop.
  - apply parse_loop_skip.
  - intros ty rest Hpre Hr Hm. by apply parse_loop_keeps.
Qed.

Lemma parse_truncates_and_skips_witness :
  let r1 := "not a record" in
  let r2 := relation_text "A" "B" in
  let raw := r1 +:+ RECORD_DELIM +:+ r2 +:+ COMPLETION_DELIM in
  PyStr.split RECORD_DELIM raw = [] ++ r1 :: [r2 +:+ COMPLETION_DELIM]
  ∧ stops (PyStr.strip r1) = false
  ∧ Regex.re_match record_pattern (PyStr.strip r1) = None
  ∧ parse_delimited_output (Some raw) ["person"]
    = parse_loop (lower_types ["person"])
        ([] ++ [r2 +:+ COMPLETION_DELIM]) no_items.
Proof.
  cbv zeta.
  assert (PyStr.split RECORD_DELIM
            ("not a record" +:+ RECORD_DELIM +:+ relation_text "A" "B"
             +:+ COMPLETION_DELIM)
          = [] ++ "not a record"
               :: [relation_text "A" "B" +:+ COMPLETION_DELIM]) as Hs
    by (vm_compute; reflexivity).
  split; [exact Hs|]. split; [vm_compute; reflexivity|].
  split; [vm_compute; reflexivity|].
  apply (parse_truncates_and_skips _ ["person"] _ _ _ Hs);
    vm_compute; reflexivity.
Defined.

(** C2 (the claim as stated fails). Two consecutive record delimiters
    give an empty record; the loop stops there instead of skipping it, so
    the well-formed relationship record after it is not returned,
    although the text holds no completion delimiter. *)
Lemma parse_stops_at_empty_record :
  let r1 := entity_text "X" "person" in
  let r2 := relation_text "A" "B" in
  let raw := r1 +:+ RECORD_DELIM +:+ RECORD_DELIM +:+ r2 in
  PyStr.split RECORD_DELIM raw = [r1; ""; r2]
  ∧ PyStr.contains COMPLETION_DELIM raw = false
  ∧ Regex.re_match record_pattern "" = None
  ∧ parse_delimited_output (Some r2) ["person"]
    = Extraction [] [("a", "b")]
  ∧ parse_delimited_output (Some (r1 +:+ RECORD_DELIM +:+ r2)) ["person"]
    = Extraction [("x", "person")] [("a", "b")]
  ∧ parse_delimited_output (Some raw) ["person"]
    = Extraction [("x", "person")] [].
Proof. vm_compute. repeat split. Qed.

End Parser.

(** * A text that starts with an opening brace decodes to an object *)

Section JsonObject.

Lemma object_members_object scan n s pos pairs v r p :
  Json.object_members scan n s pos pairs = inl (v, r, p) →
  ∃ d, v = Json.JObj d.
Proof.
  revert s pos pairs.
  induction n as [|n IH]; intros s pos pairs; simpl; [done|].
  intros H. repeat case_match; simplify_eq; eauto.
Qed.

Lemma scan_once_brace fuel rest pos v r p :
  Json.scan_once fuel (String "{" rest) pos = inl (v, r, p) →
  ∃ d, v = Json.JObj d.
Proof.
  destruct fuel as [|fuel]; simpl; [done|].
  intros H. repeat case_match; simplify_eq; eauto using object_members_object.
Qed.

(** JSON blanks are Python blanks. *)
Lemma is_ws_isspace c : Json.is_ws c = true → PyStr.isspace c = true.
Proof.
  unfold Json.is_ws. intros H.
  repeat (apply orb_true_iff in H as [H|H]);
    apply bool_decide_eq_true in H; by subst.
Qed.

(** No value starts with a Python blank that is not a JSON blank. *)
Lemma scan_once_blank fuel c rest pos :
  PyStr.isspace c = true →
  ∃ err, Json.scan_once fuel (String c rest) pos = inr err.
Proof.
  intros Hc. destruct fuel as [|fuel]; [by eexists|].
  destruct c as [[] [] [] [] [] [] [] []]; try discriminate Hc;
    by eexists.
Qed.

Lemma rstrip_head c s :
  PyStr.isspace c = false →
  ∃ t, PyStr.rstrip (String c s) = String c t.
Proof. intros Hc. simpl. rewrite Hc. simpl. eauto. Qed.

Lemma skip_ws_scan_object fuel raw pos v r p :
  PyStr.startswith "{" (PyStr.strip raw) = true →
  Json.scan_once fuel (Json.skip_ws raw pos).1 (Json.skip_ws raw pos).2
  = inl (v, r, p) →
  ∃ d, v = Json.JObj d.
Proof.
  unfold PyStr.strip. revert pos.
  induction raw as [|c raw IH]; intros pos; simpl; [done|].
  destruct (Json.is_ws c) eqn:Hws.
  - rewrite (is_ws_isspace c Hws). apply IH.
  - simpl. destruct (PyStr.isspace c) eqn:Hc.
    + intros _ H.
      destruct (scan_once_blank fuel c raw pos Hc) as [err Herr]. congruence.
    + destruct (rstrip_head c raw Hc) as [t ->]. simpl.
      case_bool_decide as Hb; [|done]. subst c.
      intros _. apply scan_once_brace.
Qed.

(** The branch of the two [extract_json_from_ollama] for a decoded value
    that is not an object is never taken. *)
Lemma loads_object raw v :
  PyStr.startswith "{" (PyStr.strip raw) = true →
  Json.loads raw = inl v →
  ∃ d, v = Json.JObj d.
Proof.
  intros Hstart. unfold Json.loads.
  pose proof (skip_ws_scan_object (S (String.length raw)) raw 0) as H.
  destruct (Json.skip_ws raw 0) as [s0 p0]. simpl in H.
  destruct (Json.scan_once _ s0 p0) as [[[v' r] p]|err] eqn:E; [|done].
  destruct (Json.skip_ws r p) as [s2 p2].
  destruct (PyStr.is_empty s2); [|done].
  intros [= <-]. by eapply H.
Qed.

Lemma strip_strip_head raw :
  PyStr.startswith "{" (PyStr.strip raw) = true →
  PyStr.startswith "{" (PyStr.strip (PyStr.strip raw)) = true.
Proof.
  intros H. destruct (PyStr.strip raw) as [|c t] eqn:E; [done|].
  simpl in H. apply andb_true_iff in H as [Hc _].
  apply bool_decide_eq_true in Hc. subst c.
  unfold PyStr.strip. simpl.
  by destruct (PyStr.is_empty (PyStr.rstrip t)).
Qed.

End JsonObject.

(** * Properties of the JSON repair of [ner.py] *)

Section Repair.

(** C4 (the claim as stated fails). The text with the key [a'] between
    double quotes is valid JSON: the first [json.loads] succeeds, the
    repair is never tried (and its pattern does not match the text), and
    the result has the single key [a'], not [a]. *)
Lemma extract_valid_json_unrepaired :
  Json.loads text_key_a_apostrophe
  = inl (Json.JObj [("a'", Json.JInt 1)])
  ∧ Ner.repair text_key_a_apostrophe = text_key_a_apostrophe
  ∧ Ner.extract_json_from_ollama text_key_a_apostrophe
    = Ok (Json.JObj [("a'", Json.JInt 1)])
  ∧ Ner.extract_json_from_ollama text_key_a_apostrophe
    ≠ Ok (Json.JObj [("a", Json.JInt 1)]).
Proof.
  repeat split; try (vm_compute; reflexivity).
  vm_compute. intros [=].
Qed.

(** C4 (amended). The text in which an apostrophe stands in place of the
    closing quote of the key [a] is not valid JSON; the repair rewrites
    it to the text with the key [a] properly closed, which decodes, and
    the result is the object whose single key is [a] with value 1. *)
Theorem extract_repairs_key_closed_by_apostrophe :
  (∃ e, Json.loads text_key_closed_by_apostrophe = inr e)
  ∧ Ner.repair text_key_closed_by_apostrophe = text_key_a
  ∧ Json.loads text_key_a = inl (Json.JObj [("a", Json.JInt 1)])
  ∧ Ner.extract_json_from_ollama text_key_closed_by_apostrophe
    = Ok (Json.JObj [("a", Json.JInt 1)]).
Proof.
  split; [eexists; vm_compute; reflexivity|].
  repeat split; vm_compute; reflexivity.
Qed.

End Repair.

(** * Properties of the global memory *)

Section Memory.

Implicit Types (d other : dict) (k : string) (v : json).

Lemma dict_get_set k k' v d :
  Json.dict_get k (Json.dict_set k' v d)
  = if decide (k = k') then Some v else Json.dict_get k d.
Proof.
  induction d as [|[k0 v0] d IH]; simpl.
  - case_bool_decide; case_decide; congruence.
  - repeat case_bool_decide; simpl; repeat case_bool_decide;
      rewrite ?IH; repeat case_decide; congruence.
Qed.

Lemma dict_get_None k d : Json.dict_get k d = None ↔ k ∉ d.*1.
Proof.
  induction d as [|[k0 v0] d IH]; simpl.
  - split; [intros _; apply not_elem_of_nil|done].
  - rewrite not_elem_of_cons. case_bool_decide; [|tauto].
    split; [done|]. by intros [? _].
Qed.

(** *** Dictionaries with keys of any hashable kind *)

Lemma key_eq_refl (k : json) : PyDict.key_eq k k = true.
Proof. unfold PyDict.key_eq. by apply bool_decide_eq_true. Qed.

Lemma key_eq_str k k' :
  PyDict.key_eq (Json.JStr k) (Json.JStr k') = bool_decide (k = k').
Proof.
  unfold PyDict.key_eq. simpl. apply bool_decide_ext.
  split; [by intros [=]|by intros ->].
Qed.

Lemma get_set (k k' : json) v (m : memory) :
  PyDict.get k (PyDict.set k' v m)
  = if PyDict.key_eq k k' then Some v else PyDict.get k m.
Proof.
  induction m as [|[k0 v0] m IH]; simpl; [done|].
  unfold PyDict.key_eq in *.
  repeat case_bool_decide; simpl; unfold PyDict.key_eq;
    repeat case_bool_decide; rewrite ?IH; repeat case_bool_decide;
    congruence.
Qed.

Lemma update_pairs_snoc (m : memory) pairs (kv : json * json) :
  PyDict.update_pairs m (pairs ++ [kv])
  = PyDict.set kv.1 kv.2 (PyDict.update_pairs m pairs).
Proof. unfold PyDict.update_pairs. by rewrite foldl_app. Qed.

(** A merge is a union with override: the pairs decide, and where they
    say nothing the dictionary does. *)
Lemma get_update_pairs (k : json) (m : memory) pairs :
  PyDict.get k (PyDict.update_pairs m pairs)
  = match PyDict.get k (PyDict.update_pairs [] pairs) with
    | Some x => Some x
    | None => PyDict.get k m
    end.
Proof.
  induction pairs as [|kv pairs IH] using rev_ind; [done|].
  rewrite !update_pairs_snoc, !get_set, IH.
  by destruct (PyDict.key_eq k kv.1).
Qed.

Lemma get_update_pairs_old (k : json) (m : memory) pairs :
  is_Some (PyDict.get k m) →
  is_Some (PyDict.get k (PyDict.update_pairs m pairs)).
Proof.
  rewrite get_update_pairs.
  by destruct (PyDict.get k (PyDict.update_pairs [] pairs)).
Qed.

Lemma get_update_pairs_new (k x : json) (m : memory) pairs :
  (k, x) ∈ pairs →
  is_Some (PyDict.get k (PyDict.update_pairs m pairs)).
Proof.
  induction pairs as [|kv pairs IH] using rev_ind.
  - by intros ?%elem_of_nil.
  - rewrite update_pairs_snoc, get_set. intros [H|H]%elem_of_app.
    + destruct (PyDict.key_eq k kv.1); [done|by apply IH].
    + apply list_elem_of_singleton in H as <-. simpl.
      by rewrite key_eq_refl.
Qed.

(** The items of an object, whose keys are distinct, are the map they
    make. *)
Lemma get_of_dict k d :
  NoDup d.*1 →
  PyDict.get (Json.JStr k) (PyDict.update_pairs [] (Coref.of_dict d))
  = Json.dict_get k d.
Proof.
  induction d as [|[k0 v0] d IH]; [done|].
  intros [Hk0 Hnd]%NoDup_cons. simpl.
  change (PyDict.get (Json.JStr k)
            (PyDict.update_pairs (PyDict.set (Json.JStr k0) v0 [])
               (Coref.of_dict d))
          = if bool_decide (k = k0) then Some v0 else Json.dict_get k d).
  rewrite get_update_pairs. simpl in IH. rewrite IH by done. simpl.
  rewrite key_eq_str.
  case_bool_decide as Hk; [|by destruct (Json.dict_get k d)].
  subst k0. simpl in Hk0. apply dict_get_None in Hk0. by rewrite Hk0.
Qed.

(** *** [dict.update] *)

Lemma merge_seq_pairs (m : memory) items :
  (Coref.merge_seq m items).2
  = PyDict.update_pairs m (Coref.seq_pairs items).
Proof.
  revert m. induction items as [|item items IH]; intros m; simpl; [done|].
  destruct (Coref.item_pair item) as [[k x]|msg]; simpl; [|done].
  apply IH.
Qed.

(** Whether it raises or not, [update] sets the pairs of [pairs_of]. *)
Lemma update_pairs_of (m : memory) v :
  (Coref.update m v).2 = PyDict.update_pairs m (Coref.pairs_of v).
Proof.
  destruct v; simpl; try done; [|apply merge_seq_pairs].
  by destruct (PyStr.chars s).
Qed.

Lemma item_pair_raises item msg :
  Coref.item_pair item = Raise msg → msg = TypeError ∨ msg = ValueError.
Proof.
  unfold Coref.item_pair. intros H.
  repeat case_match; simplify_eq; auto.
Qed.

Lemma merge_seq_raises (m : memory) items msg :
  (Coref.merge_seq m items).1 = Raise msg →
  msg = TypeError ∨ msg = ValueError.
Proof.
  revert m. induction items as [|item items IH]; intros m; simpl; [done|].
  destruct (Coref.item_pair item) as [[k x]|msg'] eqn:E; simpl.
  - apply IH.
  - intros [= ->]. by eapply item_pair_raises.
Qed.

Lemma update_raises (m : memory) v msg :
  (Coref.update m v).1 = Raise msg → msg = TypeError ∨ msg = ValueError.
Proof.
  destruct v; simpl; try (intros [= <-]; auto; fail);
    [|apply merge_seq_raises].
  destruct (PyStr.chars s); simpl; [done|]. intros [= <-]. auto.
Qed.

(** A merge with a decoded value is a union with override. *)
Lemma update_union (m : memory) v :
  distinct_keys v →
  union_with_override m v (Coref.update m v).2.
Proof.
  intros Hv. unfold union_with_override. rewrite update_pairs_of.
  split_and!.
  - intros k. apply get_update_pairs_old.
  - intros k x. apply get_update_pairs_new.
  - intros k x H. by rewrite get_update_pairs, H.
  - intros k H. by rewrite get_update_pairs, H.
  - intros members k x -> H. simpl in *. destruct Hv as [Hnd _].
    by rewrite get_update_pairs, get_of_dict, H.
  - intros members k -> H. simpl in *. destruct Hv as [Hnd _].
    by rewrite get_update_pairs, get_of_dict, H.
Qed.

(** *** The decoder gives no object the same key twice *)

Lemma dict_set_keys k k' v d :
  k' ∈ (Json.dict_set k v d).*1 ↔ k' = k ∨ k' ∈ d.*1.
Proof.
  induction d as [|[k0 v0] d IH]; simpl.
  - rewrite list_elem_of_singleton. split; [auto|].
    by intros [?|?%elem_of_nil].
  - case_bool_decide; simpl; rewrite !elem_of_cons, ?IH; subst; tauto.
Qed.

Lemma dict_set_NoDup k v d : NoDup d.*1 → NoDup (Json.dict_set k v d).*1.
Proof.
  induction d as [|[k0 v0] d IH]; simpl.
  - intros _. apply NoDup_singleton.
  - intros [Hk0 Hnd]%NoDup_cons. case_bool_decide; simpl.
    + subst. by apply NoDup_cons.
    + apply NoDup_cons. split; [|by apply IH].
      rewrite dict_set_keys. simpl in *. intros [?|?]; [congruence|done].
Qed.

Lemma dict_set_values k v d (kv : string * json) :
  kv ∈ Json.dict_set k v d → kv = (k, v) ∨ kv ∈ d.
Proof.
  induction d as [|[k0 v0] d IH]; simpl.
  - intros ->%list_elem_of_singleton. auto.
  - case_bool_decide; rewrite !elem_of_cons; [tauto|].
    intros [?|?%IH]; tauto.
Qed.

Lemma distinct_keys_members (members : dict) :
  fold_right (fun kv rest => distinct_keys kv.2 ∧ rest) True members
  ↔ ∀ kv, kv ∈ members → distinct_keys kv.2.
Proof.
  induction members as [|kv members IH]; simpl.
  - split; [by intros _ ? ?%elem_of_nil|done].
  - rewrite IH. split.
    + intros [H1 H2] kv' [->|?]%elem_of_cons; auto.
    + intros H. split; [apply H; left|intros kv' ?; apply H; by right].
Qed.

Lemma distinct_keys_items (items : list json) :
  fold_right (fun item rest => distinct_keys item ∧ rest) True items
  ↔ ∀ item, item ∈ items → distinct_keys item.
Proof.
  induction items as [|x items IH]; simpl.
  - split; [by intros _ ? ?%elem_of_nil|done].
  - rewrite IH. split.
    + intros [H1 H2] y [->|?]%elem_of_cons; auto.
    + intros H. split; [apply H; left|intros y ?; apply H; by right].
Qed.

Lemma dict_of_pairs_distinct pairs :
  (∀ kv, kv ∈ pairs → distinct_keys kv.2) →
  distinct_keys (Json.JObj (Json.dict_of_pairs pairs)).
Proof.
  unfold Json.dict_of_pairs.
  assert (∀ d, distinct_keys (Json.JObj d) →
               (∀ kv, kv ∈ pairs → distinct_keys kv.2) →
               distinct_keys
                 (Json.JObj (foldl (fun d kv => Json.dict_set kv.1 kv.2 d)
                               d pairs))) as H.
  { induction pairs as [|[k v] pairs IH]; intros d Hd Hp; [done|].
    simpl. apply IH.
    - simpl in Hd |- *. destruct Hd as [Hnd Hvals].
      split; [by apply dict_set_NoDup|].
      apply distinct_keys_members. intros kv [->|Hin]%dict_set_values.
      + apply (Hp (k, v)). left.
      + by apply distinct_keys_members with (kv := kv) in Hvals.
    - intros kv ?. apply Hp. by right. }
  apply H. simpl. split; [apply NoDup_nil_2|done].
Qed.

Lemma object_members_distinct scan n s pos pairs v r p :
  (∀ s pos v r p, scan s pos = inl (v, r, p) → distinct_keys v) →
  (∀ kv, kv ∈ pairs → distinct_keys kv.2) →
  Json.object_members scan n s pos pairs = inl (v, r, p) →
  distinct_keys v.
Proof.
  intros Hscan. revert s pos pairs.
  induction n as [|n IH]; intros s pos pairs Hp; simpl; [done|].
  intros H. repeat case_match; simplify_eq.
  all: first [apply dict_of_pairs_distinct | eapply IH; [|eassumption]];
    intros kv [?| ->%list_elem_of_singleton]%elem_of_app; [auto|];
    simpl; eauto.
Qed.

Lemma array_items_distinct scan n s pos values v r p :
  (∀ s pos v r p, scan s pos = inl (v, r, p) → distinct_keys v) →
  (∀ item, item ∈ values → distinct_keys item) →
  Json.array_items scan n s pos values = inl (v, r, p) →
  distinct_keys v.
Proof.
  intros Hscan. revert s pos values.
  induction n as [|n IH]; intros s pos values Hp; simpl; [done|].
  intros H. repeat case_match; simplify_eq.
  all: first [simpl; apply distinct_keys_items | eapply IH; [|eassumption]];
    intros item [?| ->%list_elem_of_singleton]%elem_of_app; eauto.
Qed.

Lemma literal_distinct word x s pos v r p :
  distinct_keys x →
  Json.literal word x s pos = Some (v, r, p) → distinct_keys v.
Proof.
  unfold Json.literal. intros Hx. case_match; [|done]. by intros [= <- _ _].
Qed.

Lemma scan_number_distinct s pos v r p :
  Json.scan_number s pos = Some (v, r, p) → distinct_keys v.
Proof.
  unfold Json.scan_number. intros H.
  repeat case_match; simplify_eq; done.
Qed.

Lemma scan_atom_distinct s pos v r p :
  Json.scan_atom s pos = inl (v, r, p) → distinct_keys v.
Proof.
  unfold Json.scan_atom, Regex.first_of.
  intros H. repeat case_match; simplify_eq;
    eauto using scan_number_distinct, literal_distinct.
  all: eapply literal_distinct; [|done]; done.
Qed.

Lemma scan_once_distinct fuel s pos v r p :
  Json.scan_once fuel s pos = inl (v, r, p) → distinct_keys v.
Proof.
  revert s pos v r p.
  induction fuel as [|fuel IH]; intros s pos v r p; simpl; [done|].
  intros H. repeat case_match; simplify_eq; try done.
  - simpl. split; [apply NoDup_nil_2|done].
  - eapply object_members_distinct; [apply IH| |done].
    by intros ? ?%elem_of_nil.
  - eapply array_items_distinct; [apply IH| |done].
    by intros ? ?%elem_of_nil.
  - by eapply scan_atom_distinct.
Qed.

Lemma loads_distinct s v : Json.loads s = inl v → distinct_keys v.
Proof.
  unfold Json.loads. intros H. repeat case_match; simplify_eq.
  by eapply scan_once_distinct.
Qed.

Lemma distinct_keys_get k d x :
  distinct_keys (Json.JObj d) → Json.dict_get k d = Some x →
  distinct_keys x.
Proof.
  simpl. intros [_ Hv]. rewrite distinct_keys_members in Hv.
  induction d as [|[k0 v0] d IH]; simpl; [done|].
  case_bool_decide.
  - intros [= <-]. apply (Hv (k0, v0)). left.
  - apply IH. intros kv ?. apply Hv. by right.
Qed.

End Memory.

(** * Properties of the retry loops *)

Section Retry.

Context {W : Type}.
Variable post : W → string → nat → post_result * W.
Variable dumps : pyvalue → string.

Implicit Types (st : @state W) (evs : list attempt).

(** A call changes the service and records one attempt, nothing else. *)
Lemma try_call_state {A} inference (after : string → result A) prompt
    timeout st :
  let r := try_call post inference after prompt timeout st in
  resolved_entities r.2 = resolved_entities st
  ∧ aux_descriptions r.2 = aux_descriptions st
  ∧ files r.2 = files st
  ∧ ∃ ans,
      attempts r.2
      = attempts st ++ [Attempt prompt timeout ans (failure_of r.1)]
      ∧ (ans, svc r.2) = post (svc st) prompt timeout
      ∧ r.1 = (text ← inference ans; after text).
Proof.
  unfold try_call. destruct (post (svc st) prompt timeout) as [p w].
  simpl. eauto 10.
Qed.

Lemma escalation_ok_count n evs fired :
  (length evs ≤ n)%nat →
  escalation_ok fired evs = true →
  (count_extended evs ≤ (if fired then 0 else 1))%nat.
Proof.
  revert evs fired. induction n as [|n IH]; intros [|a evs] fired Hlen;
    simpl in Hlen; try lia; try (by destruct fired; unfold count_extended; simpl; lia).
  simpl. destruct (extended a) eqn:Ea; [done|].
  assert (count_extended (a :: evs) = count_extended evs) as ->.
  { unfold count_extended. rewrite filter_cons. rewrite Ea.
    by rewrite decide_False. }
  assert (∀ d, escalation_ok d evs = true →
               (count_extended evs ≤ (if d then 0 else 1))%nat) as IH1.
  { intros d. apply IH. lia. }
  destruct (at_failure a) as [msg|]; [|by apply IH1].
  destruct (timed_out msg && negb fired) eqn:Et; [|by apply IH1].
  destruct evs as [|b evs]; [done|].
  intros [Eb Hok]%andb_true_iff.
  apply andb_true_iff in Et as [_ Hd]. destruct fired; [done|].
  unfold count_extended. rewrite filter_cons, Eb.
  rewrite decide_True by done. simpl.
  apply (IH evs true) in Hok; [|simpl in Hlen; lia].
  unfold count_extended in Hok. lia.
Qed.

(** *** The loop of [process_chunks] *)

Lemma count_extended_cons a evs :
  count_extended (a :: evs)
  = (if extended a then 1 else 0) + count_extended evs.
Proof.
  unfold count_extended. rewrite filter_cons.
  destruct (extended a); case_decide; simpl; congruence.
Qed.

Lemma retry_loop_spec fuel prompt max_retries attempt fired last st :
  let r := retry_loop post fuel prompt max_retries attempt fired last st in
  resolved_entities r.2 = resolved_entities st
  ∧ aux_descriptions r.2 = aux_descriptions st
  ∧ files r.2 = files st
  ∧ (∃ evs, attempts r.2 = attempts st ++ evs
            ∧ escalation_ok fired evs = true
            ∧ Forall (fun a => at_prompt a = prompt) evs
            ∧ (length evs ≤ max_retries - attempt + count_extended evs)%nat)
  ∧ ((max_retries - attempt ≤ fuel)%nat → r.1 ≠ OutOfFuel).
Proof.
  revert attempt fired last st.
  induction fuel as [|fuel IH]; intros attempt fired last st; simpl;
    (destruct (Nat.ltb_spec attempt max_retries) as [Hlt|Hge]; simpl;
     [|split_and!; try done; exists []; rewrite app_nil_r; split_and!;
       try done; simpl; lia]).
  { split_and!; try done; [|lia]. exists []. rewrite app_nil_r.
    split_and!; try done; simpl; lia. }
  pose proof (try_call_state inference_strict
                Coref.extract_json_from_ollama prompt 120 st) as H1.
  destruct (try_call post inference_strict Coref.extract_json_from_ollama
              prompt 120 st) as [[parsed|e] st1]; simpl in H1;
    destruct H1 as (Hre1 & Had1 & Hf1 & ans1 & Hat1 & Hans1 & Hout1).
  { simpl. split_and!; try done.
    exists [Attempt prompt 120 ans1 None]. split_and!; try done.
    - by repeat constructor.
    - rewrite count_extended_cons. simpl. lia. }
  destruct (timed_out e && negb fired) eqn:Et.
  - pose proof (try_call_state inference_strict
                  Coref.extract_json_from_ollama prompt 300 st1) as H2.
    destruct (try_call post inference_strict Coref.extract_json_from_ollama
                prompt 300 st1) as [[parsed|e2] st2]; simpl in H2;
      destruct H2 as (Hre2 & Had2 & Hf2 & ans2 & Hat2 & Hans2 & Hout2).
    + simpl. split_and!; try congruence; try done.
      exists [Attempt prompt 120 ans1 (Some e); Attempt prompt 300 ans2 None].
      split_and!.
      * rewrite Hat2, Hat1. by rewrite <- app_assoc.
      * simpl. by rewrite Et.
      * by repeat constructor.
      * rewrite !count_extended_cons. simpl. lia.
    + destruct (IH (S (S attempt)) true (Some e2) st2)
        as (Hre & Had & Hf & (evs & Hat & Hok & Hpr & Hlen) & Hfuel).
      split_and!; try congruence.
      * exists (Attempt prompt 120 ans1 (Some e)
                :: Attempt prompt 300 ans2 (Some e2) :: evs).
        split_and!.
        -- rewrite Hat, Hat2, Hat1. by rewrite <- !app_assoc.
        -- simpl. by rewrite Et.
        -- by repeat constructor.
        -- rewrite !count_extended_cons. simpl. lia.
      * intros Hle. apply Hfuel. lia.
  - destruct (IH (S attempt) fired (Some e) st1)
      as (Hre & Had & Hf & (evs & Hat & Hok & Hpr & Hlen) & Hfuel).
    split_and!; try congruence.
    + exists (Attempt prompt 120 ans1 (Some e) :: evs). split_and!.
      * rewrite Hat, Hat1. by rewrite <- !app_assoc.
      * simpl. by rewrite Et.
      * by repeat constructor.
      * rewrite count_extended_cons. simpl. lia.
    + intros Hle. apply Hfuel. lia.
Qed.

(** *** The merge of [process_chunks] *)

(** A loop that succeeds has the dictionary that
    [extract_json_from_ollama] returned for one of the answers. *)
Lemma retry_loop_parsed fuel prompt max_retries attempt fired last st
    parsed st1 :
  retry_loop post fuel prompt max_retries attempt fired last st
  = (Success parsed, st1) →
  ∃ text, Coref.extract_json_from_ollama text = Ok parsed.
Proof.
  revert attempt fired last st.
  induction fuel as [|fuel IH]; intros attempt fired last st; simpl;
    (destruct (attempt <? max_retries)%nat; [|done]); [done|].
  pose proof (try_call_state inference_strict
                Coref.extract_json_from_ollama prompt 120 st) as H1.
  destruct (try_call post inference_strict Coref.extract_json_from_ollama
              prompt 120 st) as [[parsed1|e] st2]; simpl in H1;
    destruct H1 as (_ & _ & _ & ans1 & _ & _ & Hout1).
  { intros [= <- <-]. destruct (inference_strict ans1) as [text|];
      [|done]. by exists text. }
  destruct (timed_out e && negb fired); [|apply IH].
  pose proof (try_call_state inference_strict
                Coref.extract_json_from_ollama prompt 300 st2) as H2.
  destruct (try_call post inference_strict Coref.extract_json_from_ollama
              prompt 300 st2) as [[parsed2|e2] st3]; simpl in H2;
    destruct H2 as (_ & _ & _ & ans2 & _ & _ & Hout2); [|apply IH].
  intros [= <- <-]. destruct (inference_strict ans2) as [text|]; [|done].
  by exists text.
Qed.

(** What [extract_json_from_ollama] returns is a decoded object with
    the two entries. *)
Lemma coref_extract_parsed text parsed :
  Coref.extract_json_from_ollama text = Ok parsed →
  Json.loads (PyStr.strip text) = inl (Json.JObj parsed)
  ∧ is_Some (Json.dict_get "RESOLVED_ENTITIES" parsed)
  ∧ is_Some (Json.dict_get "AUXILIARY_DESCRIPTIONS" parsed).
Proof.
  unfold Coref.extract_json_from_ollama.
  destruct (negb (PyStr.startswith "{" (PyStr.strip text))); [done|].
  destruct (Json.loads (PyStr.strip text)) as [v|err]; [|done].
  destruct v as [| | | | | |members]; try done.
  destruct (negb (Coref.has_key "RESOLVED_ENTITIES" members)
            || negb (Coref.has_key "AUXILIARY_DESCRIPTIONS" members))
    eqn:E; [done|].
  intros [= <-]. apply orb_false_iff in E as [E1 E2].
  apply negb_false_iff, bool_decide_eq_true in E1, E2. done.
Qed.

(** What a chunk that succeeds does to the state. *)
Lemma process_chunk_ok template out max_retries verification c st st' :
  process_chunk post dumps template out max_retries verification c st
  = (Ok (), st') →
  ∃ parsed st1 R A,
    retry_loop post (Nat.max 1 max_retries)
      (coref_prompt dumps template (resolved_entities st)
         (aux_descriptions st) c)
      (Nat.max 1 max_retries) 0 false None st = (Success parsed, st1)
    ∧ Json.dict_get "RESOLVED_ENTITIES" parsed = Some R
    ∧ Json.dict_get "AUXILIARY_DESCRIPTIONS" parsed = Some A
    ∧ distinct_keys R ∧ distinct_keys A
    ∧ Coref.update (resolved_entities st) R = (Ok (), resolved_entities st')
    ∧ Coref.update (aux_descriptions st) A = (Ok (), aux_descriptions st')
    ∧ attempts st' = attempts st1.
Proof.
  unfold process_chunk.
  pose proof (retry_loop_spec (Nat.max 1 max_retries)
                (coref_prompt dumps template (resolved_entities st)
                   (aux_descriptions st) c)
                (Nat.max 1 max_retries) 0 false None st) as Hl.
  destruct (retry_loop _ _ _ _ _ _ _ _) as [[parsed|n e|] st1] eqn:El;
    simpl in Hl; [|done..].
  destruct Hl as (Hre & Had & _).
  apply retry_loop_parsed in El as Hp. destruct Hp as [text Hp].
  apply coref_extract_parsed in Hp as (Hloads & [R HR] & [A HA]).
  apply loads_distinct in Hloads.
  rewrite HR, HA, Hre. simpl.
  destruct (Coref.update (resolved_entities st) R) as [[[]|msg] re] eqn:E1;
    [|done].
  simpl. rewrite Had.
  destruct (Coref.update (aux_descriptions st) A) as [[[]|msg] ad] eqn:E2;
    [|done].
  intros [= <-]. simpl.
  exists parsed, st1, R, A.
  split_and!; eauto using distinct_keys_get.
Qed.

(** No key is lost, whether the chunk succeeds or raises. *)
Lemma process_chunk_grows template out max_retries verification c st :
  let r := process_chunk post dumps template out max_retries verification
             c st in
  ∀ k : json,
    (is_Some (PyDict.get k (resolved_entities st)) →
     is_Some (PyDict.get k (resolved_entities r.2)))
    ∧ (is_Some (PyDict.get k (aux_descriptions st)) →
       is_Some (PyDict.get k (aux_descriptions r.2))).
Proof.
  unfold process_chunk.
  pose proof (retry_loop_spec (Nat.max 1 max_retries)
                (coref_prompt dumps template (resolved_entities st)
                   (aux_descriptions st) c)
                (Nat.max 1 max_retries) 0 false None st) as Hl.
  destruct (retry_loop _ _ _ _ _ _ _ _) as [[parsed|n e|] st1];
    simpl in Hl; destruct Hl as (Hre & Had & _); simpl;
    [|rewrite Hre, Had; done..].
  intros k.
  pose proof (update_pairs_of (resolved_entities st1)
                (default (Json.JObj [])
                   (Json.dict_get "RESOLVED_ENTITIES" parsed))) as E1.
  destruct (Coref.update (resolved_entities st1) _) as [u1 re].
  simpl in E1. subst re.
  assert (is_Some (PyDict.get k (resolved_entities st)) →
          is_Some (PyDict.get k
                     (PyDict.update_pairs (resolved_entities st1)
                        (Coref.pairs_of
                           (default (Json.JObj [])
                              (Json.dict_get "RESOLVED_ENTITIES" parsed))))))
    as H1.
  { rewrite Hre. apply get_update_pairs_old. }
  destruct u1 as [[]|msg]; simpl; [|by rewrite Had].
  pose proof (update_pairs_of (aux_descriptions st1)
                (default (Json.JObj [])
                   (Json.dict_get "AUXILIARY_DESCRIPTIONS" parsed))) as E2.
  destruct (Coref.update (aux_descriptions st1) _) as [u2 ad].
  simpl in E2. subst ad.
  assert (is_Some (PyDict.get k (aux_descriptions st)) →
          is_Some (PyDict.get k
                     (PyDict.update_pairs (aux_descriptions st1)
                        (Coref.pairs_of
                           (default (Json.JObj [])
                              (Json.dict_get "AUXILIARY_DESCRIPTIONS"
                                 parsed))))))
    as H2.
  { rewrite Had. apply get_update_pairs_old. }
  by destruct u2 as [[]|msg].
Qed.

Lemma process_chunk_files_grows template out max_retries verification
    chunk_files st :
  let r := process_chunk_files post dumps template out max_retries
             verification chunk_files st in
  ∀ k : json,
    (is_Some (PyDict.get k (resolved_entities st)) →
     is_Some (PyDict.get k (resolved_entities r.2)))
    ∧ (is_Some (PyDict.get k (aux_descriptions st)) →
       is_Some (PyDict.get k (aux_descriptions r.2))).
Proof.
  revert st. induction chunk_files as [|c rest IH]; intros st; simpl; [done|].
  destruct (PyStr.endswith ".txt" (fname c)); simpl; [|apply IH].
  pose proof (process_chunk_grows template out max_retries verification c st)
    as Hc.
  destruct (process_chunk _ _ _ _ _ _ _ _) as [[[]|msg] st1]; simpl in *;
    [|done].
  intros k. destruct (Hc k) as [Hc1 Hc2].
  destruct (IH st1 k) as [IH1 IH2]. split; auto.
Qed.

Lemma process_chunks_grows template base max_retries verification
    chunk_files st :
  let r := process_chunks post dumps template base max_retries verification
             chunk_files st in
  ∀ k : json,
    (is_Some (PyDict.get k (resolved_entities st)) →
     is_Some (PyDict.get k (resolved_entities r.2)))
    ∧ (is_Some (PyDict.get k (aux_descriptions st)) →
       is_Some (PyDict.get k (aux_descriptions r.2))).
Proof.
  unfold process_chunks.
  pose proof (process_chunk_files_grows template (base +:+ "/coref_outputs")
                max_retries verification chunk_files st) as H.
  by destruct (process_chunk_files _ _ _ _ _ _ _ _) as [[[]|msg] st1].
Qed.

(** C6. The global memory is changed only by the merge of a chunk that
    succeeded, a union with override.  The two values merged are the
    entries RESOLVED_ENTITIES and AUXILIARY_DESCRIPTIONS of the decoded
    answer, whatever [dict.update] accepts: an object, or a list of
    pairs.  Each dictionary becomes itself with the pairs of the value
    set one after the other, so every key it had is still there, every
    key of the response is there, a key of the response has the value of
    the response (for an object: the value of that key in the object),
    and any other key keeps its value; hence over a pass, also one that
    raises, no key of either dictionary is lost. *)
Theorem memory_merge_union_override template out base max_retries
    verification c st st' chunk_files st0 :
  (process_chunk post dumps template out max_retries verification c st
   = (Ok (), st') →
   ∃ parsed R A,
     (retry_loop post (Nat.max 1 max_retries)
        (coref_prompt dumps template (resolved_entities st)
           (aux_descriptions st) c)
        (Nat.max 1 max_retries) 0 false None st).1 = Success parsed
     ∧ Json.dict_get "RESOLVED_ENTITIES" parsed = Some R
     ∧ Json.dict_get "AUXILIARY_DESCRIPTIONS" parsed = Some A
     ∧ resolved_entities st'
       = PyDict.update_pairs (resolved_entities st) (Coref.pairs_of R)
     ∧ aux_descriptions st'
       = PyDict.update_pairs (aux_descriptions st) (Coref.pairs_of A)
     ∧ union_with_override (resolved_entities st) R (resolved_entities st')
     ∧ union_with_override (aux_descriptions st) A (aux_descriptions st'))
  ∧ (let r := process_chunks post dumps template base max_retries
                verification chunk_files st0 in
     ∀ k : json,
       (is_Some (PyDict.get k (resolved_entities st0)) →
        is_Some (PyDict.get k (resolved_entities r.2)))
       ∧ (is_Some (PyDict.get k (aux_descriptions st0)) →
          is_Some (PyDict.get k (aux_descriptions r.2)))).
Proof.
  split; [|apply process_chunks_grows].
  intros (parsed & st1 & R & A & Hl & HR & HA & HdR & HdA & Hre & Had & _)
    %process_chunk_ok.
  exists parsed, R, A. rewrite Hl.
  pose proof (update_pairs_of (resolved_entities st) R) as E1.
  pose proof (update_pairs_of (aux_descriptions st) A) as E2.
  pose proof (update_union (resolved_entities st) R HdR) as U1.
  pose proof (update_union (aux_descriptions st) A HdA) as U2.
  rewrite Hre in E1, U1. rewrite Had in E2, U2. done.
Qed.

(** The attempts of one chunk in one pass of [process_chunks]. *)
Lemma process_chunk_attempts template out max_retries verification c st :
  let r := process_chunk post dumps template out max_retries verification
             c st in
  (∃ evs, attempts r.2 = attempts st ++ evs
          ∧ escalation_ok false evs = true
          ∧ (length evs ≤ Nat.max 1 max_retries + count_extended evs)%nat)
  ∧ r.1 ≠ Raise "out of fuel".
Proof.
  unfold process_chunk.
  pose proof (retry_loop_spec (Nat.max 1 max_retries)
                (coref_prompt dumps template (resolved_entities st)
                   (aux_descriptions st) c)
                (Nat.max 1 max_retries) 0 false None st) as Hl.
  destruct (retry_loop _ _ _ _ _ _ _ _) as [[parsed|n e|] st1];
    simpl in Hl;
    destruct Hl as (_ & _ & _ & (evs & Hat & Hok & _ & Hlen) & Hfuel);
    rewrite Nat.sub_0_r in Hlen.
  - pose proof (update_raises (resolved_entities st1)
                  (default (Json.JObj [])
                     (Json.dict_get "RESOLVED_ENTITIES" parsed))) as E1.
    destruct (Coref.update (resolved_entities st1) _) as [[[]|msg1] re];
      simpl in E1 |- *.
    + pose proof (update_raises (aux_descriptions st1)
                    (default (Json.JObj [])
                       (Json.dict_get "AUXILIARY_DESCRIPTIONS" parsed)))
        as E2.
      destruct (Coref.update (aux_descriptions st1) _) as [[[]|msg2] ad];
        simpl in E2 |- *.
      * split; [by exists evs|done].
      * split; [by exists evs|].
        by destruct (E2 msg2 eq_refl) as [-> | ->].
    + split; [by exists evs|].
      by destruct (E1 msg1 eq_refl) as [-> | ->].
  - split; [by exists evs|]. simpl. by intros [=].
  - exfalso. apply Hfuel; [lia|done].
Qed.

(** *** The loop of the final resolver *)

Lemma resolve_loop_spec template name num_retries retries text st :
  let r := resolve_loop post dumps template name num_retries retries text st in
  resolved_entities r.2 = resolved_entities st
  ∧ aux_descriptions r.2 = aux_descriptions st
  ∧ (is_Some (failure_of r.1) ∨ files r.2 = files st)
  ∧ ∃ passes : list (list attempt),
      attempts r.2 = attempts st ++ concat passes
      ∧ (length passes ≤ length retries)%nat
      ∧ Forall (fun evs =>
                  escalation_ok false evs = true
                  ∧ (count_extended evs ≤ 1)%nat
                  ∧ Forall (fun a =>
                              at_prompt a
                              = final_prompt dumps template
                                  (resolved_entities st)
                                  (aux_descriptions st) text) evs) passes.
Proof.
  revert st. induction retries as [|retry retries IH]; intros st; simpl.
  { split_and!; try done; [by right|]. exists []. simpl.
    rewrite app_nil_r. split_and!; first [done|lia|constructor]. }
  set (prompt := final_prompt dumps template (resolved_entities st)
                   (aux_descriptions st) text).
  pose proof (try_call_state inference_strict Ok prompt 120 st) as H1.
  destruct (try_call post inference_strict Ok prompt 120 st)
    as [[t|e] st1]; simpl in H1; destruct H1 as (Hre1 & Had1 & Hf1 & ans1 & Hat1 & Hans1 & Hout1).
  { simpl. split_and!; try done; [by right|].
    exists [[Attempt prompt 120 ans1 None]]. simpl.
    split_and!; [done|lia|]. by repeat constructor. }
  assert (∀ st2 evs,
            resolved_entities st2 = resolved_entities st →
            aux_descriptions st2 = aux_descriptions st →
            files st2 = files st →
            attempts st2 = attempts st ++ evs →
            escalation_ok false evs = true →
            (count_extended evs ≤ 1)%nat →
            Forall (fun a => at_prompt a = prompt) evs →
            let r := if bool_decide (retry = num_retries - 1)
                     then (Raise e,
                           write_file ("debug_failed_prompt_" +:+ name
                                       +:+ ".txt") prompt st2)
                     else resolve_loop post dumps template name num_retries
                            retries text st2 in
            resolved_entities r.2 = resolved_entities st
            ∧ aux_descriptions r.2 = aux_descriptions st
            ∧ (is_Some (failure_of r.1) ∨ files r.2 = files st)
            ∧ ∃ passes : list (list attempt),
                attempts r.2 = attempts st ++ concat passes
                ∧ (length passes ≤ S (length retries))%nat
                ∧ Forall (fun evs =>
                            escalation_ok false evs = true
                            ∧ (count_extended evs ≤ 1)%nat
                            ∧ Forall (fun a => at_prompt a = prompt) evs)
                         passes) as Hrest.
  { intros st2 evs Hre2 Had2 Hf2 Hat2 Hok Hcount Hpr.
    case_bool_decide; simpl.
    - split_and!; try done; [left; eauto|].
      exists [evs]. simpl. rewrite app_nil_r.
      split_and!; [done|lia|]. by constructor; [|constructor].
    - destruct (IH st2) as (Hre & Had & Hf & (passes & Hat & Hlen & Hall)).
      rewrite Hre2, Had2 in Hall. fold prompt in Hall.
      split_and!; try congruence;
        try (destruct Hf as [?|Hf]; [by left|right; congruence]).
      exists (evs :: passes). simpl. split_and!.
      + rewrite Hat, Hat2. by rewrite <- app_assoc.
      + lia.
      + by constructor. }
  destruct (timed_out e) eqn:Et.
  - pose proof (try_call_state inference_strict Ok prompt 300 st1) as H2.
    destruct (try_call post inference_strict Ok prompt 300 st1)
      as [[t|e2] st2]; simpl in H2;
      destruct H2 as (Hre2 & Had2 & Hf2 & ans2 & Hat2 & Hans2 & Hout2).
    + simpl. split_and!; try congruence; [right; congruence|].
      exists [[Attempt prompt 120 ans1 (Some e); Attempt prompt 300 ans2 None]]. simpl.
      split_and!; [|lia|].
      * rewrite Hat2, Hat1. by rewrite <- app_assoc.
      * constructor; [|constructor]. split_and!.
        -- simpl. by rewrite Et.
        -- unfold count_extended. simpl. lia.
        -- by repeat constructor.
    + apply (Hrest st2 [Attempt prompt 120 ans1 (Some e);
                        Attempt prompt 300 ans2 (Some e2)]); try congruence.
      * rewrite Hat2, Hat1. by rewrite <- app_assoc.
      * simpl. by rewrite Et.
      * unfold count_extended. simpl. lia.
      * by repeat constructor.
  - apply (Hrest st1 [Attempt prompt 120 ans1 (Some e)]); try done.
    + simpl. by rewrite Et.
    + unfold count_extended. simpl. lia.
    + by repeat constructor.
Qed.

(** C7. For every chunk in every pass the extended-timeout retry (300 s)
    is made at most once, right after the first attempt that failed with a
    timeout-classified message; every other failure is followed by a
    normal attempt or ends the loop, and a chunk of [process_chunks] gets
    at most [max(1, max_retries)] normal attempts.  In [process_chunks] a
    pass is one call of the function and the attempts are those of the
    [while] loop of the chunk, which always ends; in the final resolver the
    passes of a chunk are the turns of its loop over
    [range(num_retries)]. *)
Theorem extended_timeout_once_per_pass template out resolved_dir max_retries
    verification c num_retries chunk_fname text st :
  (let r := process_chunk post dumps template out max_retries verification
              c st in
   r.1 ≠ Raise "out of fuel"
   ∧ ∃ evs, attempts r.2 = attempts st ++ evs
            ∧ escalation_ok false evs = true
            ∧ (count_extended evs ≤ 1)%nat
            ∧ (length evs ≤ Nat.max 1 max_retries + count_extended evs)%nat)
  ∧ (let r := resolve_chunk post dumps template resolved_dir num_retries
                chunk_fname text st in
     ∃ passes : list (list attempt),
       attempts r.2 = attempts st ++ concat passes
       ∧ (length passes ≤ num_retries)%nat
       ∧ Forall (fun evs => escalation_ok false evs = true
                            ∧ (count_extended evs ≤ 1)%nat) passes).
Proof.
  split.
  - destruct (process_chunk_attempts template out max_retries verification
                c st) as ((evs & Hat & Hok & Hlen) & Hfuel).
    split; [done|]. exists evs. split_and!; try done.
    by apply (escalation_ok_count (length evs) evs false).
  - unfold resolve_chunk.
    destruct (resolve_loop_spec template (chunk_name_of chunk_fname)
                num_retries (seq 0 num_retries) text st)
      as (_ & _ & _ & (passes & Hat & Hlen & Hall)).
    rewrite length_seq in Hlen.
    exists passes. split_and!; try done.
    + by destruct (resolve_loop _ _ _ _ _ _ _ _) as [[t|msg] st1].
    + eapply Forall_impl; [exact Hall|]. by intros evs (? & ? & _).
Qed.

(** Every call made for a chunk by the final resolver sends the prompt
    built from the text of the chunk file: no call is made on a text that
    the service returned. *)
Lemma resolve_chunk_prompts template resolved_dir num_retries chunk_fname
    text st :
  let r := resolve_chunk post dumps template resolved_dir num_retries
             chunk_fname text st in
  ∃ evs, attempts r.2 = attempts st ++ evs
         ∧ Forall (fun a => at_prompt a
                            = final_prompt dumps template
                                (resolved_entities st)
                                (aux_descriptions st) text) evs.
Proof.
  unfold resolve_chunk.
  destruct (resolve_loop_spec template (chunk_name_of chunk_fname)
              num_retries (seq 0 num_retries) text st)
    as (_ & _ & _ & (passes & Hat & _ & Hall)).
  exists (concat passes). split.
  - by destruct (resolve_loop _ _ _ _ _ _ _ _) as [[t|msg] st1].
  - apply Forall_concat. eapply Forall_impl; [exact Hall|].
    by intros evs (_ & _ & ?).
Qed.

(** The first answer of the service ends the loop of a chunk, whatever the
    number of passes configured. *)
Lemma resolve_loop_first_answer template name num_retries retry retries
    text st answer w :
  post (svc st)
    (final_prompt dumps template (resolved_entities st)
       (aux_descriptions st) text) 120
  = (Responded (Some answer), w) →
  let r := resolve_loop post dumps template name num_retries
             (retry :: retries) text st in
  r.1 = Ok answer ∧ svc r.2 = w
  ∧ attempts r.2
    = attempts st
      ++ [Attempt (final_prompt dumps template (resolved_entities st)
                     (aux_descriptions st) text) 120
                  (Responded (Some answer)) None].
Proof.
  intros Hpost. simpl. unfold try_call. rewrite Hpost. done.
Qed.

(** *** The batch extraction driver *)



End Retry.

(** * The properties at concrete inputs *)

Section Examples.

Lemma memory_merge_union_override_witness :
  let st' := (process_chunk scripted dumps_text "T" "out" 3 false
                example_chunk example_state).2 in
  process_chunk scripted dumps_text "T" "out" 3 false example_chunk
    example_state = (Ok (), st')
  ∧ PyDict.get (Json.JStr "Bob") (resolved_entities st')
    = Some (Json.JStr "Robert K.")
  ∧ PyDict.get (Json.JStr "he") (resolved_entities st')
    = Some (Json.JStr "Robert K.")
  ∧ PyDict.get (Json.JStr "Al") (resolved_entities st')
    = Some (Json.JStr "Al Capone")
  ∧ (∀ k : json,
       is_Some (PyDict.get k (resolved_entities example_state)) →
       is_Some (PyDict.get k (resolved_entities st'))).
Proof.
  cbv zeta.
  assert (process_chunk scripted dumps_text "T" "out" 3 false example_chunk
            example_state
          = (Ok (), (process_chunk scripted dumps_text "T" "out" 3 false
                       example_chunk example_state).2)) as Hrun
    by (vm_compute; reflexivity).
  split; [exact Hrun|].
  destruct (memory_merge_union_override scripted dumps_text "T" "out" "base"
              3 false example_chunk example_state
              (process_chunk scripted dumps_text "T" "out" 3 false
                 example_chunk example_state).2 [] example_state)
    as [Hmerge _].
  destruct (Hmerge Hrun)
    as (parsed & R & A & Hl & HR & HA & Hre & Had & Hunion & _).
  vm_compute in Hl. injection Hl as <-.
  vm_compute in HR. injection HR as <-.
  destruct Hunion as (Hkept & _ & _ & _ & Hnew & Hold).
  split; [by eapply Hnew|]. split; [by eapply Hnew|].
  split; [|exact Hkept].
  by erewrite Hold.
Defined.

(** The merge takes a list of pairs as it takes an object: the chunk
    succeeds, [Bob] has the value of the answer, [h] is new with the
    value [e], and [Al] is as before. *)
Lemma coref_merges_list_of_pairs :
  let r := process_chunk scripted dumps_text "T" "out" 3 false example_chunk
             example_list_state in
  r.1 = Ok ()
  ∧ resolved_entities r.2
    = [(Json.JStr "Bob", Json.JStr "Robert K.");
       (Json.JStr "Al", Json.JStr "Al Capone");
       (Json.JStr "h", Json.JStr "e")]
  ∧ aux_descriptions r.2 = [].
Proof. vm_compute. done. Qed.

(** A merge that raises keeps the pairs set before: the chunk fails
    with a [TypeError], no output is written, and [Bob] has the value of
    the answer. *)
Lemma coref_merge_raises_midway :
  let r := process_chunk scripted dumps_text "T" "out" 3 false example_chunk
             example_bad_state in
  r.1 = Raise TypeError
  ∧ resolved_entities r.2
    = [(Json.JStr "Bob", Json.JStr "Robert K.");
       (Json.JStr "Al", Json.JStr "Al Capone")]
  ∧ files r.2 = [].
Proof. vm_compute. done. Qed.

(** C3 (the claim fails on the code). With two passes configured and a
    service that answers every call, the final resolver calls the service
    once for the chunk, on the text of the chunk file, and writes out the
    first answer: the [break] after a successful call leaves the loop, so
    no second pass is made on the text that the first pass returned, and
    the second answer of the service is never asked for. *)
Theorem final_resolver_stops_after_first_answer :
  let script := [Responded (Some "first rewrite");
                 Responded (Some "second rewrite")] in
  let r := resolve_chunk scripted dumps_text "T" "out" 2 "c1.txt" "original"
             (initial_state script) in
  r.1 = Ok ()
  ∧ attempts r.2
    = [Attempt (final_prompt dumps_text "T" [] [] "original") 120
         (Responded (Some "first rewrite")) None]
  ∧ files r.2 = [("out/c1_resolved.txt", "first rewrite")]
  ∧ svc r.2 = [Responded (Some "second rewrite")].
Proof. vm_compute. done. Qed.

(** In the final resolver the extended retry is made once in each pass:
    with two passes and a service that keeps timing out, the chunk sees
    two extended retries, one per pass. *)
Lemma final_resolver_escalates_in_each_pass :
  let script := [TimedOut; TimedOut; TimedOut; Responded (Some "ok")] in
  let r := resolve_chunk scripted dumps_text "T" "out" 2 "c1.txt" "original"
             (initial_state script) in
  r.1 = Ok ()
  ∧ at_timeout <$> attempts r.2 = [120; 300; 120; 300]
  ∧ count_extended (attempts r.2) = 2.
Proof. vm_compute. done. Qed.

(** In [process_chunks] the flag [timeout_retry_done] allows one extended
    retry for the chunk: later timeouts are followed by normal attempts. *)
Lemma coref_escalates_once :
  let st := State [TimedOut; TimedOut; TimedOut; TimedOut] [] [] [] [] in
  let r := process_chunk scripted dumps_text "T" "out" 4 false example_chunk
             st in
  is_Some (failure_of r.1)
  ∧ at_timeout <$> attempts r.2 = [120; 300; 120; 120]
  ∧ count_extended (attempts r.2) = 1.
Proof. vm_compute. split; [eauto|done]. Qed.

(** The driver records the error of the second row and goes on with the
    third. *)
Lemma driver_continues_after_error :
  let script := [Responded (Some "out 1"); HTTPFailed "500" "busy";
                 Responded None] in
  let rows := [Row "person" "t1"; Row "person" "t2"; Row "person" "t3"] in
  (driver_main scripted "P" 300 None rows (initial_state script)).1
  = Ok ["out 1"; "ERROR: HTTP error occurred: 500 - busy"; ""].
Proof. vm_compute. done. Qed.

End Examples.

(** * Further properties of the scorer *)

Section ScorerExtra.

Implicit Types (gold pred unused : list (string * string)) (used : list bool).

Lemma remove_first_Some p unused unused' :
  remove_first p unused = Some unused' → unused ≡ₚ p :: unused'.
Proof.
  revert unused'. induction unused as [|g unused IH]; intros unused'; simpl;
    [done|].
  case_bool_decide as Heq.
  - intros [= <-]. by subst.
  - destruct (remove_first p unused) as [l|]; simpl; [|done].
    intros [= <-]. rewrite (IH l eq_refl). apply Permutation_swap.
Qed.

Lemma remove_first_elem p unused :
  p ∈ unused → is_Some (remove_first p unused).
Proof.
  induction unused as [|g unused IH]; simpl; [by intros ?%elem_of_nil|].
  case_bool_decide as Heq; [eauto|].
  intros [?|Hin]%elem_of_cons; [done|].
  destruct (IH Hin) as [l ->]. simpl. eauto.
Qed.

(** Predictions that all have a gold item of their own are all matched. *)
Lemma greedy_counts_submseteq unused pred acc :
  pred ⊆+ unused →
  greedy_counts unused pred acc
  = Counts (tp acc + length pred) (fp acc)
           (fn acc + (length unused - length pred)).
Proof.
  revert unused acc. induction pred as [|p pred IH]; intros unused acc Hsub;
    simpl.
  - f_equal; lia.
  - assert (p ∈ unused) as Hin.
    { eapply elem_of_submseteq; [|exact Hsub]. by left. }
    destruct (remove_first_elem p unused Hin) as [unused' Hrm].
    rewrite Hrm. apply remove_first_Some in Hrm.
    rewrite IH.
    + rewrite Hrm. simpl. f_equal; lia.
    + rewrite Hrm in Hsub. by apply (submseteq_app_inv_l _ _ [p]).
Qed.

(** X1. Predictions that are, as a multiset, part of the gold entities
    are all true positives: [tp] is the number of predictions, [fp] is 0
    and [fn] the number of gold entities left over, in whatever order the
    two lists come. *)
Theorem score_entities_all_matched gold pred :
  pred ⊆+ gold →
  (score_entities gold pred).1
  = Counts (length pred) 0 (length gold - length pred).
Proof.
  intros Hsub. rewrite score_entities_greedy. unfold greedy_policy.
  by rewrite greedy_counts_submseteq.
Qed.

Lemma score_entities_all_matched_witness :
  [("b", "person"); ("a", "person")]
    ⊆+ [("a", "person"); ("c", "routes"); ("b", "person")]
  ∧ (score_entities [("a", "person"); ("c", "routes"); ("b", "person")]
                    [("b", "person"); ("a", "person")]).1
    = Counts 2 0 1.
Proof.
  assert ([("b", "person"); ("a", "person")]
            ⊆+ [("a", "person"); ("c", "routes"); ("b", "person")]) as H.
  { apply (bool_decide_unpack _). vm_compute. reflexivity. }
  split; [exact H|]. exact (score_entities_all_matched _ _ H).
Defined.

Lemma greedy_counts_disjoint unused pred acc :
  Forall (fun p => p ∉ unused) pred →
  greedy_counts unused pred acc
  = Counts (tp acc) (fp acc + length pred) (fn acc + length unused).
Proof.
  revert acc. induction pred as [|p pred IH]; intros acc Hd; simpl.
  - f_equal; lia.
  - apply Forall_cons in Hd as [Hp Hd].
    rewrite remove_first_not_in by done. rewrite IH by done.
    simpl. f_equal; lia.
Qed.

(** X2. When no predicted entity occurs among the gold entities, every
    prediction is a false positive and every gold entity a false
    negative. *)
Theorem score_entities_none_matched gold pred :
  Forall (fun p => p ∉ gold) pred →
  (score_entities gold pred).1 = Counts 0 (length pred) (length gold).
Proof.
  intros Hd. rewrite score_entities_greedy. unfold greedy_policy.
  by rewrite greedy_counts_disjoint.
Qed.

Lemma score_entities_none_matched_witness :
  Forall (fun p => p ∉ [("a", "person")]) [("a", "location"); ("b", "person")]
  ∧ (score_entities [("a", "person")]
                    [("a", "location"); ("b", "person")]).1
    = Counts 0 2 1.
Proof.
  assert (Forall (fun p => p ∉ [("a", "person")])
                 [("a", "location"); ("b", "person")]) as H.
  { apply (bool_decide_unpack _). vm_compute. reflexivity. }
  split; [exact H|]. exact (score_entities_none_matched _ _ H).
Defined.

End ScorerExtra.

Section RelationExtra.

Implicit Types (gold pred unused : list (string * string)) (used : list bool).

Lemma rel_pred_overall gold (st : list bool * counts) pr :
  let st' := rel_pred gold st pr in
  length st'.1 = length st.1
  ∧ tp st'.2 + fp st'.2 = S (tp st.2 + fp st.2)
  ∧ tp st'.2 + count_false st'.1 = tp st.2 + count_false st.1.
Proof.
  unfold rel_pred. destruct (list_index pr gold) as [m|]; simpl; [|lia].
  destruct (st.1 !! m) as [[]|] eqn:E; simpl; try lia.
  rewrite length_insert. apply count_false_insert in E. lia.
Qed.

Lemma rel_loop_overall gold pred (st : list bool * counts) :
  let st' := foldl (rel_pred gold) st pred in
  length st'.1 = length st.1
  ∧ tp st'.2 + fp st'.2 = tp st.2 + fp st.2 + length pred
  ∧ tp st'.2 + count_false st'.1 = tp st.2 + count_false st.1.
Proof.
  revert st. induction pred as [|pr pred IH]; intros st; simpl; [lia|].
  pose proof (IH (rel_pred gold st pr)) as H1.
  pose proof (rel_pred_overall gold st pr) as H2.
  cbv zeta in H1, H2. lia.
Qed.

(** X3. The relation loop of [main] keeps the two totals although it is
    not the greedy policy: [tp + fp] is the number of predicted relations
    and [tp + fn] the number of gold relations, for all lists. *)
Theorem score_relations_totals gold pred :
  let c := score_relations gold pred in
  tp c + fp c = length pred ∧ tp c + fn c = length gold.
Proof.
  unfold score_relations.
  pose proof (rel_loop_overall gold pred
                (replicate (length gold) false, zero_counts)) as H.
  cbv zeta in H.
  set (st' := foldl (rel_pred gold) _ pred) in *.
  destruct H as (Hl & Ht & Hu).
  cbn [fst snd tp fp fn zero_counts] in *.
  rewrite count_false_replicate in Hu. lia.
Qed.

(** *** The pair lists of the detailed report *)

Lemma filter_length_impl {A} (P Q : A → Prop) `{!∀ x, Decision (P x)}
    `{!∀ x, Decision (Q x)} (l : list A) :
  (∀ x, P x → Q x) → (length (filter P l) ≤ length (filter Q l))%nat.
Proof.
  intros HPQ. induction l as [|x l IH]; [done|].
  rewrite !filter_cons. destruct (decide (P x)) as [HP|HP].
  - rewrite decide_True by auto. simpl. lia.
  - destruct (decide (Q x)); simpl; lia.
Qed.

Lemma greedy_counts_tp_le gold unused pred acc :
  unused ⊆ gold →
  (tp (greedy_counts unused pred acc)
   ≤ tp acc + length (tp_pair_list gold pred))%nat.
Proof.
  unfold tp_pair_list. revert unused acc.
  induction pred as [|p pred IH]; intros unused acc Hsub; simpl; [lia|].
  rewrite filter_cons.
  destruct (remove_first p unused) as [unused'|] eqn:E.
  - apply remove_first_Some in E.
    assert (p ∈ gold) as Hin.
    { apply Hsub. rewrite E. by left. }
    rewrite decide_True by done.
    etrans; [apply (IH unused')|simpl; lia].
    intros x Hx. apply Hsub. rewrite E. by right.
  - etrans; [by apply (IH unused)|]. simpl. case_decide; simpl; lia.
Qed.

Lemma greedy_counts_fn_ge unused pred acc :
  (fn acc + length (filter (fun g => g ∉ pred) unused)
   ≤ fn (greedy_counts unused pred acc))%nat.
Proof.
  revert unused acc. induction pred as [|p pred IH]; intros unused acc; simpl.
  - apply Nat.add_le_mono_l. apply length_filter.
  - destruct (remove_first p unused) as [unused'|] eqn:E.
    + apply remove_first_Some in E.
      etrans; [|apply (IH unused')]. simpl.
      apply Nat.add_le_mono_l. rewrite E, filter_cons.
      rewrite decide_False by (intros H; apply H; by left).
      apply filter_length_impl. intros x Hx Hin. apply Hx. by right.
    + etrans; [|apply (IH unused)]. simpl.
      apply Nat.add_le_mono_l.
      apply filter_length_impl. intros x Hx Hin. apply Hx. by right.
Qed.

Lemma greedy_counts_tp_fp unused pred acc :
  tp (greedy_counts unused pred acc) + fp (greedy_counts unused pred acc)
  = tp acc + fp acc + length pred.
Proof.
  revert unused acc. induction pred as [|p pred IH]; intros unused acc; simpl;
    [lia|].
  destruct (remove_first p unused); rewrite IH; simpl; lia.
Qed.

(** X4. The counts of the detailed report bound the counts of the row
    report: membership without flags counts at least as many true
    positives and at most as many false positives and false negatives as
    [score_entities], and its true and false positives add up to the
    number of predictions. *)
Theorem detailed_pairs_bound_counts gold pred :
  let c := (score_entities gold pred).1 in
  (tp c ≤ length (tp_pair_list gold pred))%nat
  ∧ (length (fp_pair_list gold pred) ≤ fp c)%nat
  ∧ (length (fn_pair_list gold pred) ≤ fn c)%nat
  ∧ length (tp_pair_list gold pred) + length (fp_pair_list gold pred)
    = length pred.
Proof.
  cbv zeta. rewrite score_entities_greedy. unfold greedy_policy.
  pose proof (greedy_counts_tp_le gold gold pred zero_counts
                (fun x H => H)) as Htp.
  pose proof (greedy_counts_fn_ge gold pred zero_counts) as Hfn.
  pose proof (greedy_counts_tp_fp gold pred zero_counts) as Htot.
  assert (length (tp_pair_list gold pred) + length (fp_pair_list gold pred)
          = length pred) as Hsum.
  { unfold tp_pair_list, fp_pair_list. clear.
    induction pred as [|p pred IH]; [done|].
    rewrite !filter_cons. destruct (decide (p ∈ gold)).
    - rewrite decide_False by tauto. simpl. lia.
    - rewrite decide_True by done. simpl. lia. }
  simpl in *. unfold fn_pair_list. lia.
Qed.

Lemma greedy_counts_nodup gold unused pred acc :
  NoDup pred →
  unused ⊆ gold →
  (∀ p, p ∈ pred → p ∈ gold → p ∈ unused) →
  tp (greedy_counts unused pred acc)
  = tp acc + length (tp_pair_list gold pred)
  ∧ fp (greedy_counts unused pred acc)
    = fp acc + length (fp_pair_list gold pred).
Proof.
  unfold tp_pair_list, fp_pair_list. intros Hnd. revert unused acc.
  induction Hnd as [|p pred Hp Hnd IH]; intros unused acc Hsub Hall; simpl;
    [lia|].
  rewrite !filter_cons.
  destruct (decide (p ∈ gold)) as [Hin|Hnin].
  - rewrite (decide_False (P := p ∉ gold)) by tauto.
    assert (p ∈ unused) as Hu by (apply Hall; [by left|done]).
    destruct (remove_first_elem p unused Hu) as [unused' Hrm].
    rewrite Hrm. apply remove_first_Some in Hrm.
    destruct (IH unused' (inc_tp acc)) as [-> ->].
    + intros x Hx. apply Hsub. rewrite Hrm. by right.
    + intros q Hq Hg.
      assert (q ∈ unused) as Hqu by (apply Hall; [by right|done]).
      rewrite Hrm in Hqu. apply elem_of_cons in Hqu as [->|?]; done.
    + simpl. lia.
  - rewrite (decide_True (P := p ∉ gold)) by done.
    rewrite remove_first_not_in by (intros H; apply Hnin; by apply Hsub).
    destruct (IH unused (inc_fp acc)) as [-> ->]; [done| |simpl; lia].
    intros q Hq Hg. apply Hall; [by right|done].
Qed.

(** X5. When no entity is predicted twice, the row report and the
    detailed report agree on the true and false positives. *)
Theorem detailed_pairs_agree_nodup gold pred :
  NoDup pred →
  tp (score_entities gold pred).1 = length (tp_pair_list gold pred)
  ∧ fp (score_entities gold pred).1 = length (fp_pair_list gold pred).
Proof.
  intros Hnd. rewrite score_entities_greedy. unfold greedy_policy.
  by apply (greedy_counts_nodup gold gold pred zero_counts).
Qed.

Lemma detailed_pairs_agree_nodup_witness :
  NoDup [("a", "person"); ("b", "person")]
  ∧ tp (score_entities [("a", "person"); ("a", "person")]
                       [("a", "person"); ("b", "person")]).1
    = length (tp_pair_list [("a", "person"); ("a", "person")]
                           [("a", "person"); ("b", "person")]).
Proof.
  assert (NoDup [("a", "person"); ("b", "person")]) as H.
  { apply (bool_decide_unpack _). vm_compute. reflexivity. }
  split; [exact H|].
  exact (proj1 (detailed_pairs_agree_nodup _ _ H)).
Defined.

End RelationExtra.

(** * The values of [compute_prf1] *)

Section PRF1Extra.

Local Open Scope Qc_scope.

Lemma int_to_Qc_pos n : (0 < n)%nat → 0 < int_to_Qc n.
Proof.
  intros Hn. unfold int_to_Qc. rewrite <- Z2Qc_inj_0, <- Z2Qc_inj_lt. lia.
Qed.

Lemma int_to_Qc_nonneg n : 0 ≤ int_to_Qc n.
Proof.
  unfold int_to_Qc. rewrite <- Z2Qc_inj_0, <- Z2Qc_inj_le. lia.
Qed.

(** X6. Without a true positive the three metrics are 0, whatever the
    numbers of false positives and false negatives. *)
Theorem compute_prf1_no_true_positive (fp fn : nat) :
  compute_prf1 0 fp fn = Ok (0, 0, 0).
Proof.
  rewrite compute_prf1_eq. cbv zeta.
  assert (∀ n, (if decide (0 < 0 + n)%nat
                then int_to_Qc 0 / int_to_Qc (0 + n) else 0) = 0) as H.
  { intros n. case_decide; [|done]. unfold Qcdiv. apply Qcmult_0_l. }
  rewrite !H. by rewrite decide_False by done.
Qed.

Lemma int_to_Qc_le a b : (a ≤ b)%nat → int_to_Qc a ≤ int_to_Qc b.
Proof. intros H. unfold int_to_Qc. rewrite <- Z2Qc_inj_le. lia. Qed.

(** A quotient of a part by the whole lies between 0 and 1. *)
Lemma Qc_div_unit a b : 0 ≤ a → a ≤ b → 0 < b → 0 ≤ a / b ∧ a / b ≤ 1.
Proof.
  intros Ha Hab Hb. unfold Qcdiv.
  assert (0 ≤ / b) as Hi by (apply Qclt_le_weak; by apply Qcinv_pos).
  split.
  - rewrite <- (Qcmult_0_l (/ b)). by apply Qcmult_le_compat_r.
  - rewrite <- (Qcmult_inv_r b).
    + by apply Qcmult_le_compat_r.
    + intros Heq. apply (Qclt_not_eq _ _ Hb). by symmetry.
Qed.

Lemma ratio_unit a b :
  let x := if decide (0 < a + b)%nat
           then int_to_Qc a / int_to_Qc (a + b) else 0 in
  0 ≤ x ∧ x ≤ 1.
Proof.
  cbv zeta. case_decide; [|done].
  apply Qc_div_unit;
    [apply int_to_Qc_nonneg|apply int_to_Qc_le; lia|by apply int_to_Qc_pos].
Qed.

Lemma harmonic_unit p r :
  0 ≤ p → p ≤ 1 → 0 ≤ r → r ≤ 1 →
  let f1 := if decide (0 < p + r) then 2 * p * r / (p + r) else 0 in
  0 ≤ f1 ∧ f1 ≤ 1.
Proof.
  intros Hp0 Hp1 Hr0 Hr1. cbv zeta. case_decide as Hs; [|done].
  assert (0 ≤ p * r) as Hpr.
  { rewrite <- (Qcmult_0_l r). by apply Qcmult_le_compat_r. }
  apply Qc_div_unit; [| |done].
  - replace (2 * p * r) with (p * r + p * r) by ring.
    rewrite <- (Qcplus_0_l 0). by apply Qcplus_le_compat.
  - replace (2 * p * r) with (r * p + p * r) by ring.
    apply Qcplus_le_compat.
    + rewrite <- (Qcmult_1_l p) at 2. by apply Qcmult_le_compat_r.
    + rewrite <- (Qcmult_1_l r) at 2. by apply Qcmult_le_compat_r.
Qed.

(** X7. [compute_prf1] returns for all counts, and each of precision,
    recall and f1 lies between 0 and 1. *)
Theorem compute_prf1_bounds (tp fp fn : nat) :
  ∃ p r f1,
    compute_prf1 tp fp fn = Ok (p, r, f1)
    ∧ 0 ≤ p ∧ p ≤ 1 ∧ 0 ≤ r ∧ r ≤ 1 ∧ 0 ≤ f1 ∧ f1 ≤ 1.
Proof.
  rewrite compute_prf1_eq. cbv zeta.
  destruct (ratio_unit tp fp) as [Hp0 Hp1].
  destruct (ratio_unit tp fn) as [Hr0 Hr1].
  destruct (harmonic_unit _ _ Hp0 Hp1 Hr0 Hr1) as [Hf0 Hf1].
  eexists _, _, _. split; [reflexivity|]. done.
Qed.

End PRF1Extra.

(** * The counters of the evaluation loop *)

Section Aggregation.

Implicit Types (g : globals) (r : eval_row) (rows : list eval_row).
Implicit Types (gold pred unused : list (string * string)).

Lemma greedy_counts_tp_fn unused pred acc :
  tp (greedy_counts unused pred acc) + fn (greedy_counts unused pred acc)
  = tp acc + fn acc + length unused.
Proof.
  revert unused acc. induction pred as [|p pred IH]; intros unused acc; simpl;
    [lia|].
  destruct (remove_first p unused) as [unused'|] eqn:E; rewrite IH; simpl;
    [|lia].
  apply remove_first_Some in E. rewrite E. simpl. lia.
Qed.

Lemma score_entities_sums gold pred :
  tp (score_entities gold pred).1 + fp (score_entities gold pred).1
  = length pred
  ∧ tp (score_entities gold pred).1 + fn (score_entities gold pred).1
    = length gold.
Proof.
  rewrite score_entities_greedy. unfold greedy_policy.
  pose proof (greedy_counts_tp_fp gold pred zero_counts) as H1.
  pose proof (greedy_counts_tp_fn gold pred zero_counts) as H2.
  rewrite H1, H2. done.
Qed.

Lemma score_relations_sums gold pred :
  tp (score_relations gold pred) + fp (score_relations gold pred)
  = length pred
  ∧ tp (score_relations gold pred) + fn (score_relations gold pred)
    = length gold.
Proof.
  unfold score_relations.
  pose proof (rel_loop_overall gold pred
                (replicate (length gold) false, zero_counts)) as H.
  cbv zeta in H.
  set (st' := foldl (rel_pred gold) _ pred) in *.
  destruct H as (Hl & Ht & Hu).
  cbn [fst snd tp fp fn zero_counts] in *.
  rewrite count_false_replicate in Hu. lia.
Qed.

Lemma score_entities_buckets gold pred :
  buckets_agree (score_entities gold pred).1 (score_entities gold pred).2.
Proof.
  unfold score_entities. apply step2_buckets. simpl.
  apply step1_buckets. simpl.
  repeat split; apply total_init; reflexivity.
Qed.

Lemma total_empty f : total f ∅ = 0.
Proof. unfold total. by rewrite map_fold_empty. Qed.

Lemma total_add_per_type f (global row : gmap string counts) :
  f zero_counts = 0 →
  (∀ a b, f (add_counts a b) = f a + f b) →
  total f (add_per_type global row) = total f global + total f row.
Proof.
  intros Hz Hadd. unfold add_per_type.
  apply (map_fold_weak_ind
           (fun acc m => total f acc = total f global + total f m)).
  - rewrite total_empty. lia.
  - intros etype c m acc Hfresh IH.
    rewrite total_insert_fresh by done.
    pose proof (total_bump f (fun x => add_counts x c) etype acc Hz) as H.
    unfold bump in H. rewrite Hadd in H. lia.
Qed.

Lemma evaluate_row_buckets g r :
  buckets_agree (global_e g) (global_per_type_entities g) →
  buckets_agree (global_e (evaluate_row g r))
                (global_per_type_entities (evaluate_row g r)).
Proof.
  intros (Ht & Hp & Hn). unfold evaluate_row.
  set (gold := entities (parse_delimited_output _ _)).
  set (pred := entities (parse_delimited_output (row_llm_output r) _)).
  pose proof (score_entities_buckets gold pred) as (Ht' & Hp' & Hn').
  destruct (score_entities gold pred) as [overall per_type]. simpl in *.
  unfold buckets_agree. simpl.
  rewrite !total_add_per_type by done. lia.
Qed.

(** The sum of a measure over the rows. *)
Lemma evaluate_row_sums g r :
  let g' := evaluate_row g r in
  tp (global_e g') + fp (global_e g')
  = tp (global_e g) + fp (global_e g) + (row_sizes r).1.1.1
  ∧ tp (global_e g') + fn (global_e g')
    = tp (global_e g) + fn (global_e g) + (row_sizes r).1.1.2
  ∧ tp (global_r g') + fp (global_r g')
    = tp (global_r g) + fp (global_r g) + (row_sizes r).1.2
  ∧ tp (global_r g') + fn (global_r g')
    = tp (global_r g) + fn (global_r g) + (row_sizes r).2.
Proof.
  unfold evaluate_row, row_sizes. cbv zeta.
  set (gold := parse_delimited_output (row_output r) _).
  set (pred := parse_delimited_output (row_llm_output r) _).
  pose proof (score_entities_sums (entities gold) (entities pred)) as [H1 H2].
  pose proof (score_relations_sums (relations gold) (relations pred))
    as [H3 H4].
  destruct (score_entities (entities gold) (entities pred))
    as [overall per_type].
  unfold entity, relation in *. simpl in *. lia.
Qed.

(** A measure of the counters that every row raises by its weight is,
    after the loop, the sum of the weights. *)
Lemma foldl_measure (m : globals → nat) (w : eval_row → nat) rows :
  (∀ g r, m (evaluate_row g r) = m g + w r) →
  m initial_globals = 0 →
  m (foldl evaluate_row initial_globals rows) = sum_list (w <$> rows).
Proof.
  intros Hstep H0.
  assert (∀ g, m (foldl evaluate_row g rows) = m g + sum_list (w <$> rows))
    as H.
  { induction rows as [|r rows IH]; intros g; [simpl; lia|].
    change (sum_list (w <$> r :: rows)) with (w r + sum_list (w <$> rows)).
    simpl foldl. rewrite IH, Hstep. lia. }
  rewrite H, H0. done.
Qed.

(** X8. After any number of rows the global per-type buckets add up to
    the global entity counters, field by field. *)
Theorem evaluate_rows_partition rows :
  let g := evaluate_rows rows in
  total tp (global_per_type_entities g) = tp (global_e g)
  ∧ total fp (global_per_type_entities g) = fp (global_e g)
  ∧ total fn (global_per_type_entities g) = fn (global_e g).
Proof.
  cbv zeta. unfold evaluate_rows.
  assert (∀ g, buckets_agree (global_e g) (global_per_type_entities g) →
               buckets_agree (global_e (foldl evaluate_row g rows))
                 (global_per_type_entities (foldl evaluate_row g rows)))
    as H.
  { induction rows as [|r rows IH]; intros g Hg; [done|].
    simpl. by apply IH, evaluate_row_buckets. }
  apply H. simpl. repeat split; apply total_init; reflexivity.
Qed.

(** X9. The global counters account for every item of every row: the
    true and false positives are the predicted items of all rows, the
    true positives and false negatives are the gold items of all rows,
    for entities and for relations. *)
Theorem evaluate_rows_totals rows :
  let g := evaluate_rows rows in
  tp (global_e g) + fp (global_e g)
  = sum_list ((fun r => (row_sizes r).1.1.1) <$> rows)
  ∧ tp (global_e g) + fn (global_e g)
    = sum_list ((fun r => (row_sizes r).1.1.2) <$> rows)
  ∧ tp (global_r g) + fp (global_r g)
    = sum_list ((fun r => (row_sizes r).1.2) <$> rows)
  ∧ tp (global_r g) + fn (global_r g)
    = sum_list ((fun r => (row_sizes r).2) <$> rows).
Proof.
  cbv zeta. unfold evaluate_rows.
  repeat split.
  - apply (foldl_measure (fun g => tp (global_e g) + fp (global_e g))
             (fun r => (row_sizes r).1.1.1)).
    + intros g r. apply (evaluate_row_sums g r).
    + done.
  - apply (foldl_measure (fun g => tp (global_e g) + fn (global_e g))
             (fun r => (row_sizes r).1.1.2)).
    + intros g r. apply (evaluate_row_sums g r).
    + done.
  - apply (foldl_measure (fun g => tp (global_r g) + fp (global_r g))
             (fun r => (row_sizes r).1.2)).
    + intros g r. apply (evaluate_row_sums g r).
    + done.
  - apply (foldl_measure (fun g => tp (global_r g) + fn (global_r g))
             (fun r => (row_sizes r).2)).
    + intros g r. apply (evaluate_row_sums g r).
    + done.
Qed.

End Aggregation.

(** * Properties of [normalize_text] *)

Section Normalize.

Implicit Types (s w a b : string) (ws : list string) (c : ascii).

Lemma is_word_cons c w :
  is_word (String c w) = negb (PyStr.isspace c) && negb (has_space w).
Proof. unfold is_word. simpl. by rewrite negb_orb. Qed.

Lemma split_ws_words s : Forall (fun w => is_word w = true) (PyStr.split_ws s).
Proof.
  induction s as [|c s IH]; simpl; [constructor|].
  destruct (PyStr.isspace c) eqn:Hc; [done|].
  destruct (PyStr.head_is_space s).
  - constructor; [|done]. by rewrite is_word_cons, Hc.
  - destruct (PyStr.split_ws s) as [|w ws]; [repeat constructor|].
    + by rewrite is_word_cons, Hc.
    + inversion IH as [|?? Hw Hws]; subst. constructor; [|done].
      rewrite is_word_cons, Hc. simpl.
      unfold is_word in Hw. by apply andb_prop in Hw as [_ ->].
Qed.

Lemma word_head w :
  is_word w = true → PyStr.head_is_space w = false.
Proof.
  destruct w as [|c w]; [done|]. rewrite is_word_cons. simpl.
  intros [Hc _]%andb_prop. by apply negb_true_iff in Hc.
Qed.

Lemma head_is_space_app w s :
  is_word w = true → PyStr.head_is_space (w +:+ s) = false.
Proof. intros Hw. destruct w as [|c w]; [done|]. by apply (word_head _ Hw). Qed.

(** Splitting a word followed by a blank and more text. *)
Lemma split_ws_word_blank w s :
  is_word w = true →
  PyStr.split_ws (w +:+ " " +:+ s) = w :: PyStr.split_ws s.
Proof.
  induction w as [|c w IH]; [done|].
  rewrite is_word_cons. intros [Hc Hw]%andb_prop.
  apply negb_true_iff in Hc. simpl. rewrite Hc.
  destruct w as [|d w]; [done|].
  assert (is_word (String d w) = true) as Hdw.
  { unfold is_word. by rewrite Hw. }
  rewrite (head_is_space_app (String d w)) by done.
  by rewrite (IH Hdw).
Qed.

Lemma split_ws_word w : is_word w = true → PyStr.split_ws w = [w].
Proof.
  induction w as [|c w IH]; [done|].
  rewrite is_word_cons. intros [Hc Hw]%andb_prop.
  apply negb_true_iff in Hc. simpl. rewrite Hc.
  destruct w as [|d w]; [done|].
  assert (is_word (String d w) = true) as Hdw.
  { unfold is_word. by rewrite Hw. }
  rewrite (word_head _ Hdw). by rewrite (IH Hdw).
Qed.

Lemma split_ws_join ws :
  Forall (fun w => is_word w = true) ws →
  PyStr.split_ws (PyStr.join " " ws) = ws.
Proof.
  induction 1 as [|w ws Hw Hws IH]; [done|].
  destruct ws as [|w' ws].
  - by apply split_ws_word.
  - change (PyStr.join " " (w :: w' :: ws))
      with (w +:+ " " +:+ PyStr.join " " (w' :: ws)).
    by rewrite split_ws_word_blank, IH.
Qed.

(** *** [strip] leaves a joined list of words as it is *)

Lemma rstrip_no_space w : has_space w = false → PyStr.rstrip w = w.
Proof.
  induction w as [|c w IH]; [done|]. simpl.
  intros [Hc Hw]%orb_false_elim. by rewrite Hc, IH.
Qed.

Lemma is_empty_app a b :
  PyStr.is_empty b = false → PyStr.is_empty (a +:+ b) = false.
Proof. by destruct a. Qed.

Lemma rstrip_app a b :
  PyStr.rstrip b = b → PyStr.is_empty b = false →
  PyStr.rstrip (a +:+ b) = a +:+ b.
Proof.
  intros Hb Hne. induction a as [|c a IH]; [done|].
  simpl. rewrite IH, (is_empty_app a b Hne). by rewrite andb_false_r.
Qed.

Lemma rstrip_word w : is_word w = true → PyStr.rstrip w = w.
Proof.
  unfold is_word. intros [_ Hw]%andb_prop.
  apply rstrip_no_space. by apply negb_true_iff.
Qed.

Lemma word_not_empty w : is_word w = true → PyStr.is_empty w = false.
Proof.
  unfold is_word. intros [Hw _]%andb_prop. by apply negb_true_iff.
Qed.

Lemma join_words_end ws :
  Forall (fun w => is_word w = true) ws → ws ≠ [] →
  PyStr.rstrip (PyStr.join " " ws) = PyStr.join " " ws
  ∧ PyStr.is_empty (PyStr.join " " ws) = false.
Proof.
  induction 1 as [|w ws Hw Hws IH]; [done|]. intros _.
  destruct ws as [|w' ws].
  - simpl. auto using rstrip_word, word_not_empty.
  - change (PyStr.join " " (w :: w' :: ws))
      with (w +:+ (" " +:+ PyStr.join " " (w' :: ws))).
    destruct IH as [IH1 IH2]; [done|].
    assert (PyStr.is_empty (" " +:+ PyStr.join " " (w' :: ws)) = false)
      as Hne by done.
    split; [|by apply is_empty_app].
    apply rstrip_app; [|done].
    apply (rstrip_app " " _ IH1 IH2).
Qed.

Lemma lstrip_head s : PyStr.head_is_space s = false → PyStr.lstrip s = s.
Proof. destruct s as [|c s]; [done|]. simpl. by intros ->. Qed.

Lemma strip_join_words ws :
  Forall (fun w => is_word w = true) ws →
  PyStr.strip (PyStr.join " " ws) = PyStr.join " " ws.
Proof.
  intros Hws. destruct ws as [|w ws]; [done|].
  unfold PyStr.strip. rewrite lstrip_head.
  - by apply join_words_end.
  - inversion Hws; subst. destruct ws as [|w' ws].
    + by apply word_head.
    + change (PyStr.join " " (w :: w' :: ws))
        with (w +:+ (" " +:+ PyStr.join " " (w' :: ws))).
      by apply head_is_space_app.
Qed.

(** *** [lower] leaves lowered words as they are *)

Lemma lower_char_idemp c :
  PyStr.lower_char (PyStr.lower_char c) = PyStr.lower_char c.
Proof. by destruct c as [[] [] [] [] [] [] [] []]. Qed.

Lemma lower_idemp s : PyStr.lower (PyStr.lower s) = PyStr.lower s.
Proof.
  induction s as [|c s IH]; [done|]. simpl. by rewrite lower_char_idemp, IH.
Qed.

Lemma lower_app a b :
  PyStr.lower (a +:+ b) = PyStr.lower a +:+ PyStr.lower b.
Proof. induction a as [|c a IH]; [done|]. simpl. by rewrite IH. Qed.

Lemma split_ws_lowered s :
  PyStr.lower s = s →
  Forall (fun w => PyStr.lower w = w) (PyStr.split_ws s).
Proof.
  induction s as [|c s IH]; simpl; [constructor|].
  intros [= Hc Hs]. specialize (IH Hs).
  destruct (PyStr.isspace c); [done|].
  destruct (PyStr.head_is_space s).
  - constructor; [|done]. simpl. by rewrite Hc.
  - destruct (PyStr.split_ws s) as [|w ws]; [repeat constructor|].
    + simpl. by rewrite Hc.
    + inversion IH as [|?? Hw Hws]; subst. constructor; [|done].
      simpl. by rewrite Hc, Hw.
Qed.

Lemma lower_join ws :
  Forall (fun w => PyStr.lower w = w) ws →
  PyStr.lower (PyStr.join " " ws) = PyStr.join " " ws.
Proof.
  induction 1 as [|w ws Hw Hws IH]; [done|].
  destruct ws as [|w' ws]; [done|].
  change (PyStr.join " " (w :: w' :: ws))
    with (w +:+ (" " +:+ PyStr.join " " (w' :: ws))).
  by rewrite !lower_app, Hw, IH.
Qed.

(** A normalised text is a list of lowered words joined by one blank. *)
Lemma normalize_text_normal s :
  PyStr.strip (normalize_text s) = normalize_text s
  ∧ PyStr.lower (normalize_text s) = normalize_text s
  ∧ PyStr.split_ws (normalize_text s)
    = PyStr.split_ws (PyStr.lower (PyStr.strip s)).
Proof.
  unfold normalize_text.
  set (t := PyStr.lower (PyStr.strip s)).
  pose proof (split_ws_words t) as Hw.
  pose proof (split_ws_lowered t (lower_idemp _)) as Hl.
  set (ws := PyStr.split_ws t) in *.
  by rewrite (strip_join_words ws Hw), (lower_join ws Hl),
    (split_ws_join ws Hw).
Qed.

Lemma normalize_text_fixed s :
  normalize_text (normalize_text s) = normalize_text s.
Proof.
  destruct (normalize_text_normal s) as (Hs & Hl & Hw).
  unfold normalize_text at 1. by rewrite Hs, Hl, Hw.
Qed.

(** X10. [normalize_text] is idempotent, and its result is left as it
    is by [strip] and by [lower]: normalising twice, or lowering a
    normalised text as the parser does for an entity type, changes
    nothing. *)
Theorem normalize_text_idempotent s :
  normalize_text (normalize_text s) = normalize_text s
  ∧ PyStr.lower (normalize_text s) = normalize_text s
  ∧ PyStr.strip (normalize_text s) = normalize_text s.
Proof.
  destruct (normalize_text_normal s) as (Hs & Hl & _).
  auto using normalize_text_fixed.
Qed.

End Normalize.

(** * What the parser returns *)

Section ParserExtra.

Implicit Types (al : list string) (acc : extraction).

Lemma parse_fields_sound al ty rest acc :
  parsed_ok al acc → parsed_ok al (parse_fields al ty rest acc).
Proof.
  intros [He Hr]. unfold parse_fields.
  destruct (PyStr.split TUPLE_DELIM _) as [|f0 [|f1 fs]]; try done.
  case_bool_decide; [case_bool_decide|case_bool_decide]; try done.
  - split; [|done]. simpl. apply Forall_app. split; [done|].
    constructor; [|done]. simpl.
    destruct (normalize_text_normal f1) as (_ & Hl & _).
    rewrite Hl in *. repeat split; auto using normalize_text_fixed.
  - split; [done|]. simpl. apply Forall_app. split; [done|].
    constructor; [|done]. simpl. split; apply normalize_text_fixed.
Qed.

Lemma parse_loop_sound al parts acc :
  parsed_ok al acc → parsed_ok al (parse_loop al parts acc).
Proof.
  revert acc. induction parts as [|x parts IH]; intros acc Hacc; simpl;
    [done|].
  destruct (stops (PyStr.strip x)); [done|].
  destruct (Regex.re_match record_pattern (PyStr.strip x))
    as [[|ty [|rest [|? ?]]]|]; try by apply IH.
  by apply IH, parse_fields_sound.
Qed.

(** X11. Whatever the text, every entity returned by the parser has a
    type of the lowered allow-list and a normalised name and type, and
    every relation has a normalised head and tail; with an empty
    allow-list no entity is returned. *)
Theorem parse_returns_allowed_normalised raw allowed :
  let result := parse_delimited_output raw allowed in
  Forall (fun e => e.2 ∈ lower_types allowed
                   ∧ normalize_text e.1 = e.1 ∧ normalize_text e.2 = e.2)
         (entities result)
  ∧ Forall (fun r => normalize_text r.1 = r.1 ∧ normalize_text r.2 = r.2)
           (relations result)
  ∧ (allowed = [] → entities result = []).
Proof.
  cbv zeta.
  assert (parsed_ok (lower_types allowed)
            (parse_delimited_output raw allowed)) as [He Hr].
  { destruct raw as [raw|]; simpl; [|by split].
    apply parse_loop_sound. by split. }
  split; [done|]. split; [done|]. intros ->.
  destruct (entities _) as [|e es]; [done|].
  inversion He as [|?? [Hin _] _]; subst. by apply elem_of_nil in Hin.
Qed.

End ParserExtra.

(** * What the extractors return *)

Section Extractors.

Implicit Types (d : dict) (k key : string) (v : json).

(** X12. When the extractor of the coreference stage returns a
    dictionary, the stripped answer starts with an opening brace and
    decodes to that dictionary, and the dictionary has both
    [RESOLVED_ENTITIES] and [AUXILIARY_DESCRIPTIONS]. *)
Theorem coref_extract_returns raw d :
  Coref.extract_json_from_ollama raw = Ok d →
  PyStr.startswith "{" (PyStr.strip raw) = true
  ∧ Json.loads (PyStr.strip raw) = inl (Json.JObj d)
  ∧ is_Some (Json.dict_get "RESOLVED_ENTITIES" d)
  ∧ is_Some (Json.dict_get "AUXILIARY_DESCRIPTIONS" d).
Proof.
  unfold Coref.extract_json_from_ollama.
  destruct (PyStr.startswith "{" (PyStr.strip raw)) eqn:Hs; simpl; [|done].
  destruct (Json.loads (PyStr.strip raw)) as [v|e] eqn:Hl; [|done].
  destruct v as [| | | | | |members]; try done.
  unfold Coref.has_key.
  case_bool_decide as H1; simpl; [|done].
  case_bool_decide as H2; simpl; [|done].
  by intros [= <-].
Qed.

Lemma coref_extract_returns_witness :
  Coref.extract_json_from_ollama ("  " +:+ example_response)
  = Ok [("RESOLVED_ENTITIES",
         Json.JObj [("Bob", Json.JStr "Robert K.");
                    ("he", Json.JStr "Robert K.")]);
        ("AUXILIARY_DESCRIPTIONS",
         Json.JObj [("Robert K.", Json.JStr "a smuggler")])]
  ∧ PyStr.startswith "{" (PyStr.strip ("  " +:+ example_response)) = true.
Proof.
  assert (Coref.extract_json_from_ollama ("  " +:+ example_response)
          = Ok [("RESOLVED_ENTITIES",
                 Json.JObj [("Bob", Json.JStr "Robert K.");
                            ("he", Json.JStr "Robert K.")]);
                ("AUXILIARY_DESCRIPTIONS",
                 Json.JObj [("Robert K.", Json.JStr "a smuggler")])]) as He
    by (vm_compute; reflexivity).
  split; [exact He|].
  by destruct (coref_extract_returns _ _ He) as [Hs _].
Defined.

Lemma dict_set_not_nil k v d : Json.dict_set k v d ≠ [].
Proof. destruct d as [|[k' v'] d]; simpl; [done|]. by case_bool_decide. Qed.

Lemma replace_null_not_nil key v d :
  d ≠ [] → Ner.replace_null key v d ≠ [].
Proof.
  intros Hd. unfold Ner.replace_null.
  destruct (Json.dict_get key d) as [[]|]; auto using dict_set_not_nil.
Qed.

Lemma replace_null_same key v d :
  v ≠ Json.JNull →
  Json.dict_get key (Ner.replace_null key v d) ≠ Some Json.JNull.
Proof.
  intros Hv. unfold Ner.replace_null.
  destruct (Json.dict_get key d) as [x|] eqn:E; [|by rewrite E].
  destruct x; rewrite ?E; try done.
  rewrite dict_get_set, decide_True by done. congruence.
Qed.

Lemma replace_null_other k key v d :
  k ≠ key →
  Json.dict_get k (Ner.replace_null key v d) = Json.dict_get k d.
Proof.
  intros Hk. unfold Ner.replace_null.
  destruct (Json.dict_get key d) as [[]|]; try done.
  by rewrite dict_get_set, decide_False.
Qed.

Lemma normalise_no_null parsed d :
  parsed ≠ [] →
  Ner.normalise parsed = Ok d →
  d ≠ []
  ∧ Json.dict_get "PROPER_NOUN_DESCRIPTION" d ≠ Some Json.JNull
  ∧ ∀ ents, Json.dict_get "ENTITIES" d = Some (Json.JObj ents) →
      Json.dict_get "PROPER_NOUN" ents ≠ Some Json.JNull
      ∧ Json.dict_get "NOUN_PHRASE" ents ≠ Some Json.JNull.
Proof.
  intros Hne. unfold Ner.normalise.
  destruct (Json.dict_get "ENTITIES" parsed) as [x|] eqn:E.
  2:{ simpl. intros [= <-].
      split; [by apply replace_null_not_nil|].
      split; [by apply replace_null_same|].
      intros ents. rewrite replace_null_other by done. by rewrite E. }
  destruct x as [| | | | str | items | ents0];
    try (simpl; discriminate).
  - destruct (_ || _); simpl; [discriminate|]. intros [= <-].
    split; [by apply replace_null_not_nil|].
    split; [by apply replace_null_same|].
    intros ents. rewrite replace_null_other by done. by rewrite E.
  - destruct (_ || _); simpl; [discriminate|]. intros [= <-].
    split; [by apply replace_null_not_nil|].
    split; [by apply replace_null_same|].
    intros ents. rewrite replace_null_other by done. by rewrite E.
  - simpl. intros [= <-].
    split; [apply replace_null_not_nil, dict_set_not_nil|].
    split; [by apply replace_null_same|].
    intros ents. rewrite replace_null_other by done.
    rewrite dict_get_set, decide_True by done. intros [= <-].
    split.
    + rewrite replace_null_other by done. by apply replace_null_same.
    + by apply replace_null_same.
Qed.

(** X13. When the answer is valid JSON, what the extractor of the
    entity stage returns is a non-empty object in which
    [PROPER_NOUN_DESCRIPTION] is not null and, when [ENTITIES] is an
    object, neither [PROPER_NOUN] nor [NOUN_PHRASE] in it is null. *)
Theorem ner_extract_replaces_nulls raw v result :
  Json.loads raw = inl v →
  Ner.extract_json_from_ollama raw = Ok result →
  ∃ d, result = Json.JObj d ∧ d ≠ []
    ∧ Json.dict_get "PROPER_NOUN_DESCRIPTION" d ≠ Some Json.JNull
    ∧ ∀ ents, Json.dict_get "ENTITIES" d = Some (Json.JObj ents) →
        Json.dict_get "PROPER_NOUN" ents ≠ Some Json.JNull
        ∧ Json.dict_get "NOUN_PHRASE" ents ≠ Some Json.JNull.
Proof.
  intros Hl. unfold Ner.extract_json_from_ollama. rewrite Hl.
  destruct (negb _); [discriminate|].
  destruct v as [| | | | | |parsed]; try discriminate.
  destruct parsed as [|kv parsed]; [discriminate|].
  destruct (Ner.normalise (kv :: parsed)) as [d|msg] eqn:E; simpl;
    [|discriminate].
  intros [= <-]. exists d. split; [done|].
  by apply (normalise_no_null (kv :: parsed)).
Qed.

Lemma ner_extract_replaces_nulls_witness :
  let raw := "{" +:+ quoted "ENTITIES" +:+ ": {"
             +:+ quoted "PROPER_NOUN" +:+ ": null}, "
             +:+ quoted "PROPER_NOUN_DESCRIPTION" +:+ ": null}" in
  Ner.extract_json_from_ollama raw
  = Ok (Json.JObj [("ENTITIES", Json.JObj [("PROPER_NOUN", Json.JArr [])]);
                   ("PROPER_NOUN_DESCRIPTION", Json.JObj [])])
  ∧ Json.dict_get "PROPER_NOUN_DESCRIPTION"
      [("ENTITIES", Json.JObj [("PROPER_NOUN", Json.JArr [])]);
       ("PROPER_NOUN_DESCRIPTION", Json.JObj [])] ≠ Some Json.JNull.
Proof.
  cbv zeta.
  set (raw := "{" +:+ _).
  assert (Json.loads raw
          = inl (Json.JObj
                   [("ENTITIES", Json.JObj [("PROPER_NOUN", Json.JNull)]);
                    ("PROPER_NOUN_DESCRIPTION", Json.JNull)])) as Hl
    by (vm_compute; reflexivity).
  assert (Ner.extract_json_from_ollama raw
          = Ok (Json.JObj
                  [("ENTITIES", Json.JObj [("PROPER_NOUN", Json.JArr [])]);
                   ("PROPER_NOUN_DESCRIPTION", Json.JObj [])])) as He
    by (vm_compute; reflexivity).
  split; [exact He|].
  destruct (ner_extract_replaces_nulls raw _ _ Hl He)
    as (d & Hd & _ & Hnull & _).
  injection Hd as <-. exact Hnull.
Defined.

End Extractors.

(** * The files written by the coreference stage *)

Section Files.

Context {W : Type}.
Variable post : W → string → nat → post_result * W.
Variable dumps : pyvalue → string.

Implicit Types (st : @state W) (c : chunk) (chunk_files : list chunk).

Lemma process_chunk_writes template out max_retries verification c st :
  let r := process_chunk post dumps template out max_retries verification
             c st in
  match r.1 with
  | Ok _ => ∃ content,
      files r.2 = files st ++ [(coref_out_path out verification c, content)]
  | Raise _ => files r.2 = files st
  end.
Proof.
  unfold process_chunk.
  pose proof (retry_loop_spec post (Nat.max 1 max_retries)
                (coref_prompt dumps template (resolved_entities st)
                   (aux_descriptions st) c)
                (Nat.max 1 max_retries) 0 false None st) as Hl.
  destruct (retry_loop _ _ _ _ _ _ _ _) as [[parsed|n e|] st1];
    simpl in Hl; destruct Hl as (_ & _ & Hf & _); simpl; [|done..].
  destruct (Coref.update (resolved_entities st1) _) as [[[]|msg] re]; simpl;
    [|done].
  destruct (Coref.update (aux_descriptions st1) _) as [[[]|msg] ad]; simpl;
    [|done].
  rewrite Hf. eauto.
Qed.

Lemma process_chunk_files_writes template out max_retries verification
    chunk_files st :
  let r := process_chunk_files post dumps template out max_retries
             verification chunk_files st in
  let paths := coref_out_path out verification <$> txt_chunks chunk_files in
  ∃ outputs,
    files r.2 = files st ++ outputs
    ∧ match r.1 with
      | Ok _ => outputs.*1 = paths
      | Raise _ => ∃ n, (n < length paths)%nat ∧ outputs.*1 = take n paths
      end.
Proof.
  cbv zeta. unfold txt_chunks. revert st.
  induction chunk_files as [|c rest IH]; intros st.
  { exists []. simpl. by rewrite app_nil_r. }
  rewrite filter_cons. simpl process_chunk_files.
  case_decide as Hc.
  2:{ apply not_true_is_false in Hc. rewrite Hc. simpl. apply IH. }
  rewrite Hc. simpl negb. cbv iota. rewrite fmap_cons.
  pose proof (process_chunk_writes template out max_retries verification c st)
    as H1.
  destruct (process_chunk _ _ _ _ _ _ _ _) as [[[]|msg] st1]; simpl in H1.
  - destruct H1 as [content H1].
    destruct (IH st1) as (outputs & Hf & Hout).
    exists ((coref_out_path out verification c, content) :: outputs).
    split; [rewrite Hf, H1; by rewrite <- app_assoc|].
    destruct (process_chunk_files _ _ _ _ _ _ rest st1) as [[[]|msg] st2];
      cbn [fst] in *.
    + rewrite fmap_cons. by f_equal.
    + destruct Hout as (n & Hn & Hout). exists (S n).
      split; [rewrite length_cons; lia|]. rewrite fmap_cons. simpl.
      by f_equal.
  - exists []. simpl. split; [by rewrite app_nil_r|].
    exists 0. split; [lia|done].
Qed.

(** X14. A pass of [process_chunks] that ends normally has written one
    output per [.txt] chunk, in the order of the listing, and then the
    final memory, which holds the two dictionaries as they are at the
    end of the pass; a pass that raises has written the outputs of the
    chunks before the failing one and no final memory.  Files whose name
    does not end in [.txt] leave no output. *)
Theorem process_chunks_writes template base max_retries verification
    chunk_files st :
  let r := process_chunks post dumps template base max_retries verification
             chunk_files st in
  let paths := coref_out_path (base +:+ "/coref_outputs") verification
                 <$> txt_chunks chunk_files in
  match r.1 with
  | Ok _ =>
      ∃ outputs,
        files r.2 = files st ++ outputs
                    ++ [(base +:+ "/final_memory.json",
                         dumps (memory_json r.2))]
        ∧ outputs.*1 = paths
  | Raise _ =>
      ∃ outputs n,
        files r.2 = files st ++ outputs
        ∧ (n < length paths)%nat ∧ outputs.*1 = take n paths
  end.
Proof.
  cbv zeta. unfold process_chunks.
  destruct (process_chunk_files_writes template
              (base +:+ "/coref_outputs") max_retries verification
              chunk_files st) as (outputs & Hf & Hout).
  destruct (process_chunk_files _ _ _ _ _ _ _ _) as [[[]|msg] st1];
    simpl in *.
  - exists outputs. split; [|done]. rewrite Hf. by rewrite <- app_assoc.
  - destruct Hout as (n & Hn & Hout). by exists outputs, n.
Qed.

End Files.

(** * The outcome of the final resolver *)

Section Resolver.

Context {W : Type}.
Variable post : W → string → nat → post_result * W.
Variable dumps : pyvalue → string.

Implicit Types (st : @state W) (evs : list attempt).





Lemma resolve_chunk_memory template resolved_dir num_retries chunk_fname
    text st :
  let r := resolve_chunk post dumps template resolved_dir num_retries
             chunk_fname text st in
  resolved_entities r.2 = resolved_entities st
  ∧ aux_descriptions r.2 = aux_descriptions st.
Proof.
  unfold resolve_chunk.
  destruct (resolve_loop_spec post dumps template (chunk_name_of chunk_fname)
              num_retries (seq 0 num_retries) text st)
    as (Hre & Had & _).
  by destruct (resolve_loop _ _ _ _ _ _ _ _) as [[t|msg] st1].
Qed.

Lemma resolve_chunks_prompts template resolved_dir num_retries
    (chunk_files : list (string * string)) st :
  let r := resolve_chunks post dumps template resolved_dir num_retries
             chunk_files st in
  resolved_entities r.2 = resolved_entities st
  ∧ aux_descriptions r.2 = aux_descriptions st
  ∧ ∃ evs,
      attempts r.2 = attempts st ++ evs
      ∧ Forall (fun a => ∃ f, f ∈ chunk_files
                  ∧ at_prompt a
                    = final_prompt dumps template (resolved_entities st)
                        (aux_descriptions st) f.2) evs.
Proof.
  cbv zeta. revert st.
  induction chunk_files as [|[fname text] rest IH]; intros st; simpl.
  { split_and!; try done. exists []. by rewrite app_nil_r. }
  destruct (resolve_chunk_memory template resolved_dir num_retries fname
              text st) as (Hre1 & Had1).
  destruct (resolve_chunk_prompts post dumps template resolved_dir
              num_retries fname text st) as (evs1 & Hat1 & Hall1).
  assert (Forall (fun a => ∃ f, f ∈ (fname, text) :: rest
                    ∧ at_prompt a
                      = final_prompt dumps template (resolved_entities st)
                          (aux_descriptions st) f.2) evs1) as Hall1'.
  { eapply Forall_impl; [exact Hall1|]. intros a Ha.
    exists (fname, text). split; [by left|done]. }
  destruct (resolve_chunk _ _ _ _ _ _ _ _) as [[[]|msg] st1]; simpl in *.
  2:{ split_and!; try done. by exists evs1. }
  destruct (IH st1) as (Hre & Had & evs & Hat & Hall).
  split_and!; try congruence.
  exists (evs1 ++ evs). split; [by rewrite Hat, Hat1, <- app_assoc|].
  apply Forall_app. split; [done|].
  eapply Forall_impl; [exact Hall|]. intros a (f & Hf & Ha).
  exists f. split; [by right|]. by rewrite Ha, Hre1, Had1.
Qed.

Lemma prune_no_null (d : dict) :
  Forall (fun kv => kv.2 ≠ Json.JNull) (prune d).
Proof.
  unfold prune. apply Forall_forall. intros kv [Hkv _]%list_elem_of_filter.
  intros Hnull. by rewrite Hnull in Hkv.
Qed.

(** X16. The final resolver reads the memory and never changes it:
    with the two entries of the memory file being dictionaries (or
    missing), every prompt it sends is built from the template, the
    resolved entities without their null mappings, the auxiliary
    descriptions, and the text of one of the [.txt] chunk files, and the
    two dictionaries are the same at the end. *)
Theorem final_main_prompts template input_folder num_retries memory
    (chunk_files : list (string * string)) st re ad :
  default (Json.JObj []) (Json.dict_get "RESOLVED_ENTITIES" memory)
  = Json.JObj re →
  default (Json.JObj []) (Json.dict_get "AUXILIARY_DESCRIPTIONS" memory)
  = Json.JObj ad →
  let r := final_main post dumps template input_folder num_retries memory
             chunk_files st in
  resolved_entities r.2 = Coref.of_dict (prune re)
  ∧ aux_descriptions r.2 = Coref.of_dict ad
  ∧ Forall (fun kv => kv.2 ≠ Json.JNull) (resolved_entities r.2)
  ∧ ∃ evs,
      attempts r.2 = attempts st ++ evs
      ∧ Forall (fun a => ∃ f, f ∈ chunk_files
                  ∧ PyStr.endswith ".txt" f.1 = true
                  ∧ at_prompt a
                    = final_prompt dumps template (Coref.of_dict (prune re))
                        (Coref.of_dict ad) f.2) evs.
Proof.
  intros Hre Had. cbv zeta. unfold final_main. rewrite Hre, Had.
  destruct (resolve_chunks_prompts template
              (input_folder +:+ "/resolved_outputs") num_retries
              (filter (fun f => PyStr.endswith ".txt" f.1 = true) chunk_files)
              (set_memory (Coref.of_dict (prune re)) (Coref.of_dict ad) st))
    as (Hre' & Had' & evs & Hat & Hall).
  simpl in *. rewrite Hre', Had'. split_and!; try done.
  { unfold Coref.of_dict. apply Forall_fmap.
    eapply Forall_impl; [apply prune_no_null|]. by intros kv. }
  exists evs. split; [done|].
  eapply Forall_impl; [exact Hall|]. intros a (f & Hf & Ha).
  apply list_elem_of_filter in Hf as [Hf1 Hf2]. eauto.
Qed.

End Resolver.

Lemma final_main_prompts_witness :
  let memory := [("RESOLVED_ENTITIES",
                  Json.JObj [("he", Json.JNull); ("Bob", Json.JStr "Robert")])]
  in
  let r := final_main scripted dumps_text "T" "out" 1 memory
             [("chunk_01.txt", "Bob left."); ("notes.md", "skip")]
             (initial_state [Responded (Some "Robert left.")]) in
  resolved_entities r.2 = [(Json.JStr "Bob", Json.JStr "Robert")]
  ∧ aux_descriptions r.2 = [].
Proof.
  cbv zeta.
  destruct (final_main_prompts scripted dumps_text "T" "out" 1
              [("RESOLVED_ENTITIES",
                Json.JObj [("he", Json.JNull); ("Bob", Json.JStr "Robert")])]
              [("chunk_01.txt", "Bob left."); ("notes.md", "skip")]
              (initial_state [Responded (Some "Robert left.")])
              [("he", Json.JNull); ("Bob", Json.JStr "Robert")] []
              eq_refl eq_refl) as (Hre & Had & _).
  split; [exact Hre|exact Had].
Defined.

(** * The retry ladder of the entity stage *)

Section NerLadder.

Context {W : Type}.
Variable post : W → string → nat → post_result * W.
Variable dumps : pyvalue → string.

Implicit Types (st : @state W) (evs : list attempt) (max_retries : Z).

Lemma ner_answer_ok ans raw parsed :
  (text ← inference_lenient ans;
   parsed ← Ner.extract_json_from_ollama text; Ok (text, parsed))
  = Ok (raw, parsed) →
  inference_lenient ans = Ok raw
  ∧ Ner.extract_json_from_ollama raw = Ok parsed.
Proof.
  destruct (inference_lenient ans) as [text|]; simpl; [|done].
  destruct (Ner.extract_json_from_ollama text) as [v|] eqn:E; simpl;
    [|done].
  intros [= -> ->]. done.
Qed.

Lemma ner_loop_spec fuel base fname max_retries k st :
  (Z.of_nat k ≤ max_retries)%Z →
  (Z.to_nat max_retries + 1 - k ≤ fuel)%nat →
  let r := ner_loop post fuel base fname max_retries k st in
  resolved_entities r.2 = resolved_entities st
  ∧ aux_descriptions r.2 = aux_descriptions st
  ∧ files r.2 = files st
  ∧ ∃ evs,
      attempts r.2 = attempts st ++ evs
      ∧ (1 ≤ length evs)%nat
      ∧ (k + length evs ≤ Z.to_nat max_retries + 1)%nat
      ∧ (∀ i a, evs !! i = Some a →
           at_timeout a = 300
           ∧ at_prompt a = ner_full_prompt base (k + i))
      ∧ match r.1 with
        | NerSuccess raw parsed =>
            ∃ evs' a,
              evs = evs' ++ [a]
              ∧ Forall (fun a => is_Some (at_failure a)) evs'
              ∧ at_failure a = None
              ∧ inference_lenient (at_answer a) = Ok raw
              ∧ Ner.extract_json_from_ollama raw = Ok parsed
        | NerFailed msg =>
            (k + length evs = Z.to_nat max_retries + 1)%nat
            ∧ Forall (fun a => is_Some (at_failure a)) evs
            ∧ ∃ evs' a e,
                evs = evs' ++ [a] ∧ at_failure a = Some e
                ∧ msg = "Failed after " +:+ pretty max_retries
                        +:+ " attempts for chunk " +:+ fname +:+ ": " +:+ e
        | NerNoTurn | NerOutOfFuel => False
        end.
Proof.
  cbv zeta. revert k st.
  induction fuel as [|fuel IH]; intros k st Hk Hfuel; [lia|].
  simpl ner_loop.
  destruct (Z.leb_spec (Z.of_nat k) max_retries) as [_|?]; [|lia].
  pose proof (try_call_state post inference_lenient
                (fun result_raw =>
                   parsed ← Ner.extract_json_from_ollama result_raw;
                   Ok (result_raw, parsed))
                (ner_full_prompt base k) 300 st) as H1.
  destruct (try_call post inference_lenient _ (ner_full_prompt base k) 300 st)
    as [[[raw parsed]|e] st1]; simpl in H1;
    destruct H1 as (Hre1 & Had1 & Hf1 & ans & Hat1 & _ & Hout1).
  { symmetry in Hout1. apply ner_answer_ok in Hout1 as [Hraw Hparsed].
    simpl. split_and!; try done.
    exists [Attempt (ner_full_prompt base k) 300 ans None].
    split_and!; try done; simpl; try lia.
    - intros [|i] a; simpl; [|done]. intros [= <-]. simpl.
      by rewrite Nat.add_0_r.
    - by exists [], (Attempt (ner_full_prompt base k) 300 ans None). }
  set (a1 := Attempt (ner_full_prompt base k) 300 ans (Some e)) in *.
  assert (∀ i a, [a1] !! i = Some a →
            at_timeout a = 300
            ∧ at_prompt a = ner_full_prompt base (k + i)) as Hone.
  { intros [|i] a; simpl; [|done]. intros [= <-]. simpl.
    by rewrite Nat.add_0_r. }
  destruct (Z.ltb_spec max_retries (Z.of_nat (S k))) as [Hlast|Hmore].
  { simpl. split_and!; try done. exists [a1].
    split_and!; try done; simpl; try lia.
    - repeat constructor. by eexists.
    - by exists [], a1, e. }
  destruct (IH (S k) st1 ltac:(lia) ltac:(lia))
    as (Hre & Had & Hf & evs & Hat & Hlen1 & Hlen2 & Hpr & Hout).
  split_and!; try congruence.
  exists (a1 :: evs). split_and!.
  - rewrite Hat, Hat1. by rewrite <- app_assoc.
  - simpl. lia.
  - simpl. lia.
  - intros [|i] a; simpl.
    + intros [= <-]. simpl. by rewrite Nat.add_0_r.
    + intros Hi. destruct (Hpr i a Hi) as [-> ->].
      split; [done|]. f_equal. lia.
  - destruct (ner_loop _ _ _ _ _ _ _).1 as [raw parsed|msg| |]; try done.
    + destruct Hout as (evs' & a & -> & Hall & Ha).
      exists (a1 :: evs'), a. split; [done|]. split; [|done].
      constructor; [by eexists|done].
    + destruct Hout as (Hlen & Hall & evs' & a & e' & -> & Ha).
      split; [simpl; lia|]. split; [constructor; [by eexists|done]|].
      by exists (a1 :: evs'), a, e'.
Qed.


(** X19. The fallback instructions are taken in turn: the retry after
    [k + 1] failures uses the instruction of index [k] for [k] below 4,
    the choice repeats with period 4, and the four instructions differ
    from one another. *)
Theorem ner_fallback_round_robin base :
  ner_full_prompt base 0 = base
  ∧ (∀ k v, fallback_variants !! k = Some v →
       ner_full_prompt base (S k)
       = v +:+ String newline (String newline base))
  ∧ (∀ k, ner_full_prompt base (S (k + 4)) = ner_full_prompt base (S k))
  ∧ NoDup fallback_variants.
Proof.
  split_and!.
  - done.
  - intros k v Hk. unfold ner_full_prompt.
    assert (k < 4)%nat as Hlt by (by apply lookup_lt_Some in Hk).
    change (length fallback_variants) with 4%nat.
    rewrite Nat.mod_small by done. by rewrite Hk.
  - intros k. unfold ner_full_prompt.
    change (length fallback_variants) with 4%nat.
    replace (k + 4)%nat with (k + 1 * 4)%nat by lia.
    by rewrite Nat.Div0.mod_add.
  - apply (bool_decide_unpack _). vm_compute. reflexivity.
Qed.

(** X18. With a negative number of retries the [while] loop of the
    first chunk makes no turn: no call is made, the raw file is left
    empty and the run ends with the error of an unbound variable. *)
Theorem ner_chunk_negative_retries template output_dir max_retries fname
    text st :
  (max_retries < 0)%Z →
  ner_chunk post dumps template output_dir max_retries fname text st
  = (Raise UnboundLocalError,
     write_file (ner_raw_path output_dir fname) EmptyString st).
Proof.
  intros Hneg. destruct max_retries as [|p|p]; try lia. reflexivity.
Qed.

End NerLadder.


Lemma ner_chunk_negative_retries_witness :
  ((-1) < 0)%Z
  ∧ files (ner_chunk scripted dumps_text "T" "out" (-1) "chunk_01.txt" "Bob."
             (initial_state [])).2
    = [("out/chunk_01_raw.txt", EmptyString)].
Proof.
  split; [lia|].
  rewrite (ner_chunk_negative_retries scripted dumps_text "T" "out" (-1)
             "chunk_01.txt" "Bob." (initial_state []) ltac:(lia)).
  vm_compute. reflexivity.
Defined.

(** * Properties of [chunk_legal_text] *)

Section Chunking.

Variable max_tokens : Z.
Variable tokenizer : option (string → nat).

Implicit Types (st : chunker) (g group : list string)
  (groups : list (list string)) (p para : string).

Lemma string_app_assoc (a b c : string) : a +:+ (b +:+ c) = (a +:+ b) +:+ c.
Proof.
  induction a as [|x a IH]; [done|].
  change (String x (a +:+ (b +:+ c)) = String x ((a +:+ b) +:+ c)).
  by rewrite IH.
Qed.

Lemma join_cons sep x (l : list string) :
  l ≠ [] → PyStr.join sep (x :: l) = x +:+ sep +:+ PyStr.join sep l.
Proof. by destruct l. Qed.

Lemma join_app sep (l1 l2 : list string) :
  l1 ≠ [] → l2 ≠ [] →
  PyStr.join sep (l1 ++ l2)
  = PyStr.join sep l1 +:+ sep +:+ PyStr.join sep l2.
Proof.
  intros H1 H2. induction l1 as [|x l1 IH]; [done|].
  destruct l1 as [|y l1].
  - simpl app. by rewrite join_cons.
  - change ((x :: y :: l1) ++ l2) with (x :: ((y :: l1) ++ l2)).
    rewrite join_cons by done. rewrite IH by done.
    rewrite (join_cons sep x (y :: l1)) by done.
    by rewrite !string_app_assoc.
Qed.

(** Joining the joined groups is joining all the paragraphs. *)
Lemma join_groups sep groups :
  Forall (fun g => g ≠ []) groups →
  PyStr.join sep (PyStr.join sep <$> groups) = PyStr.join sep (concat groups).
Proof.
  induction 1 as [|g groups Hg Hall IH]; [done|].
  destruct groups as [|g' groups].
  - simpl. by rewrite app_nil_r.
  - rewrite fmap_cons. rewrite join_cons by done. rewrite IH.
    change (concat (g :: g' :: groups)) with (g ++ concat (g' :: groups)).
    rewrite join_app; [done|done|].
    inversion Hall; subst. simpl. by destruct g'.
Qed.

Lemma sum_list_snoc (l : list nat) x : sum_list (l ++ [x]) = sum_list l + x.
Proof. induction l as [|y l IH]; simpl; lia. Qed.

Lemma flush_groups groups g :
  flush (PyStr.join PARA_SEP <$> groups) g
  = PyStr.join PARA_SEP <$> (groups ++ open_group g).
Proof.
  destruct g as [|p g]; simpl; [by rewrite app_nil_r|].
  by rewrite fmap_app.
Qed.

Lemma concat_open_group g : concat (open_group g) = g.
Proof. destruct g; simpl; by rewrite ?app_nil_r. Qed.

Lemma closed_when_full_one g : closed_when_full max_tokens tokenizer [g].
Proof. intros i g' p rest _ Hi. by destruct i. Qed.

(** A group is added behind one that its first paragraph did not fit. *)
Lemma closed_when_full_snoc groups g p rest :
  closed_when_full max_tokens tokenizer (groups ++ [g]) →
  (max_tokens
   < Z.of_nat (sum_list (token_count tokenizer <$> g)
               + token_count tokenizer p))%Z →
  closed_when_full max_tokens tokenizer ((groups ++ [g]) ++ [p :: rest]).
Proof.
  intros Hc Hfull i g1 p1 rest1 H1 H2.
  destruct (decide (S i < length (groups ++ [g]))%nat) as [Hlt|Hge].
  - rewrite lookup_app_l in H1 by lia. rewrite lookup_app_l in H2 by done.
    by apply (Hc i g1 p1 rest1).
  - assert (S i = length (groups ++ [g])) as Hi.
    { apply lookup_lt_Some in H2. rewrite length_app in H2. simpl in H2.
      lia. }
    rewrite length_app in Hi. simpl in Hi.
    rewrite lookup_app_l in H1 by (rewrite length_app; simpl; lia).
    rewrite lookup_app_r in H1 by lia.
    replace (i - length groups)%nat with 0%nat in H1 by lia.
    rewrite lookup_app_r in H2 by (rewrite length_app; simpl; lia).
    rewrite length_app in H2. simpl in H2.
    replace (S i - (length groups + 1))%nat with 0%nat in H2 by lia.
    simpl in H1, H2. by simplify_eq.
Qed.

(** A paragraph added to the last group leaves its first paragraph as
    it is. *)
Lemma closed_when_full_grow groups q cur p :
  closed_when_full max_tokens tokenizer (groups ++ [q :: cur]) →
  closed_when_full max_tokens tokenizer (groups ++ [(q :: cur) ++ [p]]).
Proof.
  intros Hc i g1 p1 rest1 H1 H2.
  assert (S i < length groups + 1)%nat as Hlt.
  { apply lookup_lt_Some in H2. by rewrite length_app in H2. }
  rewrite lookup_app_l in H1 by lia.
  destruct (decide (S i < length groups)%nat) as [Hin|Hlast].
  - rewrite lookup_app_l in H2 by done.
    apply (Hc i g1 p1 rest1); by rewrite lookup_app_l by lia.
  - rewrite lookup_app_r in H2 by lia.
    replace (S i - length groups)%nat with 0%nat in H2 by lia.
    simpl in H2. injection H2 as <- <-.
    apply (Hc i g1 q cur); [by rewrite lookup_app_l by lia|].
    rewrite lookup_app_r by lia.
    by replace (S i - length groups)%nat with 0%nat by lia.
Qed.

Lemma kept_singleton p :
  filter (fun p => PyStr.is_empty p = false) [p]
  = if PyStr.is_empty p then [] else [p].
Proof.
  rewrite filter_cons, filter_nil.
  case_decide as H; simpl in H; destruct (PyStr.is_empty p); congruence.
Qed.

Lemma add_paragraph_ok st added para :
  chunker_ok max_tokens tokenizer st added →
  chunker_ok max_tokens tokenizer (add_paragraph max_tokens tokenizer st para)
    (added ++ filter (fun p => PyStr.is_empty p = false) [PyStr.strip para]).
Proof.
  intros (groups & Hch & Hcat & Hall & Hlen & Hcur & Hnil & Hfull).
  unfold add_paragraph. rewrite kept_singleton.
  destruct (PyStr.is_empty (PyStr.strip para)) eqn:He.
  { rewrite app_nil_r. exists groups. by split_and!. }
  unfold chunker_ok.
  set (p := PyStr.strip para) in *.
  destruct (Z.ltb_spec max_tokens
              (Z.of_nat (current_length st + token_count tokenizer p)))
    as [Hover|Hfits].
  - exists (groups ++ open_group (current_chunk st)).
    simpl. split_and!.
    + rewrite Hch. apply flush_groups.
    + by rewrite <- Hcat, concat_app, concat_open_group.
    + apply Forall_app. split; [done|].
      destruct (current_chunk st) as [|q cur] eqn:Ec; [constructor|].
      constructor; [|constructor]. split; [done|].
      by destruct Hcur as [?|?].
    + simpl. lia.
    + right. by right.
    + done.
    + destruct (current_chunk st) as [|q cur] eqn:Ec; simpl.
      * rewrite (Hnil eq_refl). apply closed_when_full_one.
      * apply closed_when_full_snoc; [done|]. by rewrite <- Hlen.
  - exists groups. simpl. split_and!; try done.
    + rewrite <- Hcat. by rewrite app_assoc.
    + rewrite fmap_app, Hlen. simpl. by rewrite sum_list_snoc.
    + right. left. rewrite fmap_app. simpl. rewrite sum_list_snoc.
      rewrite <- Hlen. lia.
    + intros Hc. by apply app_eq_nil in Hc as [_ ?].
    + destruct (current_chunk st) as [|q cur] eqn:Ec; simpl.
      * rewrite (Hnil eq_refl). apply closed_when_full_one.
      * by apply closed_when_full_grow.
Qed.

Lemma add_paragraphs_ok st added paragraphs :
  chunker_ok max_tokens tokenizer st added →
  chunker_ok max_tokens tokenizer
    (foldl (add_paragraph max_tokens tokenizer) st paragraphs)
    (added ++ filter (fun p => PyStr.is_empty p = false)
                (PyStr.strip <$> paragraphs)).
Proof.
  revert st added.
  induction paragraphs as [|para paragraphs IH]; intros st added Hst.
  { simpl. by rewrite filter_nil, app_nil_r. }
  simpl foldl. rewrite fmap_cons.
  change (PyStr.strip para :: (PyStr.strip <$> paragraphs))
    with ([PyStr.strip para] ++ (PyStr.strip <$> paragraphs)).
  rewrite filter_app, app_assoc. by apply IH, add_paragraph_ok.
Qed.

Lemma grouped_chunks_groups text :
  ∃ groups,
    grouped_chunks text max_tokens tokenizer = PyStr.join PARA_SEP <$> groups
    ∧ concat groups = kept_paragraphs text
    ∧ Forall (fun g => g ≠ [] ∧ within_budget max_tokens tokenizer g) groups
    ∧ closed_when_full max_tokens tokenizer groups.
Proof.
  unfold grouped_chunks, kept_paragraphs. cbv zeta.
  destruct (add_paragraphs_ok (Chunker [] [] 0) []
              (split_blank_lines (PyStr.strip text) false))
    as (groups & Hch & Hcat & Hall & Hlen & Hcur & Hnil & Hfull).
  { exists []. simpl. split_and!; auto. by intros i g p rest ?. }
  set (st := foldl _ _ _) in *. simpl in Hcat.
  exists (groups ++ open_group (current_chunk st)).
  split_and!.
  - rewrite Hch. apply flush_groups.
  - by rewrite <- Hcat, concat_app, concat_open_group.
  - apply Forall_app. split; [done|].
    destruct (current_chunk st) as [|q cur] eqn:Ec; [constructor|].
    constructor; [|constructor]. split; [done|]. by destruct Hcur as [?|?].
  - done.
Qed.

(** X20. Before the last chunk is looked at, the chunks are the joins
    of consecutive groups of the kept paragraphs, in order; no group is
    empty, and each is within the budget of [max_tokens] or is a single
    paragraph. *)
Theorem grouped_chunks_within_budget text :
  ∃ groups,
    grouped_chunks text max_tokens tokenizer = PyStr.join PARA_SEP <$> groups
    ∧ concat groups = kept_paragraphs text
    ∧ Forall (fun g => g ≠ []) groups
    ∧ Forall (within_budget max_tokens tokenizer) groups.
Proof.
  destruct (grouped_chunks_groups text) as (groups & Hch & Hcat & Hall & _).
  exists groups. split_and!; try done.
  - eapply Forall_impl; [exact Hall|]. by intros g [? _].
  - eapply Forall_impl; [exact Hall|]. by intros g [_ ?].
Qed.

(** X21. The result of [chunk_legal_text] loses and reorders nothing:
    joined by a blank line the chunks are the kept paragraphs joined by
    a blank line, whatever the budget, the tokenizer and the least
    number of words of the last chunk.  The chunks are the joins of
    consecutive non-empty groups of paragraphs, and every group but the
    last is within the budget or a single paragraph. *)
Theorem chunk_legal_text_preserves_text text min_last_chunk_words :
  let result := chunk_legal_text text max_tokens tokenizer
                  min_last_chunk_words in
  PyStr.join PARA_SEP result = PyStr.join PARA_SEP (kept_paragraphs text)
  ∧ ∃ groups,
      result = PyStr.join PARA_SEP <$> groups
      ∧ concat groups = kept_paragraphs text
      ∧ Forall (fun g => g ≠ []) groups
      ∧ ∀ i g, groups !! i = Some g → (S i < length groups)%nat →
          within_budget max_tokens tokenizer g.
Proof.
  cbv zeta.
  assert (∃ groups,
      chunk_legal_text text max_tokens tokenizer min_last_chunk_words
      = PyStr.join PARA_SEP <$> groups
      ∧ concat groups = kept_paragraphs text
      ∧ Forall (fun g => g ≠ []) groups
      ∧ ∀ i g, groups !! i = Some g → (S i < length groups)%nat →
          within_budget max_tokens tokenizer g) as (groups & Hr & Hcat & Hne & Hb).
  2:{ split; [|by exists groups]. rewrite Hr, <- Hcat. by apply join_groups. }
  unfold chunk_legal_text.
  destruct (grouped_chunks_groups text) as (groups & -> & Hcat & Hall & _).
  assert (Forall (fun g => g ≠ []) groups) as Hne.
  { eapply Forall_impl; [exact Hall|]. by intros g [? _]. }
  assert (∀ i g, groups !! i = Some g → within_budget max_tokens tokenizer g)
    as Hb.
  { intros i g Hi. by apply (Forall_lookup_1 _ _ _ _ Hall Hi). }
  unfold merge_last. rewrite <- fmap_reverse.
  destruct (reverse groups) as [|glast [|gprev gfront]] eqn:E;
    try (exists groups; split_and!; eauto; done).
  rewrite !fmap_cons.
  destruct (_ <? _)%Z; [|exists groups; split_and!; eauto; done].
  apply (f_equal reverse) in E. rewrite reverse_involutive in E.
  rewrite !reverse_cons, <- app_assoc in E. simpl in E. subst groups.
  apply Forall_app in Hne as [Hne1 Hne2].
  inversion Hne2 as [|?? Hprev Hne3]; subst.
  inversion Hne3 as [|?? Hlast _]; subst.
  exists (reverse gfront ++ [gprev ++ glast]). split_and!.
  - rewrite fmap_app, fmap_reverse. simpl. do 2 f_equal.
    by rewrite join_app.
  - rewrite <- Hcat, !concat_app. simpl. by rewrite !app_nil_r.
  - apply Forall_app. split; [done|]. constructor; [|constructor].
    by destruct gprev.
  - intros i g Hi Hlt. rewrite length_app in Hlt. simpl in Hlt.
    rewrite lookup_app_l in Hi by lia.
    apply (Hb i). by rewrite lookup_app_l by lia.
Qed.

(** X24. The grouping is greedy: before the last chunk is looked at, a
    chunk is followed by another only when the first paragraph of the
    next chunk did not fit, that is when the token counts of the chunk
    and of that paragraph add up to more than [max_tokens]. *)
Theorem grouped_chunks_greedy text :
  ∃ groups,
    grouped_chunks text max_tokens tokenizer = PyStr.join PARA_SEP <$> groups
    ∧ concat groups = kept_paragraphs text
    ∧ ∀ i g p rest,
        groups !! i = Some g → groups !! S i = Some (p :: rest) →
        (max_tokens
         < Z.of_nat (sum_list (token_count tokenizer <$> g)
                     + token_count tokenizer p))%Z.
Proof.
  destruct (grouped_chunks_groups text) as (groups & Hch & Hcat & _ & Hfull).
  by exists groups.
Qed.

End Chunking.

Lemma score_relations_nodup_witness :
  NoDup [("a", "b"); ("c", "d")]
  ∧ score_relations [("a", "b"); ("c", "d")] [("a", "b"); ("a", "b")]
    = greedy_policy [("a", "b"); ("c", "d")] [("a", "b"); ("a", "b")].
Proof.
  assert (NoDup [("a", "b"); ("c", "d")]) as H.
  { apply (bool_decide_unpack _). vm_compute. reflexivity. }
  split; [exact H|]. exact (score_relations_nodup _ _ H).
Defined.

(** * The keys of the per-type buckets *)

Section BucketKeys.

Implicit Types (gold pred : list entity) (st : score_state)
  (m : gmap string counts) (t : string).

Lemma find_match_type p used gold i j :
  find_match p used gold i = Some j →
  (i ≤ j)%nat ∧ ∃ g, gold !! (j - i)%nat = Some g ∧ g.2 = p.2.
Proof.
  revert i. induction gold as [|g gold IH]; intros i; simpl; [done|].
  destruct (negb _ && bool_decide (p.1 = g.1) && bool_decide (p.2 = g.2))
    eqn:E.
  - intros [= <-]. split; [lia|]. rewrite Nat.sub_diag. exists g.
    split; [done|].
    apply andb_true_iff in E as [_ E]. by apply bool_decide_eq_true in E.
  - intros H. destruct (IH _ H) as (Hle & g' & Hg' & Ht).
    split; [lia|]. exists g'. split; [|done].
    replace (j - i)%nat with (S (j - S i)) by lia. done.
Qed.

Lemma dom_bump f t m : dom (bump f t m) = {[t]} ∪ dom m.
Proof. rewrite bump_insert. apply dom_insert_L. Qed.

Lemma dom_inserts (l : list string) m :
  dom (foldl (fun m t => <[t := zero_counts]> m) m l) = list_to_set l ∪ dom m.
Proof.
  revert m. induction l as [|t l IH]; intros m; simpl; [set_solver|].
  rewrite IH, dom_insert_L. set_solver.
Qed.

Lemma dom_init_per_type : dom init_per_type = list_to_set ALL_ENTITY_TYPES.
Proof.
  unfold init_per_type. rewrite dom_inserts, dom_empty_L.
  apply (right_id_L ∅ (∪)).
Qed.

(** STEP 1: the keys are those at the start and the types predicted, and
    the type of every gold entity marked as used is a key. *)
Lemma step1_keys gold pred st :
  (∀ i g, gold !! i = Some g → st_used st !! i = Some true →
     g.2 ∈ dom (st_per_type st)) →
  let st' := foldl (score_pred gold) st pred in
  dom (st_per_type st') = dom (st_per_type st) ∪ list_to_set pred.*2
  ∧ (∀ i g, gold !! i = Some g → st_used st' !! i = Some true →
       g.2 ∈ dom (st_per_type st')).
Proof.
  cbv zeta. revert st. induction pred as [|p pred IH]; intros st Hst.
  { simpl. split; [set_solver|done]. }
  simpl foldl.
  assert (dom (st_per_type (score_pred gold st p))
          = {[p.2]} ∪ dom (st_per_type st)
          ∧ (∀ i g, gold !! i = Some g →
               st_used (score_pred gold st p) !! i = Some true →
               g.2 ∈ dom (st_per_type (score_pred gold st p))))
    as [Hdom Hused].
  { unfold score_pred.
    destruct (find_match p (st_used st) gold 0) as [j|] eqn:E; simpl.
    - split; [apply dom_bump|]. intros i g Hg Hi. rewrite dom_bump.
      apply find_match_type in E as (_ & g' & Hg' & Ht).
      rewrite Nat.sub_0_r in Hg'.
      destruct (decide (i = j)) as [->|Hne].
      + assert (g = g') as -> by congruence. rewrite Ht. set_solver.
      + rewrite list_lookup_insert_ne in Hi by done.
        specialize (Hst i g Hg Hi). set_solver.
    - split; [apply dom_bump|]. intros i g Hg Hi. rewrite dom_bump.
      specialize (Hst i g Hg Hi). set_solver. }
  destruct (IH _ Hused) as [Hd Hu]. split; [|done].
  rewrite Hd, Hdom, fmap_cons. set_solver.
Qed.

(** STEP 2: the types of the gold entities left unused become keys. *)
Lemma step2_keys (l : list (bool * entity))
    (acc : counts * gmap string counts) :
  let r := foldl score_gold acc l in
  dom acc.2 ⊆ dom r.2
  ∧ (∀ ug, ug ∈ l → ug.1 = false → ug.2.2 ∈ dom r.2)
  ∧ (∀ t, t ∈ dom r.2 → t ∈ dom acc.2 ∨ ∃ ug, ug ∈ l ∧ t = ug.2.2).
Proof.
  cbv zeta. revert acc. induction l as [|[u g] l IH]; intros acc.
  { simpl. split_and!; [done| |by left]. by intros ug ?%elem_of_nil. }
  simpl foldl. destruct (IH (score_gold acc (u, g))) as (H1 & H2 & H3).
  assert (dom (score_gold acc (u, g)).2
          = (if u then ∅ else {[g.2]}) ∪ dom acc.2) as Hstep.
  { unfold score_gold. destruct u; simpl; [set_solver|apply dom_bump]. }
  rewrite Hstep in H1, H3. split_and!.
  - set_solver.
  - intros ug [->|Hin]%elem_of_cons Hu; [|by apply H2].
    simpl in *. subst u. set_solver.
  - intros t Ht. destruct (H3 t Ht) as [Hin|(ug & Hug & ->)].
    + apply elem_of_union in Hin as [Hin|Hin]; [|by left].
      destruct u; [set_solver|]. right. exists (false, g).
      split; [by left|]. set_solver.
    + right. exists ug. split; [by right|done].
Qed.

(** X23. The keys of the per-type dictionary returned by
    [score_entities] are the known entity types, the types of the
    predictions and the types of the gold entities: every known type has
    a bucket, and so has every type that occurs on either side. *)
Theorem score_entities_bucket_keys gold pred :
  dom (score_entities gold pred).2
  = list_to_set ALL_ENTITY_TYPES ∪ list_to_set pred.*2
    ∪ list_to_set gold.*2.
Proof.
  unfold score_entities.
  set (st0 := ScoreState _ _ _).
  destruct (step1_keys gold pred st0) as [Hd Hu].
  { intros i g _ Hi. simpl in Hi.
    apply lookup_replicate in Hi as [? _]. done. }
  pose proof (step1_overall gold pred st0) as (Hlen & _).
  set (st1 := foldl (score_pred gold) st0 pred) in *.
  simpl in Hlen. rewrite length_replicate in Hlen.
  destruct (step2_keys (zip (st_used st1) gold)
              (st_overall st1, st_per_type st1)) as (H1 & H2 & H3).
  set (r := foldl score_gold _ _) in *. simpl in *.
  rewrite dom_init_per_type in Hd.
  apply set_eq. intros t. split.
  - intros Ht. destruct (H3 t Ht) as [Hin|([u g] & Hug & ->)].
    + set_solver.
    + apply elem_of_zip_r in Hug. simpl.
      apply elem_of_union_r, elem_of_list_to_set, list_elem_of_fmap.
      by exists g.
  - intros Ht.
    apply elem_of_union in Ht as [Ht|Ht]; [apply H1; set_solver|].
    apply elem_of_list_to_set, list_elem_of_fmap in Ht as (g & -> & Hg).
    apply list_elem_of_lookup in Hg as [i Hi].
    assert (is_Some (st_used st1 !! i)) as [u Hu'].
    { apply lookup_lt_is_Some. rewrite Hlen.
      by apply lookup_lt_Some in Hi. }
    destruct u.
    + apply H1. by apply (Hu i).
    + apply (H2 (false, g)); [|done].
      apply list_elem_of_lookup. exists i.
      apply lookup_zip_with_Some. by exists false, g.
Qed.

End BucketKeys.

(** * The files written by the runs *)

Section Runs.

Context {W : Type}.
Variable post : W → string → nat → post_result * W.
Variable dumps : pyvalue → string.

Implicit Types (st : @state W) (chunk_files : list chunk).

Lemma process_chunks_paths template base max_retries verification
    chunk_files st :
  let r := process_chunks post dumps template base max_retries verification
             chunk_files st in
  match r.1 with
  | Ok _ =>
      (files r.2).*1
      = (files st).*1 ++ coref_pass_paths base verification chunk_files
  | Raise _ =>
      ∃ n, (n < length (txt_chunks chunk_files))%nat
           ∧ (files r.2).*1
             = (files st).*1
               ++ take n (coref_pass_paths base verification chunk_files)
  end.
Proof.
  cbv zeta. unfold process_chunks, coref_pass_paths.
  destruct (process_chunk_files_writes post dumps template
              (base +:+ "/coref_outputs") max_retries verification
              chunk_files st) as (outputs & Hf & Hout).
  destruct (process_chunk_files _ _ _ _ _ _ _ _) as [[[]|msg] st1];
    simpl in *.
  - rewrite Hf, !fmap_app, Hout. simpl. by rewrite <- app_assoc.
  - destruct Hout as (n & Hn & Hout). rewrite length_fmap in Hn.
    exists n. split; [done|].
    rewrite Hf, fmap_app, Hout. f_equal.
    by rewrite take_app_le by (rewrite length_fmap; lia).
Qed.

Lemma verification_passes_paths template base max_retries chunk_files passes
    st :
  let r := verification_passes post dumps template base max_retries
             chunk_files passes st in
  match r.1 with
  | Ok _ =>
      (files r.2).*1
      = (files st).*1
        ++ concat (replicate passes (coref_pass_paths base true chunk_files))
  | Raise _ =>
      ∃ done n,
        (done < passes)%nat ∧ (n < length (txt_chunks chunk_files))%nat
        ∧ (files r.2).*1
          = (files st).*1
            ++ concat (replicate done
                         (coref_pass_paths base true chunk_files))
            ++ take n (coref_pass_paths base true chunk_files)
  end.
Proof.
  cbv zeta. revert st. induction passes as [|passes IH]; intros st; simpl.
  { by rewrite app_nil_r. }
  pose proof (process_chunks_paths template base max_retries true chunk_files
                st) as H1.
  destruct (process_chunks _ _ _ _ _ _ _ _) as [[[]|msg] st1]; simpl in *.
  - specialize (IH st1).
    destruct (verification_passes _ _ _ _ _ _ _ _).1 as [[]|msg'].
    + rewrite IH, H1. by rewrite <- !app_assoc.
    + destruct IH as (k & n & Hk & Hn & IH). exists (S k), n.
      split_and!; [lia|done|]. rewrite IH, H1. simpl.
      by rewrite <- !app_assoc.
  - destruct H1 as (n & Hn & H1). exists 0, n. split_and!; [lia|done|].
    by rewrite H1.
Qed.

(** X25. The files of a run of the coreference stage.  A run that ends
    normally has written the outputs of the discovery pass and the final
    memory, and then, [verify_passes] times over, the outputs of a
    verification pass and the final memory: every verification pass
    writes to the same paths as the one before it, and the final memory
    is written once per pass.  A run that raises has written the files
    of the passes made before the failing one, and of that pass the
    outputs of the chunks before the failing chunk. *)
Theorem coref_main_writes discovery_prompt verify_prompt base max_retries
    verify_passes chunk_files st :
  let r := coref_main post dumps discovery_prompt verify_prompt base
             max_retries verify_passes chunk_files st in
  let passes :=
    coref_pass_paths base false chunk_files
    :: replicate verify_passes (coref_pass_paths base true chunk_files) in
  match r.1 with
  | Ok _ => (files r.2).*1 = (files st).*1 ++ concat passes
  | Raise _ =>
      ∃ done n pass,
        passes !! done = Some pass
        ∧ (n < length (txt_chunks chunk_files))%nat
        ∧ (files r.2).*1
          = (files st).*1 ++ concat (take done passes) ++ take n pass
  end.
Proof.
  cbv zeta. unfold coref_main.
  pose proof (process_chunks_paths discovery_prompt base max_retries false
                chunk_files (set_memory [] [] st)) as H1.
  destruct (process_chunks _ _ _ _ _ _ _ _) as [[[]|msg] st1]; simpl in *.
  - pose proof (verification_passes_paths verify_prompt base max_retries
                  chunk_files verify_passes st1) as H2.
    cbv zeta in H2.
    destruct (verification_passes _ _ _ _ _ _ _ _).1 as [[]|msg'].
    + rewrite H2, H1. by rewrite <- !app_assoc.
    + destruct H2 as (k & n & Hk & Hn & H2).
      exists (S k), n, (coref_pass_paths base true chunk_files).
      split_and!; [|done|].
      * simpl. by apply lookup_replicate_2.
      * rewrite H2, H1. simpl. rewrite take_replicate.
        rewrite Nat.min_l by lia. by rewrite <- !app_assoc.
  - destruct H1 as (n & Hn & H1).
    exists 0, n, (coref_pass_paths base false chunk_files).
    split_and!; [done|done|]. by rewrite H1.
Qed.

(** The files of one chunk of the entity stage. *)
Lemma ner_chunk_writes template output_dir max_retries fname text st :
  (0 ≤ max_retries)%Z →
  let r := ner_chunk post dumps template output_dir max_retries fname text
             st in
  match r.1 with
  | Ok _ =>
      (files r.2).*1
      = (files st).*1 ++ [ner_raw_path output_dir fname;
                          ner_out_path output_dir fname]
  | Raise _ => files r.2 = files st
  end.
Proof.
  intros Hmax. cbv zeta. unfold ner_chunk.
  destruct (ner_loop_spec post (S (Z.to_nat max_retries))
              (ner_base_prompt template text) fname max_retries 0 st
              ltac:(lia) ltac:(lia))
    as (_ & _ & Hf & evs & _ & _ & _ & _ & Hout).
  destruct (ner_loop _ _ _ _ _ _ _) as [[raw parsed|msg| |] st1];
    simpl in *; try done.
  rewrite Hf, !fmap_app. simpl. by rewrite <- app_assoc.
Qed.

(** X26. The files of a run of the entity stage, for a number of
    retries that is not negative: a run that ends normally has written,
    for every [.txt] file of the listing in order, the raw answer and
    then the decoded object; a run that raises has written the two
    files of each chunk before the failing one and nothing for the
    failing chunk. *)
Theorem ner_main_writes template output_dir max_retries
    (listing : list (string * string)) st :
  (0 ≤ max_retries)%Z →
  let r := ner_main post dumps template output_dir max_retries listing st in
  let txt := filter (fun f => PyStr.endswith ".txt" f.1 = true) listing in
  match r.1 with
  | Ok _ => (files r.2).*1 = (files st).*1 ++ ner_paths output_dir txt
  | Raise _ =>
      ∃ n, (n < length txt)%nat
           ∧ (files r.2).*1
             = (files st).*1 ++ ner_paths output_dir (take n txt)
  end.
Proof.
  intros Hmax. cbv zeta. unfold ner_main.
  generalize (filter (fun f => PyStr.endswith ".txt" f.1 = true) listing).
  intros txt. revert st.
  induction txt as [|[fname text] txt IH]; intros st; simpl.
  { by rewrite app_nil_r. }
  pose proof (ner_chunk_writes template output_dir max_retries fname text st
                Hmax) as H1.
  destruct (ner_chunk _ _ _ _ _ _ _ _) as [[[]|msg] st1]; simpl in *.
  - specialize (IH st1).
    destruct (ner_chunks _ _ _ _ _ _ _).1 as [[]|msg'].
    + rewrite IH, H1. by rewrite <- !app_assoc.
    + destruct IH as (n & Hn & IH). exists (S n). split; [lia|].
      rewrite IH, H1. simpl. by rewrite <- !app_assoc.
  - exists 0. split; [lia|]. rewrite H1. simpl. by rewrite app_nil_r.
Qed.

End Runs.

Lemma ner_main_writes_witness :
  let st := initial_state [Responded (Some text_key_a)] in
  let r := ner_main scripted dumps_text "T" "out" 0
             [("chunk_01.txt", "Bob."); ("log.md", "skip")] st in
  (0 ≤ 0)%Z
  ∧ match r.1 with
    | Ok _ =>
        (files r.2).*1
        = (files st).*1
          ++ ner_paths "out"
               (filter (fun f => PyStr.endswith ".txt" f.1 = true)
                  [("chunk_01.txt", "Bob."); ("log.md", "skip")])
    | Raise _ =>
        ∃ n, (n < length
                    (filter (fun f => PyStr.endswith ".txt" f.1 = true)
                       [("chunk_01.txt", "Bob."); ("log.md", "skip")]))%nat
             ∧ (files r.2).*1
               = (files st).*1
                 ++ ner_paths "out"
                      (take n
                         (filter (fun f => PyStr.endswith ".txt" f.1 = true)
                            [("chunk_01.txt", "Bob."); ("log.md", "skip")]))
    end.
Proof.
  cbv zeta. split; [lia|].
  apply (ner_main_writes scripted dumps_text "T" "out" 0
           [("chunk_01.txt", "Bob."); ("log.md", "skip")]
           (initial_state [Responded (Some text_key_a)])).
  lia.
Defined.
